(** * MC Extreme: the photon transport kernel and the Mie precomputation

    A shallow embedding of [mcextreme.cu] (the kernel [mcx_main_loop], and
    of [main] the configuration it builds, the loops that fill the volume
    and the media cache, and the launch) and of the Mie utilities ([Mie],
    [small_Mie], [MiePoly], [WhittleMattern], [Lentz_Dn], [Dn_up],
    [Dn_down]).

    Numbers.  [float] and [double] are read as the real numbers they
    approximate: [+ - * /] are the field operations of [R], and [logf],
    [expf], [sinf], [cosf], [acosf], [rsqrtf], [floorf], [sqrt], [pow] are
    the mathematical functions.  Rounding, infinities and NaN are outside
    this reading.  A quotient whose divisor is zero has no IEEE counterpart
    here, so every statement below that speaks about a quotient either
    assumes the divisor is not zero or does not depend on its value.

    Integers ([int], [long], [uint]) are [Z] or [nat]; a value drawn from
    the generator is a [Z] in the range [0 <= ran < MAX_MT_RAND]. *)

From Stdlib Require Import Reals Lra Lia ZArith List String Psatz.
Import ListNotations.
Open Scope bool_scope.
Open Scope R_scope.

(** ** CUDA vector types *)

Record float2 := make_float2 { x2 : R; y2 : R }.
Record float3 := make_float3 { x3 : R; y3 : R; z3 : R }.
Record float4 := make_float4 { x4 : R; y4 : R; z4 : R; w4 : R }.

(** Comparisons of the source, as booleans. *)
Definition Rltb (a b : R) : bool := if Rlt_dec a b then true else false.
Definition Rleb (a b : R) : bool := if Rle_dec a b then true else false.

(** Case analysis on every comparison in the goal. *)
Ltac decide_R :=
  unfold Rltb, Rleb;
  repeat match goal with
  | |- context [Rlt_dec ?a ?b] => destruct (Rlt_dec a b)
  | |- context [Rle_dec ?a ?b] => destruct (Rle_dec a b)
  end.

(** ** The transport kernel *)

Module Kernel.

(** The macros of [mcextreme.cu]. *)
Definition DIMX : Z := 128.
Definition DIMY : Z := 128.
Definition DIMZ : Z := 128.
Definition DIMYZ : Z := DIMY * DIMZ.
Definition DIMXYZ : Z := DIMX * DIMY * DIMZ.
Definition INDXYZ (ii jj kk : Z) : Z := ii * DIMYZ + jj * DIMZ + kk.
Definition MAX_MT_RAND : R := 4294967296.
Definition TWO_PI : R := 6.28318530717959.
Definition MINUS_SAME_VOXEL : R := -9999.
Definition GPUDIV (a b : R) : R := a / b.

(** [int(floorf(p.x)*DIMYZ+floorf(p.y)*DIMZ+floorf(p.z))]: the three floors
    are integers, so is their combination. *)
Definition voxel_index (p : float4) : Z :=
  (Zfloor (x4 p) * DIMYZ + Zfloor (y4 p) * DIMZ + Zfloor (z4 p))%Z.

(** The fluence array [field], read as a store from indices to values.
    [field[i] += v] is [field_add]. *)
Definition fluence := Z -> R.

Definition field_add (field : fluence) (i : Z) (v : R) : fluence :=
  fun j => if Z.eqb j i then field j + v else field j.

(** The kernel's arguments that stay fixed during a run.  [media] is the
    voxel array, [gproperty] the constant table of (mua, mus) pairs. *)
Record kernel_args := {
  totalmove : nat;
  media : Z -> Z;
  gproperty : Z -> float2;
  minstep : R;
  lmax : R;
  gg : R;
  gg2 : R;
  ggx2 : R;
  p0 : float4;
  c0 : float4;
  maxidx : float3
}.

Section WithGenerator.

(** The generator of [mt_rand_s.cu] is not part of the sources at hand: it
    is a state type with the two entry points the kernel calls. *)
Variable rng : Type.
Variable mt19937si : Z -> rng.
Variable mt19937s : rng -> Z * rng.

(** The local variables of one thread of [mcx_main_loop]. *)
Record photon := {
  npos : float4;   (* x, y, z, weight *)
  ndir : float4;   (* direction, scatter count in w *)
  nlen : float3;   (* residual free flight, path length, relaunch count *)
  idx1d : Z;
  ran : Z;
  gen : rng
}.

(** Lines 114-116: the cosine of the polar angle from one draw. *)
Definition hg_cos (a : kernel_args) (r : Z) : R :=
  let foo := (1 - gg2 a) / (1 - gg a + GPUDIV (ggx2 a * IZR r) MAX_MT_RAND) in
  let foo := foo * foo in
  GPUDIV (1 + gg2 a - foo) (ggx2 a).

(** Lines 124-139: the new direction from the old one and the sampled
    angles; the last component counts scattering events. *)
Definition scatter_dir (ndir0 : float4) (sphi cphi stheta ctheta : R) : float4 :=
  let nd :=
    if Rltb (-1) (z4 ndir0) && Rltb (z4 ndir0) 1 then
      let tmp0 := 1 - z4 ndir0 * z4 ndir0 in
      let tmp1 := / sqrt tmp0 in
      let tmp2 := stheta * tmp1 in
      if Rltb 1e-20 stheta then
        make_float4
          (tmp2 * (x4 ndir0 * z4 ndir0 * cphi - y4 ndir0 * sphi) + x4 ndir0 * ctheta)
          (tmp2 * (y4 ndir0 * z4 ndir0 * cphi + x4 ndir0 * sphi) + y4 ndir0 * ctheta)
          (- tmp2 * tmp0 * cphi + z4 ndir0 * ctheta)
          (w4 ndir0)
      else ndir0
    else make_float4 (stheta * cphi) (stheta * sphi) ctheta (w4 ndir0) in
  make_float4 (x4 nd) (y4 nd) (z4 nd) (w4 nd + 1).

(** Lines 94-141: the scatter decision. *)
Definition scatter (a : kernel_args) (s : photon) : photon :=
  if Rleb (x3 (nlen s)) 0 then
    let ndir0 := ndir s in
    let '(ran1, g1) := mt19937s (gen s) in
    let nlenx := - ln (GPUDIV (IZR ran1) MAX_MT_RAND) in
    let nlen1 := make_float3 nlenx (y3 (nlen s)) (z3 (nlen s)) in
    if Rltb (w4 (npos s)) 1 then
      let '(ran2, g2) := mt19937s g1 in
      let phi := GPUDIV (TWO_PI * IZR ran2) MAX_MT_RAND in
      let sphi := sin phi in
      let cphi := cos phi in
      let '(ran3, g3) := mt19937s g2 in
      let foo := hg_cos a ran3 in
      let theta := acos foo in
      let stheta := sin theta in
      let ctheta := foo in
      {| npos := npos s; ndir := scatter_dir ndir0 sphi cphi stheta ctheta;
         nlen := nlen1; idx1d := idx1d s; ran := ran3; gen := g3 |}
    else
      {| npos := npos s; ndir := ndir s; nlen := nlen1;
         idx1d := idx1d s; ran := ran1; gen := g1 |}
  else s.

(** Lines 142-156: the voxel step. *)
Definition voxel_step (a : kernel_args) (s : photon) : photon :=
  let mediaid := media a (idx1d s) in
  let prop := gproperty a mediaid in
  let len := minstep a * y2 prop in
  let p := npos s in
  let d := ndir s in
  let l := nlen s in
  if Rltb (x3 l) len then
    let step := GPUDIV (x3 l) (y2 prop) in
    {| npos := make_float4 (x4 p + x4 d * step) (y4 p + y4 d * step)
                 (z4 p + z4 d * step) (w4 p * exp (- x2 prop * step));
       ndir := d;
       nlen := make_float3 MINUS_SAME_VOXEL (y3 l + step) (z3 l);
       idx1d := idx1d s; ran := ran s; gen := gen s |}
  else
    let p' := make_float4 (x4 p + x4 d) (y4 p + y4 d) (z4 p + z4 d)
                (w4 p * exp (- x2 prop * minstep a)) in
    {| npos := p';
       ndir := d;
       nlen := make_float3 (x3 l - len) (y3 l + minstep a) (z3 l);
       idx1d := voxel_index p'; ran := ran s; gen := gen s |}.

(** The test of line 157. *)
Definition leaves (a : kernel_args) (s : photon) : bool :=
  Rltb (lmax a) (x3 (nlen s))
  || Rltb (x4 (npos s)) 0 || Rltb (y4 (npos s)) 0 || Rltb (z4 (npos s)) 0
  || Rltb (x3 (maxidx a)) (x4 (npos s))
  || Rltb (y3 (maxidx a)) (y4 (npos s))
  || Rltb (z3 (maxidx a)) (z4 (npos s)).

(** The test of line 157, as a proposition. *)
Definition exits (a : kernel_args) (m : photon) : Prop :=
  x3 (nlen m) > lmax a
  \/ x4 (npos m) < 0 \/ y4 (npos m) < 0 \/ z4 (npos m) < 0
  \/ x4 (npos m) > x3 (maxidx a)
  \/ y4 (npos m) > y3 (maxidx a)
  \/ z4 (npos m) > z3 (maxidx a).

(** Lines 159-162: launch a new photon. *)
Definition relaunch (a : kernel_args) (idxorig : Z) (s : photon) : photon :=
  {| npos := p0 a; ndir := c0 a;
     nlen := make_float3 0 0 (z3 (nlen s) + 1);
     idx1d := idxorig; ran := ran s; gen := gen s |}.

(** Line 164: what is added to the fluence cell. *)
Definition deposit (s : photon) : R :=
  if Rltb 0 (x3 (nlen s)) then w4 (npos s) else 0.

(** Lines 157-165. *)
Definition boundary (a : kernel_args) (idxorig : Z) (sf : photon * fluence)
  : photon * fluence :=
  let '(s, field) := sf in
  if leaves a s then (relaunch a idxorig s, field)
  else (s, field_add field (idx1d s) (deposit s)).

(** One pass through the body of the [for] loop. *)
Definition micro_step (a : kernel_args) (idxorig : Z) (sf : photon * fluence)
  : photon * fluence :=
  let '(s, field) := sf in
  boundary a idxorig (voxel_step a (scatter a s), field).

Fixpoint iterate (n : nat) (a : kernel_args) (idxorig : Z)
  (sf : photon * fluence) : photon * fluence :=
  match n with
  | O => sf
  | S k => iterate k a idxorig (micro_step a idxorig sf)
  end.

(** The thread's state on entry: its slots of [n_pos], [n_dir], [n_len],
    the generator seeded from [n_seed]; [ran] has no initial value in the
    source, [ran_init] stands for it. *)
Definition entry (n_seed : Z) (n_pos n_dir : float4) (n_len : float3)
  (ran_init : Z) : photon :=
  {| npos := n_pos; ndir := n_dir; nlen := n_len;
     idx1d := voxel_index n_pos; ran := ran_init; gen := mt19937si n_seed |}.

(** [mcx_main_loop] for one thread: the final locals (written back to
    [n_seed], [n_pos], [n_dir], [n_len]) and the fluence array. *)
Definition mcx_main_loop (a : kernel_args) (field : fluence)
  (n_seed : Z) (n_pos n_dir : float4) (n_len : float3) (ran_init : Z)
  : photon * fluence :=
  let s := entry n_seed n_pos n_dir n_len ran_init in
  iterate (totalmove a) a (idx1d s) (s, field).

(** An index of the voxel and fluence arrays. *)
Definition in_grid (i : Z) : Prop := (0 <= i < DIMXYZ)%Z.

(** The position lies in the box the test of line 157 keeps. *)
Definition in_box (a : kernel_args) (p : float4) : Prop :=
  0 <= x4 p <= x3 (maxidx a) /\ 0 <= y4 p <= y3 (maxidx a)
  /\ 0 <= z4 p <= z3 (maxidx a).

(** The squared Euclidean norm of a direction. *)
Definition norm2 (d : float4) : R := x4 d * x4 d + y4 d * y4 d + z4 d * z4 d.

(** The kernel is called as [main] calls it, with an anisotropy strictly
    between -1 and 1 and not 0, a unit launch direction, and a generator
    whose draws are 32-bit values. *)
Definition well_configured (a : kernel_args) : Prop :=
  -1 < gg a < 1 /\ gg a <> 0 /\ gg2 a = gg a * gg a /\ ggx2 a = 2 * gg a
  /\ norm2 (c0 a) = 1
  /\ forall st, (0 <= fst (mt19937s st) < 4294967296)%Z.

End WithGenerator.

Arguments npos {rng}.
Arguments ndir {rng}.
Arguments nlen {rng}.
Arguments idx1d {rng}.
Arguments ran {rng}.
Arguments gen {rng}.
Arguments scatter {rng} mt19937s a s.
Arguments voxel_step {rng} a s.
Arguments leaves {rng} a s.
Arguments exits {rng} a m.
Arguments well_configured {rng} mt19937s a.
Arguments relaunch {rng} a idxorig s.
Arguments deposit {rng} s.
Arguments boundary {rng} a idxorig sf.
Arguments micro_step {rng} mt19937s a idxorig sf.
Arguments iterate {rng} mt19937s n a idxorig sf.
Arguments entry {rng} mt19937si n_seed n_pos n_dir n_len ran_init.
Arguments mcx_main_loop {rng} mt19937si mt19937s a field n_seed n_pos n_dir n_len ran_init.

(** The configuration [main] passes to the kernel. *)
Definition main_property (id : Z) : float2 :=
  if (id =? 0)%Z then make_float2 0 0
  else if (id =? 1)%Z then make_float2 0.009 0.75
  else if (id =? 2)%Z then make_float2 0.006 0.75
  else if (id =? 3)%Z then make_float2 0.009 0.95
  else make_float2 0 0.

Definition main_media (i : Z) : Z :=
  if ((0 <=? i) && (i <? DIMXYZ))%Z then 1%Z else 0%Z.

(** [main] calls the kernel with [gg], [gg*gg] and [2.f*gg]; here [g] is the
    anisotropy it starts from ([0.98] in the source). *)
Definition launch_args (total : nat) (g : R) : kernel_args :=
  {| totalmove := total;
     media := main_media;
     gproperty := main_property;
     minstep := 1;
     lmax := 100;
     gg := g;
     gg2 := g * g;
     ggx2 := 2 * g;
     p0 := make_float4 10 10 0 1;
     c0 := make_float4 0 0 1 0;
     maxidx := make_float3 (IZR (DIMX - 1)) (IZR (DIMY - 1)) (IZR (DIMZ - 1)) |}.

Definition main_args (total : nat) : kernel_args := launch_args total 0.98.

(** A generator to run the kernel on in closed examples: the state is a
    counter, a draw returns it reduced to 32 bits. *)
Definition counter_si (seed : Z) : Z := seed.
Definition counter_s (st : Z) : Z * Z := ((st mod 4294967296)%Z, (st + 1)%Z).

(** *** Photons for closed examples *)

(** A photon one voxel short of the last layer, flying along +x with
    weight 1/2 and residual free flight 5. *)
Definition near_face : photon Z :=
  {| npos := make_float4 126.5 10 10 0.5; ndir := make_float4 1 0 0 0;
     nlen := make_float3 5 0 0; idx1d := INDXYZ 126 10 10;
     ran := 0%Z; gen := 0%Z |}.

(** Where the voxel step takes it. *)
Definition near_face_moved : photon Z :=
  let p := make_float4 (126.5 + 1) (10 + 0) (10 + 0) (0.5 * exp (- (0.009) * 1)) in
  {| npos := p; ndir := make_float4 1 0 0 0;
     nlen := make_float3 (5 - 1 * 0.75) (0 + 1) 0;
     idx1d := voxel_index p; ran := 0%Z; gen := 0%Z |}.

(** A photon that has lost weight and has used up its free flight, so
    that the next micro-step scatters it; the generator is such that the
    third draw is 0. *)
Definition due_to_scatter (seed : Z) : photon Z :=
  {| npos := make_float4 10 10 5 0.5; ndir := make_float4 1 0 0 0;
     nlen := make_float3 0 3 0; idx1d := INDXYZ 10 10 5;
     ran := 0%Z; gen := seed |}.

(** A generator for closed examples whose draws are never 0: the state is
    a counter, a draw is between 1 and [2^32 - 1]. *)
Definition positive_s (st : Z) : Z * Z :=
  ((1 + st mod 4294967295)%Z, (st + 1)%Z).

(** [main]'s arguments over a medium that does not absorb. *)
Definition clear_args (total : nat) : kernel_args :=
  {| totalmove := total;
     media := main_media;
     gproperty := fun _ => make_float2 0 0.75;
     minstep := 1;
     lmax := 100;
     gg := 0.98;
     gg2 := 0.98 * 0.98;
     ggx2 := 2 * 0.98;
     p0 := make_float4 10 10 0 1;
     c0 := make_float4 0 0 1 0;
     maxidx := make_float3 (IZR (DIMX - 1)) (IZR (DIMY - 1)) (IZR (DIMZ - 1)) |}.

End Kernel.

(** ** The host program *)

Module Host.
Import Kernel.

(** The macros of [mcextreme.cu] that [main] uses. *)
Definition MAX_N : Z := 1024.
Definition MAX_THREAD : Z := 128.
Definition MAX_MEDIA_CACHE : Z := 53248.
Definition MEDIA_BITS : Z := 2.
Definition MEDIA_PACK : Z := Z.shiftr (8 / MEDIA_BITS) 1.
Definition MEDIA_MOD : Z := Z.shiftl 1 MEDIA_PACK - 1.
Definition MEDIA_MASK : Z := Z.shiftl 1 MEDIA_BITS - 1.

Record int3 := make_int3 { xi : Z; yi : Z; zi : Z }.

(** Line 74: the slot of [n_seed], [n_pos], [n_dir], [n_len] a thread
    works on.  [main] launches [MAX_N/MAX_THREAD] blocks of [MAX_THREAD]
    threads (lines 199-200 and 270). *)
Definition thread_idx (blockDim_x blockIdx_x threadIdx_x : Z) : Z :=
  (blockDim_x * blockIdx_x + threadIdx_x)%Z.

(** A C array of [size] elements is a store from indices to values; an
    access outside [0, size) has no result. *)
Definition get {A} (size : Z) (arr : Z -> A) (i : Z) : option A :=
  if ((0 <=? i) && (i <? size))%Z then Some (arr i) else None.

Definition put {A} (size : Z) (arr : Z -> A) (i : Z) (v : A) : option (Z -> A) :=
  if ((0 <=? i) && (i <? size))%Z
  then Some (fun j => if (j =? i)%Z then v else arr j)
  else None.

(** [for (i = lo; i < hi; i++) body] on integers. *)
Fixpoint for_count {St} (count : nat) (i : Z) (body : Z -> St -> option St)
  (s : St) : option St :=
  match count with
  | O => Some s
  | S c =>
      match body i s with
      | Some s' => for_count c (i + 1) body s'
      | None => None
      end
  end.

Definition for_range {St} (lo hi : Z) (body : Z -> St -> option St) (s : St)
  : option St :=
  for_count (Z.to_nat (hi - lo)) lo body s.

(** Lines 229-234: every voxel gets medium 1 and fluence 0.  [media] and
    [field] are what the two arrays held before. *)
Definition init_volume (media : Z -> Z) (field : fluence)
  : option ((Z -> Z) * fluence) :=
  for_range 0 DIMX (fun i =>
    for_range 0 DIMY (fun j =>
      for_range 0 DIMZ (fun k mf =>
        match put DIMXYZ (fst mf) (INDXYZ i j k) 1%Z with
        | Some media' =>
            match put DIMXYZ (snd mf) (INDXYZ i j k) 0 with
            | Some field' => Some (media', field')
            | None => None
            end
        | None => None
        end)))
    (media, field).

(** A value stored into a [uint]. *)
Definition uint (v : Z) : Z := (v mod 4294967296)%Z.

(** Lines 236-245: the voxels of the box [cp0 <= (i, j, k) < cp1] are
    packed, [MEDIA_BITS] bits each, into the words of [mediacache], which
    [memset] has zeroed; [count] numbers the voxels in the order of the
    loops.  The result is the cache and the final [count]. *)
Definition pack_media (media : Z -> Z) (cp0 cp1 : int3)
  : option ((Z -> Z) * Z) :=
  for_range (xi cp0) (xi cp1) (fun i =>
    for_range (yi cp0) (yi cp1) (fun j =>
      for_range (zi cp0) (zi cp1) (fun k cc =>
        let mediacache := fst cc in
        let count := snd cc in
        let word := Z.shiftr count MEDIA_PACK in
        match get DIMXYZ media (INDXYZ i j k),
              get (Z.shiftr MAX_MEDIA_CACHE 2) mediacache word with
        | Some m, Some old =>
            match put (Z.shiftr MAX_MEDIA_CACHE 2) mediacache word
                    (uint (Z.lor old
                             (Z.shiftl (Z.land m MEDIA_MASK)
                                (Z.land count MEDIA_MOD * MEDIA_BITS)))) with
            | Some mediacache' => Some (mediacache', (count + 1)%Z)
            | None => None
            end
        | _, _ => None
        end)))
    (fun _ => 0%Z, 0%Z).

(** [(int)x] for a float [x]: the fraction is dropped. *)
Definition int_of_float (x : R) : Z :=
  if Rle_dec 0 x then Zfloor x else (- Zfloor (- x))%Z.

(** The value of an [int] expression: wrapped into [-2^31, 2^31). *)
Definition int32 (v : Z) : Z :=
  ((v + 2147483648) mod 4294967296 - 2147483648)%Z.

(** Lines 286-288: [photoncount] adds up [(int)Plen[i].z] over the
    [MAX_N] threads. *)
Definition photoncount (Plen : Z -> float3) : option Z :=
  for_range 0 MAX_N
    (fun i count =>
       match get MAX_N Plen i with
       | Some len => Some (int32 (count + int_of_float (z3 len)))
       | None => None
       end)
    0%Z.

(** [main]'s box. *)
Definition main_cp0 : int3 := make_int3 0 0 0.
Definition main_cp1 : int3 := make_int3 20 20 40.

(** *** What the packing is to achieve *)

Open Scope Z_scope.

(** The number [count] gives the voxel [(i, j, k)] of the box. *)
Definition voxel_number (cp0 cp1 : int3) (i j k : Z) : Z :=
  ((i - xi cp0) * (yi cp1 - yi cp0) + (j - yi cp0)) * (zi cp1 - zi cp0)
  + (k - zi cp0).

Definition in_cache_box (cp0 cp1 : int3) (i j k : Z) : Prop :=
  xi cp0 <= i < xi cp1 /\ yi cp0 <= j < yi cp1 /\ zi cp0 <= k < zi cp1.

(** Bit [b] of the field of voxel number [c]. *)
Definition slot (cache : Z -> Z) (c b : Z) : bool :=
  Z.testbit (cache (c / 4)) (2 * (c mod 4) + b).

(** What the cache holds when the voxels numbered below [n] are packed. *)
Definition packed (media : Z -> Z) (cp0 cp1 : int3) (n : Z) (cache : Z -> Z)
  : Prop :=
  (forall i j k, in_cache_box cp0 cp1 i j k -> voxel_number cp0 cp1 i j k < n ->
     forall b, 0 <= b < 2 ->
       slot cache (voxel_number cp0 cp1 i j k) b
       = Z.testbit (media (INDXYZ i j k)) b)
  /\ (forall c b, n <= c -> 0 <= b < 2 -> slot cache c b = false)
  /\ (forall w p, 8 <= p -> Z.testbit (cache w) p = false)
  /\ (forall w, 0 <= cache w).

Close Scope Z_scope.

End Host.

(** ** The Mie utilities *)

Module Mie.

(** [Dcomplex]: a pair of doubles with the arithmetic of C's
    [double _Complex]. *)
Record Dcomplex := make_Dcomplex { creal : R; cimag : R }.

Definition RtoC (r : R) : Dcomplex := make_Dcomplex r 0.
Definition Cadd (a b : Dcomplex) : Dcomplex :=
  make_Dcomplex (creal a + creal b) (cimag a + cimag b).
Definition Csub (a b : Dcomplex) : Dcomplex :=
  make_Dcomplex (creal a - creal b) (cimag a - cimag b).
Definition Cmul (a b : Dcomplex) : Dcomplex :=
  make_Dcomplex (creal a * creal b - cimag a * cimag b)
                (creal a * cimag b + cimag a * creal b).
Definition Cdiv (a b : Dcomplex) : Dcomplex :=
  let d := creal b * creal b + cimag b * cimag b in
  make_Dcomplex ((creal a * creal b + cimag a * cimag b) / d)
                ((cimag a * creal b - creal a * cimag b) / d).
(** A real times a complex, a real over a complex. *)
Definition Cscale (r : R) (a : Dcomplex) : Dcomplex :=
  make_Dcomplex (r * creal a) (r * cimag a).
Definition RdivC (r : R) (a : Dcomplex) : Dcomplex := Cdiv (RtoC r) a.
Definition cabs (a : Dcomplex) : R :=
  sqrt (creal a * creal a + cimag a * cimag a).
Definition conj (a : Dcomplex) : Dcomplex := make_Dcomplex (creal a) (- cimag a).
Definition csin (a : Dcomplex) : Dcomplex :=
  make_Dcomplex (sin (creal a) * cosh (cimag a)) (cos (creal a) * sinh (cimag a)).
Definition ccos (a : Dcomplex) : Dcomplex :=
  make_Dcomplex (cos (creal a) * cosh (cimag a)) (- (sin (creal a) * sinh (cimag a))).
Definition ctan (a : Dcomplex) : Dcomplex := Cdiv (csin a) (ccos a).

(** Modelled from the spec: [MCX_ERROR], a macro of [mcx_utils.h], which is
    not among the sources at hand.  "Mie-side errors abort the
    precomputation and are surfaced to the caller": raising it ends the
    routine, and the error keeps the macro's two arguments.

    The other ways a routine can end without returning: [OutOfBounds i len]
    is an access at index [i] of an array of [len] elements (undefined
    behaviour in C), [Unallocated] a read through a pointer that was never
    set. *)
Inductive fault :=
| MCX_ERROR (id : Z) (msg : string)
| OutOfBounds (i : Z) (len : nat)
| Unallocated.

(** [Running]: a loop has not ended when the fuel is spent. *)
Inductive outcome (A : Type) :=
| Ok (a : A)
| Fail (f : fault)
| Running.
Arguments Ok {A} a.
Arguments Fail {A} f.
Arguments Running {A}.

Definition bind {A B} (c : outcome A) (k : A -> outcome B) : outcome B :=
  match c with
  | Ok a => k a
  | Fail f => Fail f
  | Running => Running
  end.

Notation "x <- c ;; k" := (bind c (fun x => k))
  (at level 61, c at next level, right associativity).
Notation "' p <- c ;; k" := (bind c (fun p => k))
  (at level 61, p pattern, c at next level, right associativity).

(** The two conditions the spec names, as the errors [Mie] raises. *)
Definition InvalidInput : fault := MCX_ERROR (-6) "sphere size must be positive".
Definition Unvalidated : fault :=
  MCX_ERROR (-6) "spheres with x>20000 are not validated".

(** No [MCX_ERROR] comes out. *)
Definition raises_no_error {A} (o : outcome A) : Prop :=
  forall id msg, o <> Fail (MCX_ERROR id msg).

(** Arrays are lists; an access checks its index. *)
Definition load {A} (l : list A) (i : nat) : outcome A :=
  match nth_error l i with
  | Some v => Ok v
  | None => Fail (OutOfBounds (Z.of_nat i) (List.length l))
  end.

Fixpoint upd {A} (l : list A) (i : nat) (v : A) : list A :=
  match l, i with
  | [], _ => []
  | _ :: t, O => v :: t
  | h :: t, S j => h :: upd t j v
  end.

Definition store {A} (l : list A) (i : nat) (v : A) : outcome (list A) :=
  if (i <? List.length l)%nat then Ok (upd l i v)
  else Fail (OutOfBounds (Z.of_nat i) (List.length l)).

(** [for (i = lo; i < lo + count; i++) body]. *)
Fixpoint for_loop {St} (count : nat) (i : nat) (body : nat -> St -> outcome St)
  (s : St) : outcome St :=
  match count with
  | O => Ok s
  | S c => s' <- body i s ;; for_loop c (S i) body s'
  end.

(** [for (k = hi; k >= 1; k--) body], [count] iterations from [k = count]. *)
Fixpoint for_down {St} (count : nat) (body : nat -> St -> outcome St)
  (s : St) : outcome St :=
  match count with
  | O => Ok s
  | S c => s' <- body count s ;; for_down c body s'
  end.

(** *** [Lentz_Dn] *)

Record lentz_state := {
  aj : Dcomplex;
  alpha_j1 : Dcomplex;
  alpha_j2 : Dcomplex;
  ratio : Dcomplex;
  zinv : Dcomplex;
  runratio : Dcomplex
}.

(** Lines 505-511. *)
Definition lentz_init (z : Dcomplex) (n : Z) : lentz_state :=
  let zinv := RdivC 2 z in
  let alpha := Cscale (IZR n + 0.5) zinv in
  let aj := Cscale (- IZR n - 1.5) zinv in
  let alpha_j1 := Cadd aj (RdivC 1 alpha) in
  let alpha_j2 := aj in
  let ratio := Cdiv alpha_j1 alpha_j2 in
  let runratio := Cmul alpha ratio in
  {| aj := aj; alpha_j1 := alpha_j1; alpha_j2 := alpha_j2;
     ratio := ratio; zinv := zinv; runratio := runratio |}.

(** Lines 514-519: the body of the [do] loop. *)
Definition lentz_body (s : lentz_state) : lentz_state :=
  let aj := Csub (zinv s) (aj s) in
  let alpha_j1 := Cadd (RdivC 1 (alpha_j1 s)) aj in
  let alpha_j2 := Cadd (RdivC 1 (alpha_j2 s)) aj in
  let ratio := Cdiv alpha_j1 alpha_j2 in
  let zinv := Cscale (-1) (zinv s) in
  let runratio := Cmul (runratio s) ratio in
  {| aj := aj; alpha_j1 := alpha_j1; alpha_j2 := alpha_j2;
     ratio := ratio; zinv := zinv; runratio := runratio |}.

(** Line 520: the loop goes on while this holds. *)
Definition lentz_continue (s : lentz_state) : bool :=
  Rltb 1e-12 (Rabs (cabs (ratio s) - 1)).

(** The [do ... while] loop: the body runs, then the test. *)
Fixpoint lentz_loop (fuel : nat) (s : lentz_state) : outcome lentz_state :=
  match fuel with
  | O => Running
  | S f =>
      let s' := lentz_body s in
      if lentz_continue s' then lentz_loop f s' else Ok s'
  end.

Definition Lentz_Dn (fuel : nat) (z : Dcomplex) (n : Z) : outcome Dcomplex :=
  s <- lentz_loop fuel (lentz_init z n) ;;
  Ok (Cadd (RdivC (- IZR n) z) (runratio s)).

(** The state after [k] passes through the body of the loop. *)
Definition lentz_after (z : Dcomplex) (n : Z) (k : nat) : lentz_state :=
  Nat.iter k lentz_body (lentz_init z n).

(** For a real [z = 2/eps] far beyond the order, the two partial
    quotients stay real and of opposite signs, one of modulus at most
    [(k+2)^2 eps], the other at least [1/((k+2)^2 eps)], and they swap
    roles at every pass. *)
Definition oscillating (eps : R) (k : nat) (s : lentz_state) : Prop :=
  exists small large : R,
    0 < small <= (INR k + 2) ^ 2 * eps
    /\ 1 / ((INR k + 2) ^ 2 * eps) <= large
    /\ alpha_j1 s = RtoC (if Nat.even k then large else small)
    /\ alpha_j2 s = RtoC (if Nat.even k then - small else - large)
    /\ aj s = RtoC ((if Nat.even k then -1 else 1) * (INR k + 1.5) * eps)
    /\ zinv s = RtoC ((if Nat.even k then 1 else -1) * eps).

(** *** [Dn_up] and [Dn_down] *)

Definition Dn_up (z : Dcomplex) (nstop : Z) (D : list Dcomplex)
  : outcome (list Dcomplex) :=
  let zinv := RdivC 1 z in
  D <- store D 0 (RdivC 1 (ctan z)) ;;
  for_loop (Z.to_nat (nstop - 1)) 1
    (fun k D =>
       let k_over_z := Cscale (INR k) zinv in
       d <- load D (k - 1) ;;
       store D k (Csub (RdivC 1 (Csub k_over_z d)) k_over_z))
    D.

Definition Dn_down (fuel : nat) (z : Dcomplex) (nstop : Z) (D : list Dcomplex)
  : outcome (list Dcomplex) :=
  let zinv := RdivC 1 z in
  v <- Lentz_Dn fuel z nstop ;;
  D <- (if (nstop <? 1)%Z then Fail (OutOfBounds (nstop - 1) (List.length D))
        else store D (Z.to_nat (nstop - 1)) v) ;;
  for_down (Z.to_nat (nstop - 1))
    (fun k D =>
       let k_over_z := Cscale (INR k) zinv in
       d <- load D k ;;
       store D (k - 1) (Csub k_over_z (RdivC 1 (Cadd d k_over_z))))
    D.

Section WithConstants.

(** [NANGLES], [ONE_PI] and [TWO_PI] come from [mcx_const.h], which is not
    among the sources at hand. *)
Variable NANGLES : nat.
Variable ONE_PI : R.
Variable TWO_PI : R.

(** Lines 206-209 and 487-490: one row of the Mueller matrix. *)
Definition mueller (s1 s2 : Dcomplex) : float4 :=
  make_float4
    (0.5 * cabs s2 * cabs s2 + 0.5 * cabs s1 * cabs s1)
    (0.5 * cabs s2 * cabs s2 - 0.5 * cabs s1 * cabs s1)
    (creal (Cmul (conj s1) s2))
    (cimag (Cmul (conj s1) s2)).

(** One row of the Mueller matrix has [S11 >= 0] and [|S12| <= S11]. *)
Definition row_ok (r : float4) : Prop := 0 <= x4 r /\ Rabs (y4 r) <= x4 r.

Definition rows_ok (n : nat) (smatrix : list float4) : Prop :=
  forall k, (k < n)%nat -> exists r, nth_error smatrix k = Some r /\ row_ok r.

(** *** [small_Mie] *)

Definition small_Mie (x mx : R) (mu : list R) (smatrix : list float4)
  : outcome (list float4 * R * R) :=
  let m := make_Dcomplex mx 0 in
  let m2 := Cmul m m in
  let m4 := Cmul m2 m2 in
  let x2 := x * x in
  let x3 := x2 * x in
  let x4 := x2 * x2 in
  let z0 := make_Dcomplex (- cimag m2) (creal m2 - 1) in
  let ahat1 :=
    if Req_dec_T (creal m) 0 then
      let z3 := make_Dcomplex 0 (2 / 3 * (1 - 0.2 * x2)) in
      let D := make_Dcomplex (1 - 0.5 * x2) (2 / 3 * x3) in
      Cdiv z3 D
    else
      let z1 := Cscale (2 / 3) z0 in
      let z2 := make_Dcomplex (1 - 0.1 * x2 + (4 * creal m2 + 5) * x4 / 1400)
                              (4 * x4 * cimag m2 / 1400) in
      let z3 := Cmul z1 z2 in
      let z4 := Cscale (x3 * (1 - 0.1 * x2)) z1 in
      let D := make_Dcomplex
                 (2 + creal m2 + (1 - 0.7 * creal m2) * x2
                  + (8 * creal m4 - 385 * creal m2 + 350) / 1400 * x4 + creal z4)
                 ((- 0.7 * cimag m2) * x2
                  + (8 * cimag m4 - 385 * cimag m2) / 1400 * x4 + cimag z4) in
      Cdiv z3 D in
  let bhat1 :=
    if Req_dec_T (creal m) 0 then
      Cdiv (make_Dcomplex 0 (- (1 - 0.1 * x2) / 3))
           (make_Dcomplex (1 + 0.5 * x2) (- x3 / 3))
    else
      let z2 := Cscale (x2 / 45) z0 in
      let z6 := make_Dcomplex (1 + (2 * creal m2 - 5) * x2 / 70)
                              (cimag m2 * x2 / 35) in
      let z7 := make_Dcomplex (1 - (2 * creal m2 - 5) * x2 / 30)
                              (- cimag m2 * x2 / 15) in
      Cmul z2 (Cdiv z6 z7) in
  let ahat2 :=
    if Req_dec_T (creal m) 0 then make_Dcomplex 0 (x2 / 30)
    else
      let z3 := Cscale ((1 - x2 / 14) * x2 / 15) z0 in
      let z8 := make_Dcomplex (2 * creal m2 + 3 - (creal m2 / 7 - 0.5) * x2)
                              (2 * cimag m2 - cimag m2 / 7 * x2) in
      Cdiv z3 z8 in
  let T := cabs ahat1 * cabs ahat1 + cabs bhat1 * cabs bhat1
           + 5 / 3 * cabs ahat2 * cabs ahat2 in
  let qsca := 6 * x4 * T in
  let g := (creal ahat1 * (creal ahat2 + creal bhat1)
            + cimag ahat1 * (cimag ahat2 + cimag bhat1)) / T in
  let x3 := x3 * 1.5 in
  let ahat1 := Cscale x3 ahat1 in
  let bhat1 := Cscale x3 bhat1 in
  let ahat2 := Cscale (x3 * 5 / 3) ahat2 in
  smatrix <- for_loop NANGLES 0
    (fun j smatrix =>
       muj <- load mu j ;;
       let angle := 2 * muj * muj - 1 in
       let s1 := Cadd ahat1 (Cscale muj (Cadd bhat1 ahat2)) in
       let s2 := Cadd bhat1 (Cscale angle (Cadd ahat1 ahat2)) in
       store smatrix j (mueller s1 s2))
    smatrix ;;
  Ok (smatrix, qsca, g).

(** *** [Mie] *)

(** The working arrays of [Mie], each of [NANGLES] elements, and its
    scalar locals. *)
Record mie_arrays := {
  s1 : list Dcomplex;
  s2 : list Dcomplex;
  pi0 : list R;
  pi1 : list R;
  tau : list R
}.

Record mie_scalars := {
  psi0 : R;
  psi1 : R;
  xi0 : Dcomplex;
  xi1 : Dcomplex;
  qsca : R;
  g : R;
  sign : Z;
  anm1 : Dcomplex;
  bnm1 : Dcomplex;
  z1 : Dcomplex
}.

(** Each working array has [L] elements. *)
Definition arrays_len (L : nat) (a : mie_arrays) : Prop :=
  List.length (s1 a) = L /\ List.length (s2 a) = L /\ List.length (pi0 a) = L
  /\ List.length (pi1 a) = L /\ List.length (tau a) = L.

(** [D[n]]: [D] is only allocated when [creal(m) > 0]. *)
Definition load_D (D : option (list Dcomplex)) (n : nat) : outcome Dcomplex :=
  match D with
  | Some D => load D n
  | None => Fail Unallocated
  end.

(** Lines 149-166: the coefficients [an], [bn] and the new [z1]. *)
Definition mie_coefficients (m : Dcomplex) (x : R) (D : option (list Dcomplex))
  (n : nat) (sc : mie_scalars) : outcome (Dcomplex * Dcomplex * Dcomplex) :=
  let nr := INR n in
  if Req_dec_T (creal m) 0 then
    let an := RdivC (nr * psi1 sc / x - psi0 sc)
                    (Csub (Cscale (nr / x) (xi1 sc)) (xi0 sc)) in
    let bn := RdivC (psi1 sc) (xi1 sc) in
    Ok (an, bn, z1 sc)
  else if Req_dec_T (cimag m) 0 then
    Dn <- load_D D n ;;
    let z1a := make_Dcomplex (creal Dn / creal m + nr / x) (cimag (z1 sc)) in
    let an := RdivC (creal z1a * psi1 sc - psi0 sc)
                    (Csub (Cscale (creal z1a) (xi1 sc)) (xi0 sc)) in
    let z1b := make_Dcomplex (creal Dn * creal m + nr / x) (cimag z1a) in
    let bn := RdivC (creal z1b * psi1 sc - psi0 sc)
                    (Csub (Cscale (creal z1b) (xi1 sc)) (xi0 sc)) in
    Ok (an, bn, z1b)
  else
    Dn <- load_D D n ;;
    let z1a := Cadd (Cdiv Dn m) (RtoC (nr / x)) in
    let an := Cdiv (make_Dcomplex (creal z1a * psi1 sc - psi0 sc)
                                  (cimag z1a * psi1 sc))
                   (Csub (Cmul z1a (xi1 sc)) (xi0 sc)) in
    let z1b := Cadd (Cmul Dn m) (RtoC (nr / x)) in
    let bn := Cdiv (make_Dcomplex (creal z1b * psi1 sc - psi0 sc)
                                  (cimag z1b * psi1 sc))
                   (Csub (Cmul z1b (xi1 sc)) (xi0 sc)) in
    Ok (an, bn, z1b).

(** Lines 168-175: the body of the first loop over the angles. *)
Definition mie_angle_sum (n : nat) (an bn : Dcomplex) (mu : list R)
  (k : nat) (a : mie_arrays) : outcome mie_arrays :=
  let nr := INR n in
  let factor := (2 * nr + 1) / (nr + 1) / nr in
  muk <- load mu k ;;
  p1 <- load (pi1 a) k ;;
  p0 <- load (pi0 a) k ;;
  tau' <- store (tau a) k (nr * muk * p1 - (nr + 1) * p0) ;;
  p1 <- load (pi1 a) k ;;
  let alpha := factor * p1 in
  tk <- load tau' k ;;
  let beta := factor * tk in
  v1 <- load (s1 a) k ;;
  s1' <- store (s1 a) k
           (Cadd v1 (make_Dcomplex (alpha * creal an + beta * creal bn)
                                   (alpha * cimag an + beta * cimag bn))) ;;
  v2 <- load (s2 a) k ;;
  s2' <- store (s2 a) k
           (Cadd v2 (make_Dcomplex (alpha * creal bn + beta * creal an)
                                   (alpha * cimag bn + beta * cimag an))) ;;
  Ok {| s1 := s1'; s2 := s2'; pi0 := pi0 a; pi1 := pi1 a; tau := tau' |}.

(** Lines 177-181: the body of the second loop over the angles. *)
Definition mie_legendre (n : nat) (mu : list R) (k : nat) (a : mie_arrays)
  : outcome mie_arrays :=
  let nr := INR n in
  factor <- load (pi1 a) k ;;
  muk <- load mu k ;;
  p1 <- load (pi1 a) k ;;
  p0 <- load (pi0 a) k ;;
  pi1' <- store (pi1 a) k (((2 * nr + 1) * muk * p1 - (nr + 1) * p0) / nr) ;;
  pi0' <- store (pi0 a) k factor ;;
  Ok {| s1 := s1 a; s2 := s2 a; pi0 := pi0'; pi1 := pi1'; tau := tau a |}.

(** Lines 183-198: the scalar updates at the end of one order [n]. *)
Definition mie_advance (x : R) (n : nat) (an bn z1' : Dcomplex)
  (sc : mie_scalars) : mie_scalars :=
  let nr := INR n in
  let factor := 2 * nr + 1 in
  let g1 := g sc + (nr - 1 / nr)
              * (creal (anm1 sc) * creal an + cimag (anm1 sc) * cimag an
                 + creal (bnm1 sc) * creal bn + cimag (bnm1 sc) * cimag bn) in
  let g2 := g1 + factor / nr / (nr + 1)
              * (creal an * creal bn + cimag an * cimag bn) in
  let qsca' := qsca sc + factor * (cabs an * cabs an + cabs bn * cabs bn) in
  let factor := (2 * nr + 1) / x in
  let xi := Csub (Cscale factor (xi1 sc)) (xi0 sc) in
  {| psi0 := psi1 sc; psi1 := creal xi; xi0 := xi1 sc; xi1 := xi;
     qsca := qsca'; g := g2; sign := (sign sc * -1)%Z;
     anm1 := an; bnm1 := bn; z1 := z1' |}.

(** Lines 148-199: one order [n]. *)
Definition mie_order (m : Dcomplex) (x : R) (D : option (list Dcomplex))
  (mu : list R) (n : nat) (st : mie_arrays * mie_scalars)
  : outcome (mie_arrays * mie_scalars) :=
  let '(a, sc) := st in
  '(an, bn, z1') <- mie_coefficients m x D n sc ;;
  a <- for_loop NANGLES 0 (mie_angle_sum n an bn mu) a ;;
  a <- for_loop NANGLES 0 (mie_legendre n mu) a ;;
  Ok (a, mie_advance x n an bn z1' sc).

(** Lines 115-221: the general branch. *)
Definition Mie_main (fuel : nat) (x mx : R) (mu : list R)
  (smatrix : list float4) : outcome (list float4 * R * R) :=
  let m := make_Dcomplex mx 0 in
  let nstop := Zfloor (x + 4.05 * Rpower x 0.33333 + 2) in
  let a := {| s1 := repeat (RtoC 0) NANGLES; s2 := repeat (RtoC 0) NANGLES;
              pi0 := repeat 0 NANGLES; tau := repeat 0 NANGLES;
              pi1 := repeat 0 NANGLES |} in
  pi1' <- for_loop NANGLES 0 (fun i p => store p i 1) (pi1 a) ;;
  let a := {| s1 := s1 a; s2 := s2 a; pi0 := pi0 a; pi1 := pi1'; tau := tau a |} in
  D <- (if Rltb 0 (creal m) then
          let z := Cscale x m in
          let D := repeat (RtoC 0) (Z.to_nat (nstop + 1)) in
          D <- (if Rltb (Rabs (cimag m * x))
                        ((13.78 * creal m - 10.8) * creal m + 3.9)
                then Dn_up z nstop D
                else Dn_down fuel z nstop D) ;;
          Ok (Some D)
        else Ok None) ;;
  let psi0 := sin x in
  let psi1 := psi0 / x - cos x in
  let sc := {| psi0 := psi0; psi1 := psi1;
               xi0 := make_Dcomplex psi0 (cos x);
               xi1 := make_Dcomplex psi1 (cos x / x + sin x);
               qsca := 0; g := 0; sign := 1;
               anm1 := make_Dcomplex 0 0; bnm1 := make_Dcomplex 0 0;
               z1 := make_Dcomplex 0 0 |} in
  '(a, sc) <- for_loop (Z.to_nat nstop) 1 (mie_order m x D mu) (a, sc) ;;
  let qsca := qsca sc * (2 / (x * x)) in
  let g := g sc * (4 / qsca / (x * x)) in
  smatrix <- for_loop NANGLES 0
    (fun i smatrix =>
       v1 <- load (s1 a) i ;;
       v2 <- load (s2 a) i ;;
       store smatrix i (mueller v1 v2))
    smatrix ;;
  Ok (smatrix, qsca, g).

(** [Mie]: the two checks, the small-particle branch, the general branch. *)
Definition Mie (fuel : nat) (x mx : R) (mu : list R) (smatrix : list float4)
  : outcome (list float4 * R * R) :=
  let m := make_Dcomplex mx 0 in
  if Rleb x 0 then Fail (MCX_ERROR (-6) "sphere size must be positive")
  else if Rltb 20000 x
  then Fail (MCX_ERROR (-6) "spheres with x>20000 are not validated")
  else if (if Req_dec_T (creal m) 0 then Rltb x 0.1 else false)
          || (Rltb 0 (creal m) && Rltb (cabs m * x) 0.1)
  then small_Mie x mx mu smatrix
  else Mie_main fuel x mx mu smatrix.

(** *** The anisotropy from the sampled phase function *)

(** Lines 312-328 of [MiePoly], the same as lines 375-391 of
    [WhittleMattern]: the body of the last loop. *)
Definition anisotropy_step (mu s11 s12 s33 s43 : list R) (i : nat)
  (st : list float4 * R * R) : outcome (list float4 * R * R) :=
  let '(smatrix, temp, temp2) := st in
  a <- load s11 i ;;
  b <- load s12 i ;;
  c <- load s33 i ;;
  d <- load s43 i ;;
  smatrix <- store smatrix i (make_float4 a b c d) ;;
  if (i =? 0)%nat then
    mu0 <- load mu 0 ;;
    sm0 <- load smatrix 0 ;;
    Ok (smatrix,
        temp + mu0 * x4 sm0 * Rabs (mu0 - 1),
        temp2 + x4 sm0 * (mu0 - 1))
  else
    mui <- load mu i ;;
    smi <- load smatrix i ;;
    smp <- load smatrix (i - 1) ;;
    mup <- load mu (i - 1) ;;
    Ok (smatrix,
        temp + mui * (x4 smi + x4 smp) * Rabs (mui - mup) / 2,
        temp2 + (x4 smi + x4 smp) * Rabs (mui - mup) / 2).

(** Lines 312-329 and 375-392: copy the four arrays into [smatrix] and
    set [g = temp / temp2]. *)
Definition anisotropy (mu s11 s12 s33 s43 : list R) (smatrix : list float4)
  : outcome (list float4 * R) :=
  '(smatrix, temp, temp2) <-
     for_loop NANGLES 0 (anisotropy_step mu s11 s12 s33 s43) (smatrix, 0, 0) ;;
  Ok (smatrix, temp / temp2).

(** The sum of [f 0 .. f (n-1)]. *)
Fixpoint sum_upto (n : nat) (f : nat -> R) : R :=
  match n with
  | O => 0
  | S k => sum_upto k f + f k
  end.

(** The trapezoid rule as the spec words it: sample [k] weighs
    [(S11_k + S11_{k-1})/2 * |mu_k - mu_{k-1}|], "with the k = 0 term using
    (mu_0 - 1) as the substitute interval".  At [k = 0] there is no
    [S11_{-1}]; it is read as [S11_0], as the code does.  The substitute
    interval is read in both ways the words allow, the same way in both
    sums: its length [|mu_0 - 1|], or the signed [mu_0 - 1]. *)
Definition spec_interval (signed : bool) (mu : list R) (k : nat) : R :=
  match k with
  | O => if signed then nth 0 mu 0 - 1 else Rabs (nth 0 mu 0 - 1)
  | S j => Rabs (nth k mu 0 - nth j mu 0)
  end.

Definition spec_weight (signed : bool) (mu s11 : list R) (k : nat) : R :=
  match k with
  | O => nth 0 s11 0
  | S j => (nth k s11 0 + nth j s11 0) / 2
  end * spec_interval signed mu k.

Definition spec_anisotropy (signed : bool) (n : nat) (mu s11 : list R) : R :=
  sum_upto n (fun k => nth k mu 0 * spec_weight signed mu s11 k)
  / sum_upto n (spec_weight signed mu s11).

(** *** [MiePoly] *)

Definition NRS : nat := 1001.

(** Lines 288-295: the radii, their Gaussian weights and the total. *)
Definition MiePoly_weights (mean_radius st_dev delta_size : R)
  (ir : nat) (st : list R * list R * R) : outcome (list R * list R * R) :=
  let '(radii, weights, tot) := st in
  radii <- store radii ir (mean_radius - 3 * st_dev + INR ir * delta_size) ;;
  r <- load radii ir ;;
  weights <- store weights ir
    (1 / sqrt (2 * ONE_PI * st_dev * st_dev)
     * exp (- 1 / (2 * st_dev * st_dev) * ((r - mean_radius) * (r - mean_radius)))) ;;
  prob <- load weights ir ;;
  Ok (radii, weights, tot + prob).

Record poly_arrays := {
  s11_avg : list R;
  s12_avg : list R;
  s33_avg : list R;
  s43_avg : list R
}.

(** Each of the four arrays has [L] elements. *)
Definition poly_len (L : nat) (p : poly_arrays) : Prop :=
  List.length (s11_avg p) = L /\ List.length (s12_avg p) = L
  /\ List.length (s33_avg p) = L /\ List.length (s43_avg p) = L.

(** Lines 305-308: the body of the loop over the angles. *)
Definition MiePoly_add (prob tot : R) (smatrix : list float4) (i : nat)
  (p : poly_arrays) : outcome poly_arrays :=
  sm <- load smatrix i ;;
  a <- load (s11_avg p) i ;;
  s11' <- store (s11_avg p) i (a + (prob / tot) * x4 sm) ;;
  b <- load (s12_avg p) i ;;
  s12' <- store (s12_avg p) i (b + (prob / tot) * y4 sm) ;;
  c <- load (s33_avg p) i ;;
  s33' <- store (s33_avg p) i (c + (prob / tot) * z4 sm) ;;
  d <- load (s43_avg p) i ;;
  s43' <- store (s43_avg p) i (d + (prob / tot) * w4 sm) ;;
  Ok {| s11_avg := s11'; s12_avg := s12'; s33_avg := s33'; s43_avg := s43' |}.

(** Lines 298-310: one radius; the loop over the angles runs for
    [i = 0 .. NANGLES], both ends included. *)
Definition MiePoly_radius (fuel : nat) (mx : R) (mu : list R)
  (radii weights : list R) (tot nmed lambda : R) (ir : nat)
  (st : list float4 * R * R * poly_arrays)
  : outcome (list float4 * R * R * poly_arrays) :=
  let '(smatrix, _, _, p) := st in
  r <- load radii ir ;;
  let szx := TWO_PI * r * nmed / lambda in
  '(smatrix, qsca, g) <- Mie fuel szx mx mu smatrix ;;
  prob <- load weights ir ;;
  p <- for_loop (NANGLES + 1) 0 (MiePoly_add prob tot smatrix) p ;;
  Ok (smatrix, qsca, g, p).

Definition MiePoly (fuel : nat) (x mx : R) (mu : list R) (smatrix : list float4)
  (qsca g : R) (mean_radius CV nmed lambda : R)
  : outcome (list float4 * R * R) :=
  let nrs := 1001 in
  let st_dev := mean_radius * CV in
  let delta_size := 6 * st_dev / nrs in
  let radii := repeat 0 NRS in
  let weights := repeat 0 NRS in
  let p := {| s11_avg := repeat 0 NANGLES; s12_avg := repeat 0 NANGLES;
              s33_avg := repeat 0 NANGLES; s43_avg := repeat 0 NANGLES |} in
  p <- for_loop NANGLES 0
         (fun i p =>
            s11' <- store (s11_avg p) i 0 ;;
            s12' <- store (s12_avg p) i 0 ;;
            s33' <- store (s33_avg p) i 0 ;;
            s43' <- store (s43_avg p) i 0 ;;
            Ok {| s11_avg := s11'; s12_avg := s12';
                  s33_avg := s33'; s43_avg := s43' |})
         p ;;
  '(radii, weights, tot) <-
     for_loop NRS 0 (MiePoly_weights mean_radius st_dev delta_size)
       (radii, weights, 0) ;;
  '(smatrix, qsca, _, p) <-
     for_loop NRS 0 (MiePoly_radius fuel mx mu radii weights tot nmed lambda)
       (smatrix, qsca, g, p) ;;
  '(smatrix, g) <-
     anisotropy mu (s11_avg p) (s12_avg p) (s33_avg p) (s43_avg p) smatrix ;;
  Ok (smatrix, qsca, g).

(** *** [WhittleMattern] *)

(** Lines 359-363 and 368-372: the entries at angle index [i]. *)
Definition whittle_fill (klc D : R) (i : nat) (p : poly_arrays)
  : outcome poly_arrays :=
  let ang := INR i * ONE_PI / INR NANGLES in
  let sn := sin (INR i * ONE_PI / INR NANGLES / 2) in
  let spectral_density :=
    1 / Rpower (1 + 4 * (klc * klc) * (sn * sn)) (D / 2) in
  s11' <- store (s11_avg p) i ((1 + cos ang * cos ang) * spectral_density) ;;
  s12' <- store (s12_avg p) i ((cos ang * cos ang - 1) * spectral_density) ;;
  s33' <- store (s33_avg p) i ((2 * cos ang) * spectral_density) ;;
  s43' <- store (s43_avg p) i 0 ;;
  Ok {| s11_avg := s11'; s12_avg := s12'; s33_avg := s33'; s43_avg := s43' |}.

Definition WhittleMattern (lc D : R) (mu : list R) (smatrix : list float4)
  (lambda : R) : outcome (list float4 * R) :=
  let p := {| s11_avg := repeat 0 NANGLES; s12_avg := repeat 0 NANGLES;
              s33_avg := repeat 0 NANGLES; s43_avg := repeat 0 NANGLES |} in
  let klc := TWO_PI * lc / lambda in
  p <- whittle_fill klc D 0 p ;;
  p <- for_loop NANGLES 1 (whittle_fill klc D) p ;;
  anisotropy mu (s11_avg p) (s12_avg p) (s33_avg p) (s43_avg p) smatrix.

End WithConstants.

End Mie.

(** * Properties *)

(** ** Comparisons *)

Lemma Rltb_true a b : Rltb a b = true <-> a < b.
Proof. unfold Rltb; destruct (Rlt_dec a b); split; intros; auto; discriminate. Qed.

Lemma Rltb_false a b : Rltb a b = false <-> b <= a.
Proof.
  unfold Rltb; destruct (Rlt_dec a b); split; intros; auto; try discriminate; lra.
Qed.

Lemma Rleb_true a b : Rleb a b = true <-> a <= b.
Proof. unfold Rleb; destruct (Rle_dec a b); split; intros; auto; discriminate. Qed.

Lemma Rleb_false a b : Rleb a b = false <-> b < a.
Proof.
  unfold Rleb; destruct (Rle_dec a b); split; intros; auto; try discriminate; lra.
Qed.


(** ** The transport kernel *)

Module KernelFacts.
Import Kernel.

Section Generator.

Variable rng : Type.
Variable mt19937si : Z -> rng.
Variable mt19937s : rng -> Z * rng.

Lemma leaves_true a (m : photon rng) : leaves a m = true <-> exits a m.
Proof.
  unfold leaves, exits.
  rewrite !Bool.orb_true_iff, !Rltb_true. intuition lra.
Qed.

Lemma leaves_false a (m : photon rng) : leaves a m = false <-> ~ exits a m.
Proof.
  rewrite <- leaves_true. destruct (leaves a m); split; intros; auto;
    try discriminate. exfalso; auto.
Qed.

(** C1 (as amended): a micro-step ends in exactly one of two ways, decided
    by the state [m] after the scatter decision and the voxel step.  If
    the residual free flight exceeds [lmax] or a coordinate lies outside
    [0, maxidx] (the kernel's argument), the photon is launched again:
    position and weight are those of [p0], the direction is [c0], residual
    and path length are 0, the relaunch counter grows by one, the voxel
    index is the one computed on entry, and the fluence is untouched.
    Otherwise the photon state is [m] and [(r > 0 ? w : 0)] is added to the
    cell [idx1d] of the fluence. *)
Theorem micro_step_outcome (a : kernel_args) (idxorig : Z) (s : photon rng)
  (field : fluence) :
  let m := voxel_step a (scatter mt19937s a s) in
  (exits a m ->
   micro_step mt19937s a idxorig (s, field)
   = ({| npos := p0 a; ndir := c0 a;
         nlen := make_float3 0 0 (z3 (nlen m) + 1);
         idx1d := idxorig; ran := ran m; gen := gen m |}, field))
  /\ (~ exits a m ->
      micro_step mt19937s a idxorig (s, field)
      = (m, field_add field (idx1d m)
              (if Rlt_dec 0 (x3 (nlen m)) then w4 (npos m) else 0))).
Proof.
  intros m; split; intros H; unfold micro_step, boundary; fold m.
  - apply leaves_true in H. rewrite H. reflexivity.
  - apply leaves_false in H. rewrite H. unfold deposit, Rltb.
    destruct (Rlt_dec 0 (x3 (nlen m))); reflexivity.
Qed.

(** The amended C2 reads the cosine off [hg_cos]. *)
Lemma hg_cos_formula (a : kernel_args) (r : Z) :
  gg2 a = gg a * gg a -> ggx2 a = 2 * gg a ->
  hg_cos a r
  = (1 + gg a * gg a
     - ((1 - gg a * gg a) / (1 - gg a + 2 * gg a * (IZR r / MAX_MT_RAND)))
       * ((1 - gg a * gg a) / (1 - gg a + 2 * gg a * (IZR r / MAX_MT_RAND))))
    / (2 * gg a).
Proof.
  intros H2 Hx. unfold hg_cos, GPUDIV. rewrite H2, Hx.
  replace (2 * gg a * IZR r / MAX_MT_RAND)
    with (2 * gg a * (IZR r / MAX_MT_RAND)) by (unfold Rdiv; ring).
  reflexivity.
Qed.

(** C2 (as amended): at a scatter decision with weight below 1, when
    [gg] is not 0 and the kernel was called with [gg2 = gg*gg] and
    [ggx2 = 2*gg] (as [main] does), the new direction is the rotation of
    the old one by the azimuth of the second draw and the polar angle whose
    cosine is [(1 + g^2 - ((1 - g^2)/(1 - g + 2 g u'))^2)/(2 g)], [u'] being
    the third draw over [MAX_MT_RAND]. *)
Theorem scatter_uses_hg_cosine (a : kernel_args) (s : photon rng) :
  x3 (nlen s) <= 0 -> w4 (npos s) < 1 ->
  gg a <> 0 -> gg2 a = gg a * gg a -> ggx2 a = 2 * gg a ->
  let g1 := snd (mt19937s (gen s)) in
  let ran2 := fst (mt19937s g1) in
  let ran3 := fst (mt19937s (snd (mt19937s g1))) in
  let u' := IZR ran3 / MAX_MT_RAND in
  let phi := TWO_PI * IZR ran2 / MAX_MT_RAND in
  let g := gg a in
  let ctheta :=
    (1 + g * g - ((1 - g * g) / (1 - g + 2 * g * u'))
                 * ((1 - g * g) / (1 - g + 2 * g * u'))) / (2 * g) in
  ndir (scatter mt19937s a s)
  = scatter_dir (ndir s) (sin phi) (cos phi) (sin (acos ctheta)) ctheta.
Proof.
  intros Hr Hw Hg H2 Hx g1 ran2 ran3 u' phi g ctheta.
  subst ctheta g phi u' ran3 ran2 g1.
  unfold scatter.
  rewrite (proj2 (Rleb_true _ _) Hr).
  destruct (mt19937s (gen s)) as [r1 q1]; simpl.
  rewrite (proj2 (Rltb_true _ _) Hw).
  destruct (mt19937s q1) as [r2 q2]; simpl.
  destruct (mt19937s q2) as [r3 q3]; simpl.
  rewrite (hg_cos_formula a r3 H2 Hx). reflexivity.
Qed.


(** *** The direction stays a unit vector *)

Lemma scatter_dir_norm (d : float4) (sphi cphi stheta ctheta : R) :
  norm2 d = 1 ->
  sphi * sphi + cphi * cphi = 1 ->
  stheta * stheta + ctheta * ctheta = 1 ->
  norm2 (scatter_dir d sphi cphi stheta ctheta) = 1.
Proof.
  unfold norm2, scatter_dir. intros Hd Hphi Hth.
  destruct (Rlt_dec (-1) (z4 d)) as [Hlo|Hlo];
    [rewrite (proj2 (Rltb_true _ _) Hlo)
    |rewrite (proj2 (Rltb_false _ _) (Rnot_lt_le _ _ Hlo))]; simpl.
  2:{ nra. }
  destruct (Rlt_dec (z4 d) 1) as [Hhi|Hhi];
    [rewrite (proj2 (Rltb_true _ _) Hhi)
    |rewrite (proj2 (Rltb_false _ _) (Rnot_lt_le _ _ Hhi))]; simpl.
  2:{ nra. }
  destruct (Rlt_dec 1e-20 stheta) as [Hs|Hs];
    [rewrite (proj2 (Rltb_true _ _) Hs)
    |rewrite (proj2 (Rltb_false _ _) (Rnot_lt_le _ _ Hs))]; simpl.
  2:{ exact Hd. }
  assert (Hp : 0 < 1 - z4 d * z4 d) by nra.
  pose proof (sqrt_sqrt (1 - z4 d * z4 d) (Rlt_le _ _ Hp)) as Hqq.
  pose proof (sqrt_lt_R0 _ Hp) as Hq.
  set (q := sqrt (1 - z4 d * z4 d)) in *.
  assert (Hi : / q * / q * (1 - z4 d * z4 d) = 1) by (rewrite <- Hqq; field; lra).
  set (iq := / q) in *.
  destruct d as [dx dy dz dw]; simpl in *.
  match goal with
  | |- ?L = 1 =>
      replace L with
        (stheta * stheta * (iq * iq * (1 - dz * dz)) * (sphi * sphi + cphi * cphi)
         + ctheta * ctheta * (dx * dx + dy * dy + dz * dz)
         + ((dx * dx + dy * dy + dz * dz) - 1)
           * (stheta * stheta * iq * iq * (dz * dz * cphi * cphi + sphi * sphi)
              + 2 * stheta * iq * ctheta * cphi * dz)) by ring
  end.
  rewrite Hd, Hphi, Hi. lra.
Qed.

Lemma hg_cos_range (a : kernel_args) (r : Z) :
  -1 < gg a < 1 -> gg a <> 0 -> gg2 a = gg a * gg a -> ggx2 a = 2 * gg a ->
  (0 <= r < 4294967296)%Z ->
  -1 <= hg_cos a r <= 1.
Proof.
  intros Hg Hg0 H2 Hx Hr.
  rewrite (hg_cos_formula a r H2 Hx).
  set (g := gg a) in *.
  assert (Hu : 0 <= IZR r / MAX_MT_RAND <= 1).
  { unfold MAX_MT_RAND.
    assert (0 <= IZR r) by (apply IZR_le; lia).
    assert (IZR r <= 4294967296) by (apply IZR_le; lia).
    split.
    - apply Rmult_le_pos; [lra | left; apply Rinv_0_lt_compat; lra].
    - apply (Rmult_le_reg_r 4294967296); [lra|].
      unfold Rdiv. rewrite Rmult_assoc, Rinv_l by lra. lra. }
  set (u := IZR r / MAX_MT_RAND) in *.
  assert (Hden : 0 < 1 - g + 2 * g * u) by nra.
  remember (1 - g + 2 * g * u) as den eqn:Hd.
  set (t := (1 - g * g) / den).
  assert (Ht : t * den = 1 - g * g) by (unfold t; field; lra).
  assert (Hlo : 1 - Rabs g <= t <= 1 + Rabs g).
  { unfold Rabs; destruct (Rcase_abs g).
    - assert (1 + g <= den <= 1 - g) by (subst den; nra).
      split; (apply (Rmult_le_reg_r den); [lra|]; rewrite Ht; nra).
    - assert (1 - g <= den <= 1 + g) by (subst den; nra).
      split; (apply (Rmult_le_reg_r den); [lra|]; rewrite Ht; nra). }
  assert (Htt : (1 - Rabs g) * (1 - Rabs g) <= t * t <= (1 + Rabs g) * (1 + Rabs g)).
  { assert (0 <= Rabs g < 1) by (unfold Rabs; destruct (Rcase_abs g); lra).
    split; nra. }
  unfold Rabs in Htt; destruct (Rcase_abs g) as [Hn|Hn].
  - assert (H2g : 2 * g < 0) by lra.
    split.
    + apply (Rmult_le_reg_r (- (2 * g))); [lra|].
      replace ((1 + g * g - t * t) / (2 * g) * - (2 * g))
        with (- (1 + g * g - t * t)) by (field; lra).
      nra.
    + apply (Rmult_le_reg_r (- (2 * g))); [lra|].
      replace ((1 + g * g - t * t) / (2 * g) * - (2 * g))
        with (- (1 + g * g - t * t)) by (field; lra).
      nra.
  - assert (H2g : 0 < 2 * g) by lra.
    split.
    + apply (Rmult_le_reg_r (2 * g)); [lra|].
      replace ((1 + g * g - t * t) / (2 * g) * (2 * g))
        with (1 + g * g - t * t) by (field; lra).
      nra.
    + apply (Rmult_le_reg_r (2 * g)); [lra|].
      replace ((1 + g * g - t * t) / (2 * g) * (2 * g))
        with (1 + g * g - t * t) by (field; lra).
      nra.
Qed.

Lemma scatter_norm (a : kernel_args) (s : photon rng) :
  well_configured mt19937s a -> norm2 (ndir s) = 1 ->
  norm2 (ndir (scatter mt19937s a s)) = 1.
Proof.
  intros (Hg & Hg0 & H2 & Hx & Hc & Hrng) Hd.
  unfold scatter.
  destruct (Rleb (x3 (nlen s)) 0); [|exact Hd].
  destruct (mt19937s (gen s)) as [r1 q1].
  destruct (Rltb (w4 (npos s)) 1); [|exact Hd].
  destruct (mt19937s q1) as [r2 q2].
  destruct (mt19937s q2) as [r3 q3] eqn:E3; simpl.
  assert (Hr3 : (0 <= r3 < 4294967296)%Z)
    by (pose proof (Hrng q2) as H; rewrite E3 in H; exact H).
  pose proof (hg_cos_range a r3 Hg Hg0 H2 Hx Hr3) as Hfoo.
  apply scatter_dir_norm; [exact Hd| |].
  - pose proof (sin2_cos2 (GPUDIV (TWO_PI * IZR r2) MAX_MT_RAND)) as H.
    unfold Rsqr in H. exact H.
  - pose proof (sin2_cos2 (acos (hg_cos a r3))) as H.
    rewrite (cos_acos _ Hfoo) in H. unfold Rsqr in H. exact H.
Qed.

Lemma voxel_step_ndir (a : kernel_args) (s : photon rng) :
  ndir (voxel_step a s) = ndir s.
Proof. unfold voxel_step. destruct (Rltb _ _); reflexivity. Qed.

Lemma micro_step_norm (a : kernel_args) (idxorig : Z) (s : photon rng)
  (field : fluence) :
  well_configured mt19937s a -> norm2 (ndir s) = 1 ->
  norm2 (ndir (fst (micro_step mt19937s a idxorig (s, field)))) = 1.
Proof.
  intros Ha Hd. unfold micro_step, boundary.
  destruct (leaves a _); simpl.
  - destruct Ha as (_ & _ & _ & _ & Hc & _). exact Hc.
  - rewrite voxel_step_ndir. apply scatter_norm; assumption.
Qed.

Lemma iterate_succ (n : nat) (a : kernel_args) (idxorig : Z)
  (sf : photon rng * fluence) :
  iterate mt19937s (S n) a idxorig sf
  = micro_step mt19937s a idxorig (iterate mt19937s n a idxorig sf).
Proof.
  revert sf. induction n as [|n IH]; intros sf; [reflexivity|].
  change (iterate mt19937s (S (S n)) a idxorig sf)
    with (iterate mt19937s (S n) a idxorig (micro_step mt19937s a idxorig sf)).
  rewrite IH. reflexivity.
Qed.


(** *** The fluence never decreases *)

Lemma voxel_step_weight (a : kernel_args) (s : photon rng) :
  0 < w4 (npos s) -> 0 < w4 (npos (voxel_step a s)).
Proof.
  intros Hw. unfold voxel_step.
  destruct (Rltb _ _); simpl; apply Rmult_lt_0_compat; auto using exp_pos.
Qed.

Lemma scatter_npos (a : kernel_args) (s : photon rng) :
  npos (scatter mt19937s a s) = npos s.
Proof.
  unfold scatter. destruct (Rleb _ _); [|reflexivity].
  destruct (mt19937s (gen s)) as [r1 q1].
  destruct (Rltb _ _); [|reflexivity].
  destruct (mt19937s q1) as [r2 q2]. destruct (mt19937s q2) as [r3 q3].
  reflexivity.
Qed.

Lemma field_add_le (field : fluence) (i : Z) (v : R) :
  0 <= v -> forall j, field j <= field_add field i v j.
Proof. intros Hv j. unfold field_add. destruct (Z.eqb j i); lra. Qed.

Lemma micro_step_fluence (a : kernel_args) (idxorig : Z) (s : photon rng)
  (field : fluence) :
  0 < w4 (p0 a) -> 0 < w4 (npos s) ->
  0 < w4 (npos (fst (micro_step mt19937s a idxorig (s, field))))
  /\ forall v, field v <= snd (micro_step mt19937s a idxorig (s, field)) v.
Proof.
  intros Hp Hw. unfold micro_step, boundary.
  assert (Hm : 0 < w4 (npos (voxel_step a (scatter mt19937s a s))))
    by (apply voxel_step_weight; rewrite scatter_npos; exact Hw).
  destruct (leaves a _); simpl.
  - split; [exact Hp | intros; lra].
  - split; [exact Hm|].
    apply field_add_le. unfold deposit. destruct (Rltb _ _); lra.
Qed.


(** *** The voxel index stays inside the arrays *)

Lemma voxel_index_in_grid (a : kernel_args) (p : float4) :
  x3 (maxidx a) <= IZR (DIMX - 1) -> y3 (maxidx a) <= IZR (DIMY - 1) ->
  z3 (maxidx a) <= IZR (DIMZ - 1) ->
  in_box a p -> in_grid (voxel_index p).
Proof.
  intros Hx Hy Hz ((Hx0 & Hx1) & (Hy0 & Hy1) & (Hz0 & Hz1)).
  assert (B : forall v m, 0 <= v -> v <= m -> m <= IZR 127 ->
                          (0 <= Zfloor v <= 127)%Z).
  { intros v m H0 H1 H2. split.
    - apply Zfloor_lub. exact H0.
    - apply le_IZR. destruct (Zfloor_bound v) as [Hf _]. lra. }
  pose proof (B _ _ Hx0 Hx1 Hx). pose proof (B _ _ Hy0 Hy1 Hy).
  pose proof (B _ _ Hz0 Hz1 Hz).
  unfold in_grid, voxel_index, DIMXYZ, DIMYZ, DIMX, DIMY, DIMZ. lia.
Qed.

Lemma not_leaves_in_box (a : kernel_args) (m : photon rng) :
  leaves a m = false -> in_box a (npos m).
Proof.
  intros H. apply leaves_false in H. unfold exits in H. unfold in_box.
  repeat split; apply Rnot_lt_le; intros C; apply H; tauto.
Qed.

Lemma voxel_step_idx1d (a : kernel_args) (s : photon rng) :
  idx1d (voxel_step a s) = idx1d s
  \/ idx1d (voxel_step a s) = voxel_index (npos (voxel_step a s)).
Proof.
  unfold voxel_step. destruct (Rltb _ _); [left|right]; reflexivity.
Qed.

Lemma scatter_idx1d (a : kernel_args) (s : photon rng) :
  idx1d (scatter mt19937s a s) = idx1d s.
Proof.
  unfold scatter. destruct (Rleb _ _); [|reflexivity].
  destruct (mt19937s (gen s)) as [r1 q1].
  destruct (Rltb _ _); [|reflexivity].
  destruct (mt19937s q1) as [r2 q2]. destruct (mt19937s q2) as [r3 q3].
  reflexivity.
Qed.


End Generator.

End KernelFacts.

(** ** The kernel in [main]'s configuration *)

Module KernelExamples.
Import Kernel KernelFacts.

Lemma main_well_configured (total : nat) :
  well_configured counter_s (main_args total).
Proof.
  unfold well_configured, main_args, launch_args, norm2; simpl.
  repeat split; try lra.
  - apply Z.mod_pos_bound; lia.
  - apply Z.mod_pos_bound; lia.
Qed.

Lemma near_face_step :
  voxel_step (main_args 1) (scatter counter_s (main_args 1) near_face)
  = near_face_moved.
Proof.
  unfold scatter, near_face; cbn [nlen x3].
  rewrite (proj2 (Rleb_false 5 0)) by lra.
  unfold voxel_step; cbn [idx1d media main_args launch_args gproperty minstep
                          npos ndir nlen x3 y3 z3 x4 y4 z4 w4 ran gen].
  change (main_media (INDXYZ 126 10 10)) with 1%Z.
  cbn [main_property Z.eqb Pos.eqb x2 y2].
  rewrite (proj2 (Rltb_false 5 (1 * 0.75))) by lra.
  reflexivity.
Qed.

(** C1, counterexample: in [main]'s configuration (a 128 x 128 x 128
    grid, [maxidx] = 127, [lmax] = 100) the photon [near_face] moves to
    x = 127.5 with residual 4.25 and a positive weight: inside
    [0, 128]^3 and below [lmax], where the claim has the weight deposited;
    the kernel launches a new photon and leaves the fluence as it was. *)
Lemma relaunch_inside_grid :
  let a := main_args 1 in
  let m := voxel_step a (scatter counter_s a near_face) in
  (x3 (nlen m) <= lmax a
   /\ 0 <= x4 (npos m) <= IZR DIMX
   /\ 0 <= y4 (npos m) <= IZR DIMY
   /\ 0 <= z4 (npos m) <= IZR DIMZ
   /\ 0 < x3 (nlen m) /\ 0 < w4 (npos m))
  /\ forall field : fluence,
      micro_step counter_s a (INDXYZ 10 10 0) (near_face, field)
      = (relaunch a (INDXYZ 10 10 0) m, field).
Proof.
  intros a m. subst m a. rewrite near_face_step.
  split.
  - unfold near_face_moved.
    cbn [nlen npos x3 x4 y4 z4 w4 lmax main_args launch_args].
    unfold DIMX, DIMY, DIMZ.
    pose proof (exp_pos (- (0.009) * 1)).
    repeat split; lra.
  - intros field. unfold micro_step, boundary. rewrite near_face_step.
    assert (L : leaves (main_args 1) near_face_moved = true).
    { apply leaves_true. unfold exits, near_face_moved.
      cbn [nlen npos x3 x4 y4 z4 maxidx main_args launch_args y3 z3].
      unfold DIMX. right; right; right; right; left.
      change (IZR (128 - 1)) with 127. lra. }
    rewrite L. reflexivity.
Qed.

(** A witness of C2's hypotheses: [main]'s arguments and the photon
    [due_to_scatter 0], whose three draws are 0, 1 and 2. *)
Lemma scatter_uses_hg_cosine_witness :
  let a := main_args 1 in
  let s := due_to_scatter 0 in
  let g := gg a in
  let u' := IZR 2 / MAX_MT_RAND in
  let phi := TWO_PI * IZR 1 / MAX_MT_RAND in
  let ctheta :=
    (1 + g * g - ((1 - g * g) / (1 - g + 2 * g * u'))
                 * ((1 - g * g) / (1 - g + 2 * g * u'))) / (2 * g) in
  (x3 (nlen s) <= 0 /\ w4 (npos s) < 1 /\ gg a <> 0)
  /\ ndir (scatter counter_s a s)
     = scatter_dir (ndir s) (sin phi) (cos phi) (sin (acos ctheta)) ctheta.
Proof.
  intros a s g u' phi ctheta.
  assert (Hr : x3 (nlen s) <= 0) by (simpl; lra).
  assert (Hw : w4 (npos s) < 1) by (simpl; lra).
  assert (Hg : gg a <> 0) by (simpl; lra).
  split; [repeat split; assumption|].
  exact (scatter_uses_hg_cosine Z counter_s a s Hr Hw Hg eq_refl eq_refl).
Defined.

(** C2, counterexample: with [g = 0] ([main]'s call with [gg = 0], so
    [gg2 = 0] and [ggx2 = 0]) the numerator [1 + gg2 - foo*foo] is 0, so
    the cosine is not [2u' - 1]; here [u' = 1/4]. *)
Lemma hg_cosine_at_g_zero :
  let a := launch_args 1 0 in
  let r := 1073741824%Z in
  1 + gg2 a - ((1 - gg2 a) / (1 - gg a + GPUDIV (ggx2 a * IZR r) MAX_MT_RAND))
              * ((1 - gg2 a) / (1 - gg a + GPUDIV (ggx2 a * IZR r) MAX_MT_RAND)) = 0
  /\ hg_cos a r = 0
  /\ 2 * (IZR r / MAX_MT_RAND) - 1 = - (1 / 2)
  /\ hg_cos a r <> 2 * (IZR r / MAX_MT_RAND) - 1.
Proof.
  intros a r.
  assert (N : 1 + gg2 a
              - ((1 - gg2 a) / (1 - gg a + GPUDIV (ggx2 a * IZR r) MAX_MT_RAND))
                * ((1 - gg2 a) / (1 - gg a + GPUDIV (ggx2 a * IZR r) MAX_MT_RAND))
              = 0).
  { unfold a, r, GPUDIV, MAX_MT_RAND; simpl. field. }
  assert (H : hg_cos a r = 0).
  { unfold hg_cos. cbv zeta. rewrite N. unfold GPUDIV, Rdiv. apply Rmult_0_l. }
  assert (U : 2 * (IZR r / MAX_MT_RAND) - 1 = - (1 / 2)).
  { unfold r, MAX_MT_RAND. lra. }
  repeat split; try assumption.
  rewrite H, U. lra.
Qed.

Lemma hg_cos_first_value : hg_cos (main_args 1) 0 = -1.
Proof.
  unfold hg_cos, GPUDIV, main_args, launch_args, MAX_MT_RAND; simpl.
  field; repeat split; lra.
Qed.





End KernelExamples.

(** ** Invariants of the photon state *)

Module PhotonFacts.
Import Kernel KernelFacts.

Section Generator.

Variable rng : Type.
Variable mt19937si : Z -> rng.
Variable mt19937s : rng -> Z * rng.

Lemma exp_le_1 (x : R) : x <= 0 -> exp x <= 1.
Proof.
  intros [H|H].
  - left. rewrite <- exp_0. apply exp_increasing. exact H.
  - subst x. rewrite exp_0. lra.
Qed.

Lemma scatter_nlen_yz (a : kernel_args) (s : photon rng) :
  y3 (nlen (scatter mt19937s a s)) = y3 (nlen s)
  /\ z3 (nlen (scatter mt19937s a s)) = z3 (nlen s).
Proof.
  unfold scatter. destruct (Rleb _ _); [|split; reflexivity].
  destruct (mt19937s (gen s)) as [r1 q1].
  destruct (Rltb _ _); [|split; reflexivity].
  destruct (mt19937s q1) as [r2 q2]. destruct (mt19937s q2) as [r3 q3].
  split; reflexivity.
Qed.

(** After the scatter decision the residual free flight is positive,
    when no draw is 0. *)
Lemma scatter_residual (a : kernel_args) (s : photon rng) :
  (forall st, (0 < fst (mt19937s st) < 4294967296)%Z) ->
  0 < x3 (nlen (scatter mt19937s a s)).
Proof.
  intros Hrng. unfold scatter.
  destruct (Rleb (x3 (nlen s)) 0) eqn:E.
  - pose proof (Hrng (gen s)) as Hr.
    destruct (mt19937s (gen s)) as [r1 q1]. cbn [fst] in Hr.
    assert (Hu : 0 < GPUDIV (IZR r1) MAX_MT_RAND < 1).
    { unfold GPUDIV, MAX_MT_RAND.
      assert (0 < IZR r1) by (apply IZR_lt; lia).
      assert (IZR r1 < 4294967296) by (apply IZR_lt; lia).
      split.
      - apply Rdiv_lt_0_compat; lra.
      - apply (Rmult_lt_reg_r 4294967296); [lra|].
        unfold Rdiv. rewrite Rmult_assoc, Rinv_l by lra. lra. }
    assert (Hl : ln (GPUDIV (IZR r1) MAX_MT_RAND) < 0).
    { rewrite <- ln_1. apply ln_increasing; lra. }
    destruct (Rltb _ _).
    + destruct (mt19937s q1) as [r2 q2]. destruct (mt19937s q2) as [r3 q3].
      cbn [nlen x3]. lra.
    + cbn [nlen x3]. lra.
  - apply Rleb_false in E. exact E.
Qed.

Lemma voxel_step_attenuates (a : kernel_args) (s : photon rng) :
  0 <= minstep a -> (forall id, 0 <= x2 (gproperty a id)) ->
  0 < x3 (nlen s) -> 0 <= w4 (npos s) ->
  0 <= w4 (npos (voxel_step a s)) <= w4 (npos s).
Proof.
  intros Hm Hmua Hr Hw. unfold voxel_step.
  set (prop := gproperty a (media a (idx1d s))).
  pose proof (Hmua (media a (idx1d s))) as Ha. fold prop in Ha.
  destruct (Rltb (x3 (nlen s)) (minstep a * y2 prop)) eqn:E; cbn [npos w4].
  - apply Rltb_true in E.
    assert (Hy : 0 < y2 prop) by nra.
    assert (Hs : 0 <= GPUDIV (x3 (nlen s)) (y2 prop)).
    { unfold GPUDIV. left. apply Rdiv_lt_0_compat; lra. }
    pose proof (exp_pos (- x2 prop * GPUDIV (x3 (nlen s)) (y2 prop))) as Hp.
    assert (He : exp (- x2 prop * GPUDIV (x3 (nlen s)) (y2 prop)) <= 1)
      by (apply exp_le_1; nra).
    split; nra.
  - pose proof (exp_pos (- x2 prop * minstep a)) as Hp.
    assert (He : exp (- x2 prop * minstep a) <= 1) by (apply exp_le_1; nra).
    split; nra.
Qed.

(** Absorption only attenuates: with a non-negative step size and
    non-negative absorption coefficients, and a generator that never draws
    0, one pass through the scatter decision and the voxel step leaves the
    weight between 0 and what it was; and a thread whose first weight and
    relaunch weight [p0.w] are at most [W] never has a weight above [W]. *)
Theorem weight_never_grows (a : kernel_args) :
  0 <= minstep a -> (forall id, 0 <= x2 (gproperty a id)) ->
  (forall st, (0 < fst (mt19937s st) < 4294967296)%Z) ->
  (forall s : photon rng,
      0 <= w4 (npos s) ->
      0 <= w4 (npos (voxel_step a (scatter mt19937s a s))) <= w4 (npos s))
  /\ (forall W field n_seed n_pos n_dir n_len ran_init k,
         0 <= w4 n_pos <= W -> 0 <= w4 (p0 a) <= W ->
         let s := entry mt19937si n_seed n_pos n_dir n_len ran_init in
         0 <= w4 (npos (fst (iterate mt19937s k a (idx1d s) (s, field)))) <= W).
Proof.
  intros Hm Hmua Hrng.
  assert (Hstep : forall s : photon rng,
             0 <= w4 (npos s) ->
             0 <= w4 (npos (voxel_step a (scatter mt19937s a s))) <= w4 (npos s)).
  { intros s Hw.
    pose proof (voxel_step_attenuates a (scatter mt19937s a s) Hm Hmua
                  (scatter_residual a s Hrng)) as H.
    rewrite scatter_npos in H. apply H. exact Hw. }
  split; [exact Hstep|].
  intros W field n_seed n_pos n_dir n_len ran_init k Hw Hp s.
  induction k as [|k IH]; [exact Hw|].
  rewrite iterate_succ.
  destruct (iterate mt19937s k a (idx1d s) (s, field)) as [sk fk];
    cbn [fst] in IH.
  unfold micro_step, boundary.
  destruct (leaves a _); cbn [fst relaunch npos].
  - exact Hp.
  - destruct (Hstep sk (proj1 IH)). lra.
Qed.

Lemma voxel_step_nlen_z (a : kernel_args) (s : photon rng) :
  z3 (nlen (voxel_step a s)) = z3 (nlen s).
Proof. unfold voxel_step. destruct (Rltb _ _); reflexivity. Qed.

Lemma relaunches_step (a : kernel_args) (idxorig : Z) (s : photon rng)
  (field : fluence) :
  z3 (nlen (fst (micro_step mt19937s a idxorig (s, field))))
  = if leaves a (voxel_step a (scatter mt19937s a s))
    then z3 (nlen s) + 1 else z3 (nlen s).
Proof.
  unfold micro_step, boundary.
  destruct (leaves a _); cbn [fst relaunch nlen z3];
    rewrite voxel_step_nlen_z, (proj2 (scatter_nlen_yz a s)); reflexivity.
Qed.

Lemma relaunches_counted (a : kernel_args) (field : fluence)
  (n_seed : Z) (n_pos n_dir : float4) (n_len : float3) (ran_init : Z) (k : nat) :
  let s := entry mt19937si n_seed n_pos n_dir n_len ran_init in
  exists j, (j <= k)%nat
            /\ z3 (nlen (fst (iterate mt19937s k a (idx1d s) (s, field))))
               = z3 n_len + INR j.
Proof.
  intros s. induction k as [|k (j & Hj & E)].
  - exists 0%nat. split; [lia|]. simpl. lra.
  - rewrite iterate_succ.
    destruct (iterate mt19937s k a (idx1d s) (s, field)) as [sk fk];
      cbn [fst] in E.
    rewrite relaunches_step. destruct (leaves a _).
    + exists (S j). split; [lia|]. rewrite E, S_INR. lra.
    + exists j. split; [lia | exact E].
Qed.



Lemma scatter_full_weight (a : kernel_args) (s : photon rng) :
  1 <= w4 (npos s) -> ndir (scatter mt19937s a s) = ndir s.
Proof.
  intros Hw. unfold scatter.
  destruct (Rleb _ _); [|reflexivity].
  destruct (mt19937s (gen s)) as [r1 q1].
  rewrite (proj2 (Rltb_false (w4 (npos s)) 1) Hw). reflexivity.
Qed.

(** The rotation of lines 105-140 is guarded by [npos.w < 1]: a photon
    whose weight is 1 or more draws a new free flight but keeps its
    direction.  Hence in a medium without absorption (every [mua] is 0),
    where the weight never drops, a thread launched and relaunched with a
    weight of 1 or more is never deflected: its direction is the one it
    started with or the launch direction [c0]. *)
Theorem full_weight_photon_is_not_deflected (a : kernel_args) :
  (forall s : photon rng,
      1 <= w4 (npos s) -> ndir (scatter mt19937s a s) = ndir s)
  /\ ((forall id, x2 (gproperty a id) = 0) -> 1 <= w4 (p0 a) ->
      forall field n_seed n_pos n_dir n_len ran_init k,
        1 <= w4 n_pos ->
        let s := entry mt19937si n_seed n_pos n_dir n_len ran_init in
        let d := ndir (fst (iterate mt19937s k a (idx1d s) (s, field))) in
        d = n_dir \/ d = c0 a).
Proof.
  split; [apply scatter_full_weight|].
  intros Hmua Hp field n_seed n_pos n_dir n_len ran_init k Hw s.
  assert (H : 1 <= w4 (npos (fst (iterate mt19937s k a (idx1d s) (s, field))))
              /\ (ndir (fst (iterate mt19937s k a (idx1d s) (s, field))) = n_dir
                  \/ ndir (fst (iterate mt19937s k a (idx1d s) (s, field))) = c0 a)).
  { induction k as [|k [IHw IHd]]; [split; [exact Hw | left; reflexivity]|].
    rewrite iterate_succ.
    destruct (iterate mt19937s k a (idx1d s) (s, field)) as [sk fk];
      cbn [fst] in IHw, IHd.
    unfold micro_step, boundary.
    destruct (leaves a _); cbn [fst relaunch npos ndir].
    - split; [exact Hp | right; reflexivity].
    - split.
      + unfold voxel_step. rewrite Hmua.
        destruct (Rltb _ _); cbn [npos w4]; rewrite scatter_npos;
          rewrite Ropp_0, Rmult_0_l, exp_0; lra.
      + rewrite voxel_step_ndir, scatter_full_weight by exact IHw. exact IHd. }
  exact (proj2 H).
Qed.


Lemma micro_step_shift (a : kernel_args) (idxorig : Z) (s : photon rng)
  (f g : fluence) :
  fst (micro_step mt19937s a idxorig (s, f))
  = fst (micro_step mt19937s a idxorig (s, g))
  /\ forall v, snd (micro_step mt19937s a idxorig (s, f)) v - f v
               = snd (micro_step mt19937s a idxorig (s, g)) v - g v.
Proof.
  unfold micro_step, boundary.
  destruct (leaves a _); cbn [fst snd].
  - split; [reflexivity | intros; lra].
  - split; [reflexivity|]. intros v. unfold field_add.
    destruct (Z.eqb v _); lra.
Qed.


End Generator.

End PhotonFacts.

(** ** The photon state in [main]'s configuration *)

Module PhotonExamples.
Import Kernel KernelFacts PhotonFacts.

Lemma positive_s_range (st : Z) : (0 < fst (positive_s st) < 4294967296)%Z.
Proof.
  unfold positive_s; cbn [fst].
  pose proof (Z.mod_pos_bound st 4294967295 ltac:(lia)). lia.
Qed.

Lemma main_property_nonneg (id : Z) : 0 <= x2 (main_property id).
Proof.
  unfold main_property.
  repeat match goal with
  | |- context [(?a =? ?b)%Z] => destruct (a =? b)%Z
  end; cbn [x2]; lra.
Qed.

(** [main]'s configuration meets the hypotheses of [weight_never_grows],
    with a generator that never draws 0: the weight stays within
    [0, 1]. *)
Lemma weight_never_grows_witness :
  let a := main_args 3 in
  let s := entry counter_si 7 (p0 a) (c0 a) (make_float3 0 0 0) 0 in
  (0 <= minstep a /\ (forall id, 0 <= x2 (gproperty a id)))
  /\ forall k,
       0 <= w4 (npos (fst (iterate positive_s k a (idx1d s) (s, fun _ => 0)))) <= 1.
Proof.
  intros a s.
  assert (Hm : 0 <= minstep a) by (simpl; lra).
  assert (Hmua : forall id, 0 <= x2 (gproperty a id)) by exact main_property_nonneg.
  split; [split; assumption|].
  intros k.
  refine (proj2 (weight_never_grows Z counter_si positive_s a Hm Hmua positive_s_range)
            1 (fun _ => 0) 7%Z (p0 a) (c0 a) (make_float3 0 0 0) 0%Z k _ _);
    simpl; lra.
Defined.


(** A medium without absorption, [main]'s launch: the thread keeps the
    launch direction. *)
Lemma full_weight_photon_is_not_deflected_witness :
  let a := clear_args 3 in
  let s := entry counter_si 7 (p0 a) (c0 a) (make_float3 0 0 0) 0 in
  ((forall id, x2 (gproperty a id) = 0) /\ 1 <= w4 (p0 a))
  /\ forall k,
       ndir (fst (iterate counter_s k a (idx1d s) (s, fun _ => 0))) = c0 a.
Proof.
  intros a s.
  assert (Hmua : forall id, x2 (gproperty a id) = 0) by (intros; reflexivity).
  assert (Hp : 1 <= w4 (p0 a)) by (simpl; lra).
  split; [split; assumption|].
  intros k.
  destruct (proj2 (full_weight_photon_is_not_deflected Z counter_si counter_s a)
              Hmua Hp (fun _ => 0) 7%Z (p0 a) (c0 a) (make_float3 0 0 0) 0%Z k Hp)
    as [H|H]; exact H.
Defined.


End PhotonExamples.

(** ** The host program: the volume and the media cache *)

Module HostFacts.
Import Kernel Host.

Open Scope Z_scope.

(** *** Loops *)

Lemma for_count_total {St} (Inv : Z -> St -> Prop) (body : Z -> St -> option St)
  (count : nat) (i : Z) (s : St) :
  Inv i s ->
  (forall j u, i <= j < i + Z.of_nat count -> Inv j u ->
               exists u', body j u = Some u' /\ Inv (j + 1) u') ->
  exists t, for_count count i body s = Some t /\ Inv (i + Z.of_nat count) t.
Proof.
  revert i s. induction count as [|c IH]; intros i s Hi Hstep.
  - exists s. split; [reflexivity|]. replace (i + Z.of_nat 0) with i by lia. exact Hi.
  - destruct (Hstep i s) as (s' & Hb & Hi'); [lia | exact Hi |].
    cbn [for_count]. rewrite Hb.
    replace (i + Z.of_nat (S c)) with (i + 1 + Z.of_nat c) by lia.
    apply IH; [exact Hi'|]. intros j u Hj. apply Hstep. lia.
Qed.

Lemma for_range_total {St} (Inv : Z -> St -> Prop) (body : Z -> St -> option St)
  (lo hi : Z) (s : St) :
  lo <= hi -> Inv lo s ->
  (forall j u, lo <= j < hi -> Inv j u ->
               exists u', body j u = Some u' /\ Inv (j + 1) u') ->
  exists t, for_range lo hi body s = Some t /\ Inv hi t.
Proof.
  intros Hle Hi Hstep. unfold for_range.
  destruct (for_count_total Inv body (Z.to_nat (hi - lo)) lo s Hi) as (t & E & Ht).
  - intros j u Hj. apply Hstep. lia.
  - exists t. split; [exact E|].
    replace (lo + Z.of_nat (Z.to_nat (hi - lo))) with hi in Ht by lia. exact Ht.
Qed.

Lemma put_in_range {A} (size : Z) (arr : Z -> A) (i : Z) (v : A) :
  0 <= i < size ->
  put size arr i v = Some (fun j => if j =? i then v else arr j).
Proof.
  intros H. unfold put.
  replace ((0 <=? i) && (i <? size))%bool with true; [reflexivity|].
  symmetry. apply andb_true_intro. split; [apply Z.leb_le | apply Z.ltb_lt]; lia.
Qed.

Lemma get_in_range {A} (size : Z) (arr : Z -> A) (i : Z) :
  0 <= i < size -> get size arr i = Some (arr i).
Proof.
  intros H. unfold get.
  replace ((0 <=? i) && (i <? size))%bool with true; [reflexivity|].
  symmetry. apply andb_true_intro. split; [apply Z.leb_le | apply Z.ltb_lt]; lia.
Qed.

(** *** [INDXYZ] *)

Lemma INDXYZ_range (i j k : Z) :
  0 <= i < DIMX -> 0 <= j < DIMY -> 0 <= k < DIMZ -> in_grid (INDXYZ i j k).
Proof.
  unfold in_grid, INDXYZ, DIMXYZ, DIMYZ, DIMX, DIMY, DIMZ. lia.
Qed.

Lemma INDXYZ_inj (i j k i' j' k' : Z) :
  0 <= j < DIMY -> 0 <= k < DIMZ -> 0 <= j' < DIMY -> 0 <= k' < DIMZ ->
  INDXYZ i j k = INDXYZ i' j' k' -> i = i' /\ j = j' /\ k = k'.
Proof.
  unfold INDXYZ, DIMYZ, DIMY, DIMZ. lia.
Qed.

Lemma INDXYZ_onto (v : Z) :
  in_grid v ->
  exists i j k, 0 <= i < DIMX /\ 0 <= j < DIMY /\ 0 <= k < DIMZ
                /\ INDXYZ i j k = v.
Proof.
  unfold in_grid, INDXYZ, DIMXYZ, DIMYZ, DIMX, DIMY, DIMZ. intros H.
  exists (v / 16384), ((v / 128) mod 128), (v mod 128).
  repeat split; Z.div_mod_to_equations; lia.
Qed.

(** [INDXYZ] numbers the voxels [(i, j, k)] of the [DIMX x DIMY x DIMZ]
    domain by the indices [0 .. DIMXYZ - 1] of [media] and [field], one to
    one: no index falls outside the arrays, no two voxels share an index,
    and every index is the one of some voxel. *)
Theorem INDXYZ_numbers_the_voxels :
  (forall i j k, 0 <= i < DIMX -> 0 <= j < DIMY -> 0 <= k < DIMZ ->
                 0 <= INDXYZ i j k < DIMXYZ)
  /\ (forall i j k i' j' k',
        0 <= i < DIMX -> 0 <= j < DIMY -> 0 <= k < DIMZ ->
        0 <= i' < DIMX -> 0 <= j' < DIMY -> 0 <= k' < DIMZ ->
        INDXYZ i j k = INDXYZ i' j' k' -> i = i' /\ j = j' /\ k = k')
  /\ (forall v, 0 <= v < DIMXYZ ->
        exists i j k, 0 <= i < DIMX /\ 0 <= j < DIMY /\ 0 <= k < DIMZ
                      /\ INDXYZ i j k = v).
Proof.
  split; [|split].
  - intros. apply INDXYZ_range; assumption.
  - intros i j k i' j' k' _ Hj Hk _ Hj' Hk'. apply INDXYZ_inj; assumption.
  - intros v Hv. apply INDXYZ_onto. exact Hv.
Qed.

(** *** The threads of the launch *)

(** The threads [main] launches and the [MAX_N] slots of the photon
    arrays correspond one to one: every thread's [idx] is a slot, no two
    threads share one, and every slot has its thread. *)
Theorem launch_covers_the_photon_arrays :
  (forall b t, 0 <= b < MAX_N / MAX_THREAD -> 0 <= t < MAX_THREAD ->
               0 <= thread_idx MAX_THREAD b t < MAX_N)
  /\ (forall b t b' t',
        0 <= b < MAX_N / MAX_THREAD -> 0 <= t < MAX_THREAD ->
        0 <= b' < MAX_N / MAX_THREAD -> 0 <= t' < MAX_THREAD ->
        thread_idx MAX_THREAD b t = thread_idx MAX_THREAD b' t' ->
        b = b' /\ t = t')
  /\ (forall i, 0 <= i < MAX_N ->
        exists b t, 0 <= b < MAX_N / MAX_THREAD /\ 0 <= t < MAX_THREAD
                    /\ thread_idx MAX_THREAD b t = i).
Proof.
  change (MAX_N / MAX_THREAD) with 8. unfold thread_idx, MAX_N, MAX_THREAD.
  split; [|split].
  - intros b t Hb Ht. lia.
  - intros b t b' t' Hb Ht Hb' Ht' E. lia.
  - intros i Hi. exists (i / 128), (i mod 128).
    repeat split; Z.div_mod_to_equations; lia.
Qed.

(** *** The volume [main] builds *)

(** The loops of lines 229-234 end without leaving the arrays, and then
    every cell of [media] holds 1 and every cell of [field] holds 0,
    whatever the two arrays held before: [media] is [main_media] on the
    whole grid. *)
Theorem init_volume_fills_the_grid (media0 : Z -> Z) (field0 : fluence) :
  exists media field,
    init_volume media0 field0 = Some (media, field)
    /\ forall v, in_grid v ->
         media v = 1 /\ media v = main_media v /\ field v = 0%R.
Proof.
  set (filled := fun (P : Z -> Z -> Z -> Prop) (mf : (Z -> Z) * fluence) =>
                   forall i j k, 0 <= i < DIMX -> 0 <= j < DIMY -> 0 <= k < DIMZ ->
                                 P i j k ->
                                 fst mf (INDXYZ i j k) = 1 /\ snd mf (INDXYZ i j k) = 0%R).
  assert (Hinner : forall i j mf,
             0 <= i < DIMX -> 0 <= j < DIMY ->
             filled (fun i' j' _ => i' < i \/ (i' = i /\ j' < j)) mf ->
             exists mf',
               for_range 0 DIMZ (fun k mf =>
                 match put DIMXYZ (fst mf) (INDXYZ i j k) 1 with
                 | Some media' =>
                     match put DIMXYZ (snd mf) (INDXYZ i j k) 0%R with
                     | Some field' => Some (media', field')
                     | None => None
                     end
                 | None => None
                 end) mf = Some mf'
               /\ filled (fun i' j' _ => i' < i \/ (i' = i /\ j' < j + 1)) mf').
  { intros i j mf Hi Hj Hmf.
    destruct (for_range_total
                (fun k mf => filled (fun i' j' k' =>
                                       i' < i \/ (i' = i /\ (j' < j \/ (j' = j /\ k' < k)))) mf)
                (fun k mf =>
                   match put DIMXYZ (fst mf) (INDXYZ i j k) 1 with
                   | Some media' =>
                       match put DIMXYZ (snd mf) (INDXYZ i j k) 0%R with
                       | Some field' => Some (media', field')
                       | None => None
                       end
                   | None => None
                   end) 0 DIMZ mf) as (mf' & E & Hf).
    - unfold DIMZ; lia.
    - intros i' j' k' Hi' Hj' Hk' HP. apply Hmf; try assumption. lia.
    - intros k [m f] Hk Hinv. cbn [fst snd].
      pose proof (INDXYZ_range i j k Hi Hj Hk) as Hr. unfold in_grid in Hr.
      rewrite !put_in_range by exact Hr.
      eexists; split; [reflexivity|].
      intros i' j' k' Hi' Hj' Hk' HP. cbn [fst snd].
      destruct (Z.eqb_spec (INDXYZ i' j' k') (INDXYZ i j k)) as [Heq|Hne].
      + split; reflexivity.
      + apply (Hinv i' j' k'); try assumption.
        destruct HP as [HP|[HP [HP'|[HP' HP'']]]]; try lia.
        assert (k' <> k) by (intros ->; subst; congruence). lia.
    - exists mf'. split; [exact E|].
      intros i' j' k' Hi' Hj' Hk' HP. apply Hf; try assumption. lia. }
  assert (Hmiddle : forall i mf,
             0 <= i < DIMX ->
             filled (fun i' _ _ => i' < i) mf ->
             exists mf',
               for_range 0 DIMY (fun j =>
                 for_range 0 DIMZ (fun k mf =>
                   match put DIMXYZ (fst mf) (INDXYZ i j k) 1 with
                   | Some media' =>
                       match put DIMXYZ (snd mf) (INDXYZ i j k) 0%R with
                       | Some field' => Some (media', field')
                       | None => None
                       end
                   | None => None
                   end)) mf = Some mf'
               /\ filled (fun i' _ _ => i' < i + 1) mf').
  { intros i mf Hi Hmf.
    destruct (for_range_total
                (fun j mf => filled (fun i' j' _ => i' < i \/ (i' = i /\ j' < j)) mf)
                (fun j =>
                   for_range 0 DIMZ (fun k mf =>
                     match put DIMXYZ (fst mf) (INDXYZ i j k) 1 with
                     | Some media' =>
                         match put DIMXYZ (snd mf) (INDXYZ i j k) 0%R with
                         | Some field' => Some (media', field')
                         | None => None
                         end
                     | None => None
                     end)) 0 DIMY mf) as (mf' & E & Hf).
    - unfold DIMY; lia.
    - intros i' j' k' Hi' Hj' Hk' HP. apply Hmf; try assumption. lia.
    - intros j u Hj Hinv. apply Hinner; assumption.
    - exists mf'. split; [exact E|].
      intros i' j' k' Hi' Hj' Hk' HP. apply Hf; try assumption. lia. }
  destruct (for_range_total
              (fun i mf => filled (fun i' _ _ => i' < i) mf)
              (fun i =>
                 for_range 0 DIMY (fun j =>
                   for_range 0 DIMZ (fun k mf =>
                     match put DIMXYZ (fst mf) (INDXYZ i j k) 1 with
                     | Some media' =>
                         match put DIMXYZ (snd mf) (INDXYZ i j k) 0%R with
                         | Some field' => Some (media', field')
                         | None => None
                         end
                     | None => None
                     end))) 0 DIMX (media0, field0)) as ([m f] & E & Hf).
  - unfold DIMX; lia.
  - intros i' j' k' Hi' Hj' Hk' HP. lia.
  - intros i u Hi Hinv. apply Hmiddle; assumption.
  - exists m, f. split; [exact E|].
    intros v Hv.
    destruct (INDXYZ_onto v Hv) as (i & j & k & Hi & Hj & Hk & <-).
    destruct (Hf i j k Hi Hj Hk) as [A B]; [lia|]. cbn [fst snd] in A, B.
    split; [exact A|]. split; [|exact B].
    rewrite A. unfold main_media.
    pose proof (INDXYZ_range i j k Hi Hj Hk) as Hr. unfold in_grid in Hr.
    replace ((0 <=? INDXYZ i j k) && (INDXYZ i j k <? DIMXYZ))%bool with true;
      [reflexivity|].
    symmetry. apply andb_true_intro. split; [apply Z.leb_le | apply Z.ltb_lt]; lia.
Qed.

(** *** The media cache *)

Lemma MEDIA_PACK_eq : MEDIA_PACK = 2.
Proof. reflexivity. Qed.

Lemma MEDIA_MOD_eq : MEDIA_MOD = Z.ones 2.
Proof. reflexivity. Qed.

Lemma MEDIA_MASK_eq : MEDIA_MASK = Z.ones 2.
Proof. reflexivity. Qed.

Lemma testbit_mask (q : Z) : Z.testbit (Z.ones 2) q = ((0 <=? q) && (q <? 2))%bool.
Proof. apply Z.testbit_ones. lia. Qed.

Lemma voxel_number_bounds (cp0 cp1 : int3) (i j k : Z) :
  in_cache_box cp0 cp1 i j k ->
  0 <= voxel_number cp0 cp1 i j k
     < (xi cp1 - xi cp0) * (yi cp1 - yi cp0) * (zi cp1 - zi cp0).
Proof.
  unfold in_cache_box, voxel_number. intros (Hi & Hj & Hk).
  set (a := i - xi cp0). set (b := j - yi cp0). set (c := k - zi cp0).
  set (nx := xi cp1 - xi cp0). set (ny := yi cp1 - yi cp0).
  set (nz := zi cp1 - zi cp0).
  assert (Ha : 0 <= a < nx) by (unfold a, nx; lia).
  assert (Hb : 0 <= b < ny) by (unfold b, ny; lia).
  assert (Hc : 0 <= c < nz) by (unfold c, nz; lia).
  assert (H1 : 0 <= a * ny + b <= nx * ny - 1) by nia.
  split; [nia|].
  assert ((a * ny + b) * nz <= (nx * ny - 1) * nz)
    by (apply Z.mul_le_mono_nonneg_r; lia).
  lia.
Qed.

Lemma voxel_number_inj (cp0 cp1 : int3) (i j k i' j' k' : Z) :
  in_cache_box cp0 cp1 i j k -> in_cache_box cp0 cp1 i' j' k' ->
  voxel_number cp0 cp1 i j k = voxel_number cp0 cp1 i' j' k' ->
  i = i' /\ j = j' /\ k = k'.
Proof.
  unfold in_cache_box, voxel_number. intros (Hi & Hj & Hk) (Hi' & Hj' & Hk') E.
  set (ny := yi cp1 - yi cp0) in *. set (nz := zi cp1 - zi cp0) in *.
  destruct (Z.div_mod_unique nz
              ((i - xi cp0) * ny + (j - yi cp0)) ((i' - xi cp0) * ny + (j' - yi cp0))
              (k - zi cp0) (k' - zi cp0)) as [E1 E2];
    [left; unfold nz; lia | left; unfold nz; lia | lia |].
  destruct (Z.div_mod_unique ny (i - xi cp0) (i' - xi cp0)
              (j - yi cp0) (j' - yi cp0)) as [E3 E4];
    [left; unfold ny; lia | left; unfold ny; lia | lia |].
  lia.
Qed.

(** The bits of the word line 243 stores. *)
Lemma packed_word_bits (old m s p : Z) :
  0 <= p -> 0 <= s ->
  Z.testbit (uint (Z.lor old (Z.shiftl (Z.land m MEDIA_MASK) s))) p
  = if p <? 32
    then Z.testbit old p
         || (Z.testbit m (p - s) && ((0 <=? p - s) && (p - s <? 2)))
    else false.
Proof.
  intros Hp Hs. unfold uint. change 4294967296 with (2 ^ 32).
  destruct (Z.ltb_spec p 32) as [Hlt|Hge].
  - rewrite Z.mod_pow2_bits_low by exact Hlt.
    rewrite Z.lor_spec, Z.shiftl_spec by exact Hp.
    rewrite Z.land_spec, MEDIA_MASK_eq, testbit_mask. reflexivity.
  - apply Z.mod_pow2_bits_high. lia.
Qed.

Lemma pack_one (media : Z -> Z) (cp0 cp1 : int3) (i j k : Z) (cache : Z -> Z) :
  in_cache_box cp0 cp1 i j k ->
  packed media cp0 cp1 (voxel_number cp0 cp1 i j k) cache ->
  let n := voxel_number cp0 cp1 i j k in
  packed media cp0 cp1 (n + 1)
    (fun w => if w =? Z.shiftr n MEDIA_PACK
              then uint (Z.lor (cache (Z.shiftr n MEDIA_PACK))
                           (Z.shiftl (Z.land (media (INDXYZ i j k)) MEDIA_MASK)
                              (Z.land n MEDIA_MOD * MEDIA_BITS)))
              else cache w).
Proof.
  intros Hbox (Hdone & Hclean & Hhigh & Hpos) n.
  pose proof (voxel_number_bounds cp0 cp1 i j k Hbox) as [Hn0 _]. fold n in Hn0.
  rewrite MEDIA_PACK_eq, MEDIA_MOD_eq.
  rewrite Z.shiftr_div_pow2, Z.land_ones by lia.
  change (2 ^ 2) with 4. change MEDIA_BITS with 2.
  set (m := media (INDXYZ i j k)).
  set (cache' := fun w => if w =? n / 4
                          then uint (Z.lor (cache (n / 4))
                                       (Z.shiftl (Z.land m MEDIA_MASK) (n mod 4 * 2)))
                          else cache w).
  assert (Hmod : 0 <= n mod 4 < 4) by (apply Z.mod_pos_bound; lia).
  assert (Hother : forall c b, 0 <= c -> c <> n -> 0 <= b < 2 ->
                               slot cache' c b = slot cache c b).
  { intros c b Hc Hne Hb. unfold slot, cache'.
    destruct (Z.eqb_spec (c / 4) (n / 4)) as [E|E]; [|reflexivity].
    assert (Hcm : 0 <= c mod 4 < 4) by (apply Z.mod_pos_bound; lia).
    assert (Hd : c mod 4 <> n mod 4).
    { intros Em. apply Hne.
      rewrite (Z.div_mod c 4), (Z.div_mod n 4) by lia. rewrite E, Em. reflexivity. }
    rewrite packed_word_bits by lia.
    replace (2 * (c mod 4) + b <? 32) with true by (symmetry; apply Z.ltb_lt; lia).
    rewrite E.
    replace ((0 <=? 2 * (c mod 4) + b - n mod 4 * 2)
             && (2 * (c mod 4) + b - n mod 4 * 2 <? 2))%bool with false.
    - rewrite Bool.andb_false_r, Bool.orb_false_r. reflexivity.
    - symmetry. apply Bool.andb_false_iff.
      destruct (Z.lt_ge_cases (c mod 4) (n mod 4)).
      + left. apply Z.leb_gt. lia.
      + right. apply Z.ltb_ge. lia. }
  assert (Hnew : forall b, 0 <= b < 2 -> slot cache' n b = Z.testbit m b).
  { intros b Hb. unfold slot, cache'. rewrite Z.eqb_refl.
    rewrite packed_word_bits by lia.
    replace (2 * (n mod 4) + b <? 32) with true by (symmetry; apply Z.ltb_lt; lia).
    replace (2 * (n mod 4) + b - n mod 4 * 2) with b by lia.
    pose proof (Hclean n b (Z.le_refl n) Hb) as Hz. unfold slot in Hz.
    rewrite Hz.
    replace ((0 <=? b) && (b <? 2))%bool with true.
    - rewrite Bool.andb_true_r. reflexivity.
    - symmetry. apply andb_true_intro.
      split; [apply Z.leb_le | apply Z.ltb_lt]; lia. }
  split; [|split; [|split]].
  - intros i' j' k' Hbox' Hlt b Hb.
    pose proof (voxel_number_bounds cp0 cp1 i' j' k' Hbox') as [Hc0 _].
    destruct (Z.eq_dec (voxel_number cp0 cp1 i' j' k') n) as [E|E].
    + destruct (voxel_number_inj cp0 cp1 i' j' k' i j k Hbox' Hbox E)
        as (-> & -> & ->).
      fold n. apply Hnew. exact Hb.
    + rewrite Hother by assumption. apply Hdone; [exact Hbox' | fold n; lia | exact Hb].
  - intros c b Hc Hb. rewrite Hother by lia. apply Hclean; lia.
  - intros w p Hp. unfold cache'.
    destruct (w =? n / 4); [|apply Hhigh; exact Hp].
    rewrite packed_word_bits by lia.
    destruct (p <? 32); [|reflexivity].
    rewrite Hhigh by exact Hp.
    replace (p - n mod 4 * 2 <? 2) with false by (symmetry; apply Z.ltb_ge; lia).
    rewrite !Bool.andb_false_r. reflexivity.
  - intros w. unfold cache'.
    destruct (w =? n / 4); [|apply Hpos].
    unfold uint. apply Z.mod_pos_bound. lia.
Qed.

Lemma low_byte (v : Z) :
  0 <= v -> (forall p, 8 <= p -> Z.testbit v p = false) -> v < 256.
Proof.
  intros Hv Hb. destruct (Z.eq_dec v 0) as [->|Hne]; [lia|].
  change 256 with (2 ^ 8). apply Z.log2_lt_pow2; [lia|].
  destruct (Z.lt_ge_cases (Z.log2 v) 8) as [H|H]; [exact H|].
  pose proof (Z.bit_log2 v ltac:(lia)) as Ht.
  rewrite Hb in Ht by exact H. discriminate.
Qed.

(** The body of the innermost loop, lines 243-244. *)
Lemma pack_body (media : Z -> Z) (cp0 cp1 : int3) (i j k : Z) (cache : Z -> Z) :
  0 <= xi cp0 -> xi cp1 <= DIMX -> 0 <= yi cp0 -> yi cp1 <= DIMY ->
  0 <= zi cp0 -> zi cp1 <= DIMZ ->
  (xi cp1 - xi cp0) * (yi cp1 - yi cp0) * (zi cp1 - zi cp0) <= MAX_MEDIA_CACHE ->
  in_cache_box cp0 cp1 i j k ->
  packed media cp0 cp1 (voxel_number cp0 cp1 i j k) cache ->
  exists cache',
    (let mediacache := fst (cache, voxel_number cp0 cp1 i j k) in
     let count := snd (cache, voxel_number cp0 cp1 i j k) in
     let word := Z.shiftr count MEDIA_PACK in
     match get DIMXYZ media (INDXYZ i j k),
           get (Z.shiftr MAX_MEDIA_CACHE 2) mediacache word with
     | Some m, Some old =>
         match put (Z.shiftr MAX_MEDIA_CACHE 2) mediacache word
                 (uint (Z.lor old
                          (Z.shiftl (Z.land m MEDIA_MASK)
                             (Z.land count MEDIA_MOD * MEDIA_BITS)))) with
         | Some mediacache' => Some (mediacache', count + 1)
         | None => None
         end
     | _, _ => None
     end) = Some (cache', voxel_number cp0 cp1 i j k + 1)
    /\ packed media cp0 cp1 (voxel_number cp0 cp1 i j k + 1) cache'.
Proof.
  intros Hx0 Hx1 Hy0 Hy1 Hz0 Hz1 Hvol Hbox Hp.
  pose proof (voxel_number_bounds cp0 cp1 i j k Hbox) as Hn.
  destruct Hbox as (Hi & Hj & Hk).
  assert (Hgrid : in_grid (INDXYZ i j k)) by (apply INDXYZ_range; lia).
  unfold in_grid in Hgrid.
  cbn [fst snd]. cbv zeta.
  assert (Hw : 0 <= Z.shiftr (voxel_number cp0 cp1 i j k) MEDIA_PACK
               < Z.shiftr MAX_MEDIA_CACHE 2).
  { rewrite MEDIA_PACK_eq, Z.shiftr_div_pow2 by lia.
    change (Z.shiftr MAX_MEDIA_CACHE 2) with 13312. change (2 ^ 2) with 4.
    unfold MAX_MEDIA_CACHE in Hvol.
    Z.div_mod_to_equations. lia. }
  rewrite (get_in_range DIMXYZ media _ Hgrid).
  rewrite (get_in_range _ cache _ Hw), (put_in_range _ cache _ _ Hw).
  eexists; split; [reflexivity|].
  apply (pack_one media cp0 cp1 i j k cache); [repeat split; lia | exact Hp].
Qed.

(** The packing of lines 236-245 loses nothing.  For a box inside the
    domain with at most [MAX_MEDIA_CACHE] voxels, the loops end without
    leaving [media] or [mediacache], [count] ends as the number of voxels
    of the box, every word of the cache is below 256 (only the low byte of
    each [uint] is used), and the two low bits of the medium of every
    voxel of the box can be read back from the cache: shifting word
    [c >> MEDIA_PACK] right by [(c & MEDIA_MOD) * MEDIA_BITS] and masking
    with [MEDIA_MASK] gives [media[INDXYZ(i,j,k)] & MEDIA_MASK], where [c]
    is the number of the voxel in the order of the loops. *)
Theorem pack_media_round_trip (media : Z -> Z) (cp0 cp1 : int3) :
  0 <= xi cp0 <= xi cp1 -> xi cp1 <= DIMX ->
  0 <= yi cp0 <= yi cp1 -> yi cp1 <= DIMY ->
  0 <= zi cp0 <= zi cp1 -> zi cp1 <= DIMZ ->
  (xi cp1 - xi cp0) * (yi cp1 - yi cp0) * (zi cp1 - zi cp0) <= MAX_MEDIA_CACHE ->
  exists mediacache,
    pack_media media cp0 cp1
    = Some (mediacache,
            (xi cp1 - xi cp0) * (yi cp1 - yi cp0) * (zi cp1 - zi cp0))
    /\ (forall w, 0 <= mediacache w < 256)
    /\ forall i j k,
         xi cp0 <= i < xi cp1 -> yi cp0 <= j < yi cp1 -> zi cp0 <= k < zi cp1 ->
         let c := ((i - xi cp0) * (yi cp1 - yi cp0) + (j - yi cp0))
                  * (zi cp1 - zi cp0) + (k - zi cp0) in
         Z.land (Z.shiftr (mediacache (Z.shiftr c MEDIA_PACK))
                   (Z.land c MEDIA_MOD * MEDIA_BITS)) MEDIA_MASK
         = Z.land (media (INDXYZ i j k)) MEDIA_MASK.
Proof.
  intros Hx Hx1 Hy Hy1 Hz Hz1 Hvol.
  set (body := fun i j k (cc : (Z -> Z) * Z) =>
                 let mediacache := fst cc in
                 let count := snd cc in
                 let word := Z.shiftr count MEDIA_PACK in
                 match get DIMXYZ media (INDXYZ i j k),
                       get (Z.shiftr MAX_MEDIA_CACHE 2) mediacache word with
                 | Some m, Some old =>
                     match put (Z.shiftr MAX_MEDIA_CACHE 2) mediacache word
                             (uint (Z.lor old
                                      (Z.shiftl (Z.land m MEDIA_MASK)
                                         (Z.land count MEDIA_MOD * MEDIA_BITS)))) with
                     | Some mediacache' => Some (mediacache', count + 1)
                     | None => None
                     end
                 | _, _ => None
                 end).
  set (Inv := fun i j k (cc : (Z -> Z) * Z) =>
                snd cc = voxel_number cp0 cp1 i j k
                /\ packed media cp0 cp1 (snd cc) (fst cc)).
  assert (Hinner : forall i j cc,
             xi cp0 <= i < xi cp1 -> yi cp0 <= j < yi cp1 ->
             Inv i j (zi cp0) cc ->
             exists cc', for_range (zi cp0) (zi cp1) (body i j) cc = Some cc'
                         /\ Inv i (j + 1) (zi cp0) cc').
  { intros i j cc Hi Hj Hcc.
    destruct (for_range_total (fun k cc => Inv i j k cc) (body i j)
                (zi cp0) (zi cp1) cc) as (cc' & E & Hcc').
    - lia.
    - exact Hcc.
    - intros k [cache count] Hk [Hc Hp]. cbn [fst snd] in Hc, Hp. subst count.
      destruct (pack_body media cp0 cp1 i j k cache) as (cache' & E & Hp');
        try lia; [repeat split; lia | exact Hp |].
      exists (cache', voxel_number cp0 cp1 i j k + 1).
      split; [exact E|]. split; [|exact Hp'].
      cbn [snd]. unfold voxel_number. lia.
    - exists cc'. split; [exact E|].
      destruct Hcc' as [Hc Hp]. split; [|exact Hp].
      rewrite Hc. unfold voxel_number. lia. }
  assert (Hmiddle : forall i cc,
             xi cp0 <= i < xi cp1 ->
             Inv i (yi cp0) (zi cp0) cc ->
             exists cc', for_range (yi cp0) (yi cp1)
                           (fun j => for_range (zi cp0) (zi cp1) (body i j)) cc
                         = Some cc'
                         /\ Inv (i + 1) (yi cp0) (zi cp0) cc').
  { intros i cc Hi Hcc.
    destruct (for_range_total (fun j cc => Inv i j (zi cp0) cc)
                (fun j => for_range (zi cp0) (zi cp1) (body i j))
                (yi cp0) (yi cp1) cc) as (cc' & E & Hcc').
    - lia.
    - exact Hcc.
    - intros j u Hj Hu. apply Hinner; assumption.
    - exists cc'. split; [exact E|].
      destruct Hcc' as [Hc Hp]. split; [|exact Hp].
      rewrite Hc. unfold voxel_number. lia. }
  destruct (for_range_total (fun i cc => Inv i (yi cp0) (zi cp0) cc)
              (fun i => for_range (yi cp0) (yi cp1)
                          (fun j => for_range (zi cp0) (zi cp1) (body i j)))
              (xi cp0) (xi cp1) (fun _ => 0, 0)) as ([cache count] & E & Hc & Hp).
  - lia.
  - split; [cbn [snd]; unfold voxel_number; lia|]. cbn [fst snd].
    split; [|split; [|split]].
    + intros i j k Hbox Hlt.
      pose proof (voxel_number_bounds cp0 cp1 i j k Hbox). lia.
    + intros c b _ _. unfold slot. apply Z.testbit_0_l.
    + intros w p _. apply Z.testbit_0_l.
    + intros w. lia.
  - intros i u Hi Hu. apply Hmiddle; assumption.
  - cbn [fst snd] in Hc, Hp.
    assert (Ecount : count = (xi cp1 - xi cp0) * (yi cp1 - yi cp0) * (zi cp1 - zi cp0))
      by (rewrite Hc; unfold voxel_number; lia).
    exists cache. split; [|split].
    + rewrite <- Ecount. exact E.
    + destruct Hp as (_ & _ & Hhigh & Hpos). intros w.
      split; [apply Hpos | apply low_byte; [apply Hpos | apply Hhigh]].
    + intros i j k Hi Hj Hk c.
      assert (Hbox : in_cache_box cp0 cp1 i j k) by (repeat split; lia).
      pose proof (voxel_number_bounds cp0 cp1 i j k Hbox) as Hn.
      destruct Hp as (Hdone & _).
      change c with (voxel_number cp0 cp1 i j k).
      set (n := voxel_number cp0 cp1 i j k) in *.
      rewrite MEDIA_PACK_eq, MEDIA_MOD_eq, MEDIA_MASK_eq.
      rewrite (Z.shiftr_div_pow2 n 2), (Z.land_ones n) by lia.
      change (2 ^ 2) with 4. change MEDIA_BITS with 2.
      assert (Hmod : 0 <= n mod 4 < 4) by (apply Z.mod_pos_bound; lia).
      apply Z.bits_inj'. intros q Hq.
      rewrite !Z.land_spec, testbit_mask, Z.shiftr_spec by exact Hq.
      destruct (Z.ltb_spec q 2) as [Hlt|Hge].
      * replace (0 <=? q) with true by (symmetry; apply Z.leb_le; exact Hq).
        rewrite !Bool.andb_true_r.
        replace (q + n mod 4 * 2) with (2 * (n mod 4) + q) by lia.
        apply (Hdone i j k Hbox); [fold n; lia | lia].
      * rewrite !Bool.andb_false_r. reflexivity.
Qed.

End HostFacts.

(** ** The host program: the photon count *)

Module CountFacts.
Import Kernel Host KernelFacts PhotonFacts HostFacts.

Section Generator.

Variable rng : Type.
Variable mt19937si : Z -> rng.
Variable mt19937s : rng -> Z * rng.

Lemma int_of_float_INR (j : nat) : int_of_float (INR j) = Z.of_nat j.
Proof.
  unfold int_of_float. destruct (Rle_dec 0 (INR j)) as [_|H].
  - rewrite INR_IZR_INZ. apply ZfloorZ.
  - exfalso. apply H. apply pos_INR.
Qed.

Lemma int32_small (v : Z) : (- 2147483648 <= v < 2147483648)%Z -> int32 v = v.
Proof.
  intros H. unfold int32. rewrite Z.mod_small by lia. lia.
Qed.


End Generator.

End CountFacts.

(** ** The media cache [main] builds *)

Module HostExamples.
Import Kernel Host HostFacts CountFacts.
Open Scope Z_scope.

(** [main]'s box of 20 x 20 x 40 voxels over its all-ones volume: 16000
    voxels, every one read back as medium 1. *)
Lemma pack_media_round_trip_witness :
  exists mediacache,
    pack_media main_media main_cp0 main_cp1 = Some (mediacache, 16000)
    /\ (forall w, 0 <= mediacache w < 256)
    /\ forall i j k, 0 <= i < 20 -> 0 <= j < 20 -> 0 <= k < 40 ->
         Z.land (Z.shiftr (mediacache (Z.shiftr ((i * 20 + j) * 40 + k) MEDIA_PACK))
                   (Z.land ((i * 20 + j) * 40 + k) MEDIA_MOD * MEDIA_BITS))
           MEDIA_MASK
         = 1.
Proof.
  assert (Hx : 0 <= xi main_cp0 <= xi main_cp1) by (cbn; lia).
  assert (Hx1 : xi main_cp1 <= DIMX) by (cbn; unfold DIMX; lia).
  assert (Hy : 0 <= yi main_cp0 <= yi main_cp1) by (cbn; lia).
  assert (Hy1 : yi main_cp1 <= DIMY) by (cbn; unfold DIMY; lia).
  assert (Hz : 0 <= zi main_cp0 <= zi main_cp1) by (cbn; lia).
  assert (Hz1 : zi main_cp1 <= DIMZ) by (cbn; unfold DIMZ; lia).
  assert (Hv : (xi main_cp1 - xi main_cp0) * (yi main_cp1 - yi main_cp0)
               * (zi main_cp1 - zi main_cp0) <= MAX_MEDIA_CACHE)
    by (cbn; unfold MAX_MEDIA_CACHE; lia).
  destruct (pack_media_round_trip main_media main_cp0 main_cp1 Hx Hx1 Hy Hy1 Hz Hz1 Hv)
    as (cache & E & Hb & Hr).
  exists cache. split; [exact E|]. split; [exact Hb|].
  intros i j k Hi Hj Hk.
  specialize (Hr i j k Hi Hj Hk). cbn [xi yi zi main_cp0 main_cp1] in Hr.
  cbv zeta in Hr.
  replace ((i - 0) * (20 - 0) + (j - 0)) with (i * 20 + j) in Hr by lia.
  replace ((i * 20 + j) * (40 - 0) + (k - 0)) with ((i * 20 + j) * 40 + k) in Hr by lia.
  rewrite Hr.
  assert (Hg : in_grid (INDXYZ i j k))
    by (apply INDXYZ_range; unfold DIMX, DIMY, DIMZ; lia).
  unfold in_grid in Hg. unfold main_media.
  replace ((0 <=? INDXYZ i j k) && (INDXYZ i j k <? DIMXYZ))%bool with true;
    [reflexivity|].
  symmetry. apply andb_true_intro. split; [apply Z.leb_le | apply Z.ltb_lt]; lia.
Defined.

Close Scope Z_scope.


End HostExamples.

(** ** The Mie utilities *)

Module MieFacts.
Import Mie.

(** *** Arrays and loops *)

Lemma length_upd {A} (l : list A) (i : nat) (v : A) :
  List.length (upd l i v) = List.length l.
Proof.
  revert i; induction l as [|h t IH]; intros [|i]; simpl; auto.
Qed.

Lemma nth_error_upd_eq {A} (l : list A) (i : nat) (v : A) :
  (i < List.length l)%nat -> nth_error (upd l i v) i = Some v.
Proof.
  revert i; induction l as [|h t IH]; intros [|i] H; simpl in *; try lia; auto.
  apply IH; lia.
Qed.

Lemma nth_error_upd_neq {A} (l : list A) (i k : nat) (v : A) :
  k <> i -> nth_error (upd l i v) k = nth_error l k.
Proof.
  revert i k; induction l as [|h t IH]; intros [|i] [|k] H; simpl; auto;
    congruence.
Qed.

Lemma load_Ok {A} (l : list A) (i : nat) (v : A) :
  load l i = Ok v <-> nth_error l i = Some v.
Proof.
  unfold load. destruct (nth_error l i); split; intros H; congruence.
Qed.

Lemma load_in_bounds {A} (l : list A) (i : nat) :
  (i < List.length l)%nat -> exists v, load l i = Ok v.
Proof.
  intros H. unfold load.
  destruct (nth_error l i) eqn:E; [eauto|].
  apply nth_error_None in E. lia.
Qed.

Lemma load_out_of_bounds {A} (l : list A) (i : nat) :
  (List.length l <= i)%nat ->
  load l i = Fail (OutOfBounds (Z.of_nat i) (List.length l)).
Proof.
  intros H. unfold load. apply nth_error_None in H. rewrite H. reflexivity.
Qed.

Lemma store_in_bounds {A} (l : list A) (i : nat) (v : A) :
  (i < List.length l)%nat -> store l i v = Ok (upd l i v).
Proof.
  intros H. unfold store. apply Nat.ltb_lt in H. rewrite H. reflexivity.
Qed.

Lemma store_out_of_bounds {A} (l : list A) (i : nat) (v : A) :
  (List.length l <= i)%nat ->
  store l i v = Fail (OutOfBounds (Z.of_nat i) (List.length l)).
Proof.
  intros H. unfold store. apply Nat.ltb_ge in H. rewrite H. reflexivity.
Qed.

Lemma store_Ok {A} (l l' : list A) (i : nat) (v : A) :
  store l i v = Ok l' -> l' = upd l i v /\ (i < List.length l)%nat.
Proof.
  unfold store. destruct (i <? List.length l)%nat eqn:E; intros H; [|discriminate].
  apply Nat.ltb_lt in E. split; congruence.
Qed.

Lemma bind_Ok {A B} (c : outcome A) (k : A -> outcome B) (b : B) :
  bind c k = Ok b -> exists a, c = Ok a /\ k a = Ok b.
Proof. destruct c; simpl; intros H; try discriminate; eauto. Qed.

(** A loop that ends normally has kept every invariant its body keeps. *)
Lemma for_loop_inv {St} (Inv : nat -> St -> Prop) (body : nat -> St -> outcome St)
  (count i : nat) (s t : St) :
  for_loop count i body s = Ok t ->
  Inv i s ->
  (forall j u u', (i <= j < i + count)%nat -> Inv j u -> body j u = Ok u' ->
                  Inv (S j) u') ->
  Inv (i + count)%nat t.
Proof.
  revert i s. induction count as [|c IH]; intros i s H Hi Hstep; simpl in H.
  - inversion H; subst. rewrite Nat.add_0_r. exact Hi.
  - apply bind_Ok in H. destruct H as (s' & Hb & Hrest).
    replace (i + S c)%nat with (S i + c)%nat by lia.
    apply (IH (S i) s' Hrest).
    + apply (Hstep i s s'); [lia | exact Hi | exact Hb].
    + intros j u u' Hj. apply Hstep. lia.
Qed.

(** A loop whose body always succeeds under an invariant it keeps ends
    normally. *)
Lemma for_loop_total {St} (Inv : nat -> St -> Prop) (body : nat -> St -> outcome St)
  (count i : nat) (s : St) :
  Inv i s ->
  (forall j u, (i <= j < i + count)%nat -> Inv j u ->
               exists u', body j u = Ok u' /\ Inv (S j) u') ->
  exists t, for_loop count i body s = Ok t /\ Inv (i + count)%nat t.
Proof.
  revert i s. induction count as [|c IH]; intros i s Hi Hstep; simpl.
  - exists s. rewrite Nat.add_0_r. auto.
  - destruct (Hstep i s) as (s' & Hb & Hi'); [lia | exact Hi |].
    rewrite Hb; simpl.
    replace (i + S c)%nat with (S i + c)%nat by lia.
    apply IH; [exact Hi'|]. intros j u Hj. apply Hstep. lia.
Qed.

(** *** The Mueller entries *)

Lemma mueller_bounds (s1 s2 : Dcomplex) :
  0 <= x4 (mueller s1 s2) /\ Rabs (y4 (mueller s1 s2)) <= x4 (mueller s1 s2).
Proof.
  unfold mueller; simpl.
  assert (A : 0 <= cabs s1 * cabs s1) by apply Rle_0_sqr.
  assert (B : 0 <= cabs s2 * cabs s2) by apply Rle_0_sqr.
  split; [lra|]. apply Rabs_le. lra.
Qed.

(** A loop that stores a [mueller] row at each index leaves [rows_ok]. *)
Lemma mueller_loop_rows (n : nat) (body : nat -> list float4 -> outcome (list float4))
  (smatrix smatrix' : list float4) :
  (forall j u u', body j u = Ok u' ->
     exists a b, u' = upd u j (mueller a b) /\ (j < List.length u)%nat) ->
  for_loop n 0 body smatrix = Ok smatrix' ->
  rows_ok n smatrix'.
Proof.
  intros Hbody H.
  apply (for_loop_inv (fun i sm => rows_ok i sm) _ n 0 smatrix smatrix' H).
  - intros k Hk; lia.
  - intros j u u' Hj Hu Hb.
    destruct (Hbody j u u' Hb) as (a & b & -> & Hlt).
    intros k Hk. destruct (Nat.eq_dec k j) as [->|Hne].
    + exists (mueller a b). split; [apply nth_error_upd_eq; exact Hlt|].
      apply mueller_bounds.
    + rewrite nth_error_upd_neq by exact Hne. apply Hu. lia.
Qed.

Section WithConstants.

Variable NANGLES : nat.
Variable ONE_PI : R.
Variable TWO_PI : R.

Lemma small_Mie_rows (x mx : R) (mu : list R) (smatrix smatrix' : list float4)
  (qsca g : R) :
  small_Mie NANGLES x mx mu smatrix = Ok (smatrix', qsca, g) ->
  rows_ok NANGLES smatrix'.
Proof.
  unfold small_Mie. intros H.
  apply bind_Ok in H. destruct H as (sm & Hloop & Hret).
  inversion Hret; subst sm. clear Hret.
  eapply mueller_loop_rows; [|exact Hloop].
  intros j u u' Hb. cbv beta in Hb.
  apply bind_Ok in Hb. destruct Hb as (muj & _ & Hst).
  apply store_Ok in Hst. destruct Hst as [-> Hlt]. eauto.
Qed.

Lemma Mie_main_rows (fuel : nat) (x mx : R) (mu : list R)
  (smatrix smatrix' : list float4) (qsca g : R) :
  Mie_main NANGLES fuel x mx mu smatrix = Ok (smatrix', qsca, g) ->
  rows_ok NANGLES smatrix'.
Proof.
  unfold Mie_main. intros H.
  apply bind_Ok in H. destruct H as (p1 & _ & H).
  apply bind_Ok in H. destruct H as (D & _ & H).
  apply bind_Ok in H. destruct H as ([a sc] & _ & H).
  apply bind_Ok in H. destruct H as (sm & Hloop & Hret).
  inversion Hret; subst sm. clear Hret.
  eapply mueller_loop_rows; [|exact Hloop].
  intros j u u' Hb. cbv beta in Hb.
  apply bind_Ok in Hb. destruct Hb as (v1 & _ & Hb).
  apply bind_Ok in Hb. destruct Hb as (v2 & _ & Hst).
  apply store_Ok in Hst. destruct Hst as [-> Hlt]. eauto.
Qed.

(** *** The errors [Mie] raises *)

Lemma no_error_Ok {A} (a : A) : raises_no_error (Ok a).
Proof. intros id msg H; discriminate. Qed.

Lemma no_error_bind {A B} (c : outcome A) (k : A -> outcome B) :
  raises_no_error c -> (forall a, raises_no_error (k a)) ->
  raises_no_error (bind c k).
Proof.
  intros Hc Hk. destruct c as [a|f|]; simpl.
  - apply Hk.
  - intros id msg H. apply (Hc id msg). congruence.
  - intros id msg H; discriminate.
Qed.

Lemma no_error_load {A} (l : list A) (i : nat) : raises_no_error (load l i).
Proof. unfold load. destruct (nth_error l i); intros id msg H; discriminate. Qed.

Lemma no_error_store {A} (l : list A) (i : nat) (v : A) :
  raises_no_error (store l i v).
Proof. unfold store. destruct (_ <? _)%nat; intros id msg H; discriminate. Qed.

Lemma no_error_for_loop {St} (body : nat -> St -> outcome St) (count i : nat) (s : St) :
  (forall j u, raises_no_error (body j u)) ->
  raises_no_error (for_loop count i body s).
Proof.
  intros Hb. revert i s. induction count as [|c IH]; intros i s; simpl.
  - apply no_error_Ok.
  - apply no_error_bind; [apply Hb | intros; apply IH].
Qed.

Lemma no_error_for_down {St} (body : nat -> St -> outcome St) (count : nat) (s : St) :
  (forall j u, raises_no_error (body j u)) ->
  raises_no_error (for_down count body s).
Proof.
  intros Hb. revert s. induction count as [|c IH]; intros s; simpl.
  - apply no_error_Ok.
  - apply no_error_bind; [apply Hb | intros; apply IH].
Qed.

Lemma no_error_lentz_loop (fuel : nat) (s : lentz_state) :
  raises_no_error (lentz_loop fuel s).
Proof.
  revert s. induction fuel as [|f IH]; intros s; simpl.
  - intros id msg H; discriminate.
  - destruct (lentz_continue _); [apply IH | apply no_error_Ok].
Qed.

Ltac no_error :=
  repeat first
    [ apply no_error_Ok
    | apply no_error_load
    | apply no_error_store
    | apply no_error_lentz_loop
    | apply no_error_for_loop; intros
    | apply no_error_for_down; intros
    | apply no_error_bind; [|intros]
    | match goal with
      | |- raises_no_error (if ?c then _ else _) => destruct c
      | |- raises_no_error (match ?p with (_, _) => _ end) => destruct p
      | |- raises_no_error (Fail (OutOfBounds _ _)) => intros ? ? ?; discriminate
      | |- raises_no_error (Fail Unallocated) => intros ? ? ?; discriminate
      end ].

Lemma no_error_small_Mie (x mx : R) (mu : list R) (smatrix : list float4) :
  raises_no_error (small_Mie NANGLES x mx mu smatrix).
Proof. unfold small_Mie. no_error. Qed.

Lemma no_error_Lentz_Dn (fuel : nat) (z : Dcomplex) (n : Z) :
  raises_no_error (Lentz_Dn fuel z n).
Proof. unfold Lentz_Dn. no_error. Qed.

Lemma no_error_Dn_up (z : Dcomplex) (nstop : Z) (D : list Dcomplex) :
  raises_no_error (Dn_up z nstop D).
Proof. unfold Dn_up. no_error. Qed.

Lemma no_error_Dn_down (fuel : nat) (z : Dcomplex) (nstop : Z) (D : list Dcomplex) :
  raises_no_error (Dn_down fuel z nstop D).
Proof.
  unfold Dn_down. apply no_error_bind; [apply no_error_Lentz_Dn|intros].
  no_error.
Qed.

Lemma no_error_mie_order (m : Dcomplex) (x : R) (D : option (list Dcomplex))
  (mu : list R) (n : nat) (st : mie_arrays * mie_scalars) :
  raises_no_error (mie_order NANGLES m x D mu n st).
Proof.
  unfold mie_order, mie_coefficients, load_D, mie_angle_sum, mie_legendre.
  destruct st as [a sc]. destruct D; no_error.
Qed.

Lemma no_error_Mie_main (fuel : nat) (x mx : R) (mu : list R) (smatrix : list float4) :
  raises_no_error (Mie_main NANGLES fuel x mx mu smatrix).
Proof.
  unfold Mie_main.
  apply no_error_bind; [no_error|intros].
  apply no_error_bind.
  { destruct (Rltb 0 _); [|apply no_error_Ok].
    apply no_error_bind; [|intros; apply no_error_Ok].
    destruct (Rltb _ _); [apply no_error_Dn_up | apply no_error_Dn_down]. }
  intros D.
  apply no_error_bind; [apply no_error_for_loop; intros; apply no_error_mie_order|].
  intros [a2 sc]. no_error.
Qed.

(** C6: [Mie] fails with [InvalidInput] exactly when [x <= 0], with
    [Unvalidated] exactly when [x > 20000]; for [0 < x <= 20000] it raises
    no error at all and goes on to compute, in the small-particle branch
    when [(mx = 0 and x < 0.1)] or [(mx > 0 and |m| x < 0.1)], in the
    general branch otherwise. *)
Theorem Mie_input_errors (fuel : nat) (x mx : R) (mu : list R)
  (smatrix : list float4) :
  let m := make_Dcomplex mx 0 in
  (Mie NANGLES fuel x mx mu smatrix = Fail InvalidInput <-> x <= 0)
  /\ (Mie NANGLES fuel x mx mu smatrix = Fail Unvalidated <-> x > 20000)
  /\ (0 < x <= 20000 ->
      raises_no_error (Mie NANGLES fuel x mx mu smatrix)
      /\ Mie NANGLES fuel x mx mu smatrix
         = if (if Req_dec_T (creal m) 0 then Rltb x 0.1 else false)
              || (Rltb 0 (creal m) && Rltb (cabs m * x) 0.1)
           then small_Mie NANGLES x mx mu smatrix
           else Mie_main NANGLES fuel x mx mu smatrix).
Proof.
  intros m.
  assert (Hin : 0 < x <= 20000 ->
                Mie NANGLES fuel x mx mu smatrix
                = if (if Req_dec_T (creal m) 0 then Rltb x 0.1 else false)
                     || (Rltb 0 (creal m) && Rltb (cabs m * x) 0.1)
                  then small_Mie NANGLES x mx mu smatrix
                  else Mie_main NANGLES fuel x mx mu smatrix).
  { intros [Hlo Hhi]. unfold Mie.
    rewrite (proj2 (Rleb_false x 0) Hlo), (proj2 (Rltb_false 20000 x) Hhi).
    reflexivity. }
  assert (Hno : 0 < x <= 20000 -> raises_no_error (Mie NANGLES fuel x mx mu smatrix)).
  { intros Hx. rewrite (Hin Hx).
    destruct (_ || _); [apply no_error_small_Mie | apply no_error_Mie_main]. }
  split; [|split].
  - split.
    + intros H. destruct (Rle_dec x 0) as [|Hpos]; [assumption|exfalso].
      apply Rnot_le_lt in Hpos.
      destruct (Rle_dec x 20000) as [Hhi|Hhi].
      * exact (Hno (Logic.conj Hpos Hhi) _ _ H).
      * apply Rnot_le_lt in Hhi. unfold Mie in H.
        rewrite (proj2 (Rleb_false x 0) Hpos), (proj2 (Rltb_true 20000 x) Hhi) in H.
        discriminate.
    + intros H. unfold Mie. rewrite (proj2 (Rleb_true x 0) H). reflexivity.
  - split.
    + intros H. destruct (Rlt_dec 20000 x) as [|Hhi]; [assumption|exfalso].
      apply Rnot_lt_le in Hhi.
      destruct (Rle_dec x 0) as [Hlo|Hlo].
      * unfold Mie in H. rewrite (proj2 (Rleb_true x 0) Hlo) in H. discriminate.
      * apply Rnot_le_lt in Hlo. exact (Hno (Logic.conj Hlo Hhi) _ _ H).
    + intros H. unfold Mie.
      rewrite (proj2 (Rleb_false x 0)) by lra.
      rewrite (proj2 (Rltb_true 20000 x)) by lra. reflexivity.
  - intros Hx. split; [exact (Hno Hx) | exact (Hin Hx)].
Qed.

(** C7: when [Mie] returns, and when [small_Mie] returns, every row
    [k < NANGLES] of the Mueller matrix has [S11 >= 0] and
    [|S12| <= S11] (the [x] and [y] components of [smatrix[k]]). *)
Theorem Mie_rows_bounded (fuel : nat) (x mx : R) (mu : list R)
  (smatrix smatrix' : list float4) (qsca g : R) :
  Mie NANGLES fuel x mx mu smatrix = Ok (smatrix', qsca, g)
  \/ small_Mie NANGLES x mx mu smatrix = Ok (smatrix', qsca, g) ->
  forall k, (k < NANGLES)%nat ->
  exists r, nth_error smatrix' k = Some r
            /\ 0 <= x4 r /\ Rabs (y4 r) <= x4 r.
Proof.
  intros [H|H].
  - unfold Mie in H.
    destruct (Rleb x 0); [discriminate|].
    destruct (Rltb 20000 x); [discriminate|].
    destruct (_ || _).
    + exact (small_Mie_rows _ _ _ _ _ _ _ H).
    + exact (Mie_main_rows _ _ _ _ _ _ _ _ H).
  - exact (small_Mie_rows _ _ _ _ _ _ _ H).
Qed.

(** *** The loops over the angles in [WhittleMattern] and [MiePoly] *)

Lemma bind_Ok_l {A B} (a : A) (k : A -> outcome B) : bind (Ok a) k = k a.
Proof. reflexivity. Qed.

Lemma for_loop_S {St} (body : nat -> St -> outcome St) (c i : nat) (s : St) :
  for_loop (S c) i body s = (s' <- body i s ;; for_loop c (S i) body s').
Proof. reflexivity. Qed.

Lemma whittle_fill_in (klc D : R) (L i : nat) (p : poly_arrays) :
  poly_len L p -> (i < L)%nat ->
  exists p', whittle_fill NANGLES ONE_PI klc D i p = Ok p' /\ poly_len L p'.
Proof.
  intros (H1 & H2 & H3 & H4) Hi. unfold whittle_fill.
  rewrite !store_in_bounds by lia. simpl.
  eexists; split; [reflexivity|].
  unfold poly_len; simpl. rewrite !length_upd. auto.
Qed.

Lemma whittle_fill_out (klc D : R) (L i : nat) (p : poly_arrays) :
  poly_len L p -> (L <= i)%nat ->
  whittle_fill NANGLES ONE_PI klc D i p = Fail (OutOfBounds (Z.of_nat i) L).
Proof.
  intros (H1 & H2 & H3 & H4) Hi. unfold whittle_fill.
  rewrite store_out_of_bounds by lia. rewrite H1. reflexivity.
Qed.

Lemma whittle_loop_overruns (klc D : R) (L count i : nat) (p : poly_arrays) :
  poly_len L p -> (i <= L < i + count)%nat ->
  for_loop count i (whittle_fill NANGLES ONE_PI klc D) p
  = Fail (OutOfBounds (Z.of_nat L) L).
Proof.
  revert i p. induction count as [|c IH]; intros i p Hp Hi; [lia|].
  rewrite for_loop_S.
  destruct (Nat.eq_dec i L) as [->|Hne].
  - rewrite (whittle_fill_out klc D L L p Hp) by lia. reflexivity.
  - destruct (whittle_fill_in klc D L i p Hp) as (p' & -> & Hp'); [lia|].
    simpl. apply IH; [exact Hp' | lia].
Qed.

Lemma poly_len_zero (L : nat) :
  poly_len L {| s11_avg := repeat 0 L; s12_avg := repeat 0 L;
                s33_avg := repeat 0 L; s43_avg := repeat 0 L |}.
Proof. unfold poly_len; simpl. rewrite !repeat_length. auto. Qed.

Lemma WhittleMattern_overruns (lc D : R) (mu : list R) (smatrix : list float4)
  (lambda : R) :
  WhittleMattern NANGLES ONE_PI TWO_PI lc D mu smatrix lambda
  = Fail (OutOfBounds (Z.of_nat NANGLES) NANGLES).
Proof.
  unfold WhittleMattern.
  pose proof (poly_len_zero NANGLES) as Hp.
  destruct (Nat.eq_dec NANGLES 0) as [E|E].
  - rewrite (whittle_fill_out (TWO_PI * lc / lambda) D NANGLES 0 _ Hp) by lia.
    simpl bind. rewrite E. reflexivity.
  - destruct (whittle_fill_in (TWO_PI * lc / lambda) D NANGLES 0 _ Hp)
      as (p' & -> & Hp'); [lia|].
    simpl bind.
    rewrite (whittle_loop_overruns _ _ NANGLES NANGLES 1 p' Hp') by lia.
    reflexivity.
Qed.

Lemma MiePoly_add_in (prob tot : R) (smatrix : list float4) (L i : nat)
  (p : poly_arrays) :
  poly_len L p -> (i < L)%nat -> (i < List.length smatrix)%nat ->
  exists p', MiePoly_add prob tot smatrix i p = Ok p' /\ poly_len L p'.
Proof.
  intros (H1 & H2 & H3 & H4) Hi Hs. unfold MiePoly_add.
  destruct (load_in_bounds smatrix i Hs) as (sm & ->).
  destruct (load_in_bounds (s11_avg p) i) as (a & ->); [lia|].
  destruct (load_in_bounds (s12_avg p) i) as (b & ->); [lia|].
  destruct (load_in_bounds (s33_avg p) i) as (c & ->); [lia|].
  destruct (load_in_bounds (s43_avg p) i) as (d & ->); [lia|].
  simpl. rewrite !store_in_bounds by lia. simpl.
  eexists; split; [reflexivity|].
  unfold poly_len; simpl. rewrite !length_upd. auto.
Qed.

Lemma MiePoly_add_out (prob tot : R) (smatrix : list float4) (L : nat)
  (p : poly_arrays) :
  poly_len L p -> (L <= List.length smatrix)%nat ->
  MiePoly_add prob tot smatrix L p = Fail (OutOfBounds (Z.of_nat L) L).
Proof.
  intros (H1 & H2 & H3 & H4) Hs. unfold MiePoly_add.
  destruct (Nat.eq_dec (List.length smatrix) L) as [E|E].
  - rewrite load_out_of_bounds by lia. rewrite E. reflexivity.
  - destruct (load_in_bounds smatrix L) as (sm & ->); [lia|].
    simpl. rewrite load_out_of_bounds by lia. rewrite H1. reflexivity.
Qed.

Lemma MiePoly_add_loop_overruns (prob tot : R) (smatrix : list float4)
  (L count i : nat) (p : poly_arrays) :
  poly_len L p -> (L <= List.length smatrix)%nat -> (i <= L < i + count)%nat ->
  for_loop count i (MiePoly_add prob tot smatrix) p
  = Fail (OutOfBounds (Z.of_nat L) L).
Proof.
  revert i p. induction count as [|c IH]; intros i p Hp Hs Hi; [lia|].
  rewrite for_loop_S.
  destruct (Nat.eq_dec i L) as [->|Hne].
  - rewrite (MiePoly_add_out prob tot smatrix L p Hp Hs). reflexivity.
  - destruct (MiePoly_add_in prob tot smatrix L i p Hp) as (p' & -> & Hp');
      [lia | lia |].
    simpl. apply IH; [exact Hp' | exact Hs | lia].
Qed.

Lemma rows_ok_length (n : nat) (smatrix : list float4) :
  rows_ok n smatrix -> (n <= List.length smatrix)%nat.
Proof.
  intros H. destruct n as [|n]; [lia|].
  destruct (H n) as (r & Hr & _); [lia|].
  assert (nth_error smatrix n <> None) by congruence.
  apply nth_error_Some in H0. lia.
Qed.

Lemma Mie_rows (fuel : nat) (x mx : R) (mu : list R)
  (smatrix smatrix' : list float4) (qsca g : R) :
  Mie NANGLES fuel x mx mu smatrix = Ok (smatrix', qsca, g) ->
  rows_ok NANGLES smatrix'.
Proof.
  unfold Mie. intros H.
  destruct (Rleb x 0); [discriminate|].
  destruct (Rltb 20000 x); [discriminate|].
  destruct (_ || _).
  - exact (small_Mie_rows _ _ _ _ _ _ _ H).
  - exact (Mie_main_rows _ _ _ _ _ _ _ _ H).
Qed.

(** The first two loops of [MiePoly] end normally; the first radius is
    [mean_radius - 3 st_dev]. *)
Lemma MiePoly_zero_loop :
  exists p,
    for_loop NANGLES 0
      (fun i p =>
         s11' <- store (s11_avg p) i 0 ;;
         s12' <- store (s12_avg p) i 0 ;;
         s33' <- store (s33_avg p) i 0 ;;
         s43' <- store (s43_avg p) i 0 ;;
         Ok {| s11_avg := s11'; s12_avg := s12';
               s33_avg := s33'; s43_avg := s43' |})
      {| s11_avg := repeat 0 NANGLES; s12_avg := repeat 0 NANGLES;
         s33_avg := repeat 0 NANGLES; s43_avg := repeat 0 NANGLES |}
    = Ok p /\ poly_len NANGLES p.
Proof.
  destruct (for_loop_total (fun _ p => poly_len NANGLES p)
              (fun i p =>
                 s11' <- store (s11_avg p) i 0 ;;
                 s12' <- store (s12_avg p) i 0 ;;
                 s33' <- store (s33_avg p) i 0 ;;
                 s43' <- store (s43_avg p) i 0 ;;
                 Ok {| s11_avg := s11'; s12_avg := s12';
                       s33_avg := s33'; s43_avg := s43' |})
              NANGLES 0 _ (poly_len_zero NANGLES)) as (p & Hp & Hl).
  - intros j u Hj (H1 & H2 & H3 & H4).
    rewrite !store_in_bounds by lia. simpl.
    eexists; split; [reflexivity|].
    unfold poly_len; simpl. rewrite !length_upd. auto.
  - exists p. split; assumption.
Qed.

Lemma MiePoly_weights_loop (mean_radius st_dev delta_size : R) :
  exists radii weights tot,
    for_loop NRS 0 (MiePoly_weights ONE_PI mean_radius st_dev delta_size)
      (repeat 0 NRS, repeat 0 NRS, 0)
    = Ok (radii, weights, tot)
    /\ List.length weights = NRS
    /\ nth_error radii 0 = Some (mean_radius - 3 * st_dev + INR 0 * delta_size).
Proof.
  set (first := mean_radius - 3 * st_dev + INR 0 * delta_size).
  destruct (for_loop_total
              (fun i (st : list R * list R * R) =>
                 let '(radii, weights, _) := st in
                 List.length radii = NRS /\ List.length weights = NRS
                 /\ ((0 < i)%nat -> nth_error radii 0 = Some first))
              (MiePoly_weights ONE_PI mean_radius st_dev delta_size)
              NRS 0 (repeat 0 NRS, repeat 0 NRS, 0))
    as ([[radii weights] tot] & Hloop & Hr & Hw & Hf).
  - rewrite !repeat_length. repeat split; lia.
  - intros j [[radii weights] tot] Hj (Hr & Hw & Hf).
    unfold MiePoly_weights.
    rewrite store_in_bounds by lia. simpl.
    destruct (load_in_bounds (upd radii j (mean_radius - 3 * st_dev + INR j * delta_size)) j)
      as (r & ->); [rewrite length_upd; lia|].
    simpl. rewrite store_in_bounds by lia. simpl.
    match goal with
    | |- context [load (upd weights j ?v) j] =>
        destruct (load_in_bounds (upd weights j v) j) as (prob & ->);
          [rewrite length_upd; lia|]
    end.
    simpl bind. eexists; split; [reflexivity|].
    cbv beta iota zeta.
    rewrite !length_upd. repeat split; try assumption.
    intros _. destruct j as [|j].
    + refine (nth_error_upd_eq radii 0 _ _). lia.
    + etransitivity; [refine (nth_error_upd_neq radii (S j) 0 _ _); lia|].
      apply Hf. lia.
  - exists radii, weights, tot. repeat split; try assumption.
    apply Hf. unfold NRS. lia.
Qed.

(** C10: the loop over the angles of [WhittleMattern] and the one of
    [MiePoly] both reach index [NANGLES] of arrays of [NANGLES] elements.
    [WhittleMattern] ends there on every input.  [MiePoly] ends as its
    first call of [Mie] does when that call does not return; when it
    returns, [MiePoly] ends at the access of index [NANGLES]. *)
Theorem angle_loops_reach_NANGLES (fuel : nat) (lc D : R) (x mx : R)
  (mu : list R) (smatrix : list float4) (qsca g : R)
  (mean_radius CV nmed lambda : R) :
  WhittleMattern NANGLES ONE_PI TWO_PI lc D mu smatrix lambda
  = Fail (OutOfBounds (Z.of_nat NANGLES) NANGLES)
  /\ let st_dev := mean_radius * CV in
     let delta_size := 6 * st_dev / 1001 in
     let szx := TWO_PI * (mean_radius - 3 * st_dev + INR 0 * delta_size)
                * nmed / lambda in
     MiePoly NANGLES ONE_PI TWO_PI fuel x mx mu smatrix qsca g
       mean_radius CV nmed lambda
     = match Mie NANGLES fuel szx mx mu smatrix with
       | Ok _ => Fail (OutOfBounds (Z.of_nat NANGLES) NANGLES)
       | Fail f => Fail f
       | Running => Running
       end.
Proof.
  split; [apply WhittleMattern_overruns|].
  intros st_dev delta_size szx. unfold MiePoly.
  destruct MiePoly_zero_loop as (p & -> & Hp). rewrite bind_Ok_l.
  destruct (MiePoly_weights_loop mean_radius st_dev delta_size)
    as (radii & weights & tot & Hw & Hlw & Hfirst).
  fold st_dev. fold delta_size. rewrite Hw, bind_Ok_l. cbv beta iota.
  unfold NRS at 1. rewrite for_loop_S.
  unfold MiePoly_radius at 1.
  rewrite (proj2 (load_Ok radii 0 _) Hfirst), bind_Ok_l.
  fold szx.
  destruct (Mie NANGLES fuel szx mx mu smatrix) as [[[sm q] g']|f|] eqn:EM;
    [|reflexivity|reflexivity].
  rewrite bind_Ok_l. cbv beta iota.
  destruct (load_in_bounds weights 0) as (prob & ->); [rewrite Hlw; unfold NRS; lia|].
  rewrite bind_Ok_l.
  rewrite (MiePoly_add_loop_overruns prob tot sm NANGLES (NANGLES + 1) 0 p Hp).
  - reflexivity.
  - apply rows_ok_length. exact (Mie_rows _ _ _ _ _ _ _ _ EM).
  - lia.
Qed.

(** *** The anisotropy of lines 312-329 *)

Lemma load_nth {A} (l : list A) (i : nat) (d : A) :
  (i < List.length l)%nat -> load l i = Ok (nth i l d).
Proof.
  intros H. apply load_Ok. apply nth_error_nth'. exact H.
Qed.

(** What the last loop computes: the numerator takes the first interval
    as [|mu_0 - 1|], the denominator as the signed [mu_0 - 1]. *)
Lemma anisotropy_closed_form (mu s11 s12 s33 s43 : list R) (smatrix : list float4) :
  (NANGLES <= List.length mu)%nat ->
  (NANGLES <= List.length s11)%nat -> (NANGLES <= List.length s12)%nat ->
  (NANGLES <= List.length s33)%nat -> (NANGLES <= List.length s43)%nat ->
  (NANGLES <= List.length smatrix)%nat ->
  exists smatrix',
    anisotropy NANGLES mu s11 s12 s33 s43 smatrix
    = Ok (smatrix',
          sum_upto NANGLES (fun k => nth k mu 0 * spec_weight false mu s11 k)
          / sum_upto NANGLES (spec_weight true mu s11))
    /\ forall k, (k < NANGLES)%nat ->
         nth_error smatrix' k
         = Some (make_float4 (nth k s11 0) (nth k s12 0) (nth k s33 0) (nth k s43 0)).
Proof.
  intros Hmu H11 H12 H33 H43 Hsm. unfold anisotropy.
  set (row := fun k => make_float4 (nth k s11 0) (nth k s12 0) (nth k s33 0) (nth k s43 0)).
  destruct (for_loop_total
              (fun i (st : list float4 * R * R) =>
                 let '(sm, temp, temp2) := st in
                 List.length sm = List.length smatrix
                 /\ (forall k, (k < i)%nat -> nth_error sm k = Some (row k))
                 /\ temp = sum_upto i (fun k => nth k mu 0 * spec_weight false mu s11 k)
                 /\ temp2 = sum_upto i (spec_weight true mu s11))
              (anisotropy_step mu s11 s12 s33 s43) NANGLES 0 (smatrix, 0, 0))
    as ([[sm temp] temp2] & Hloop & Hlen & Hrows & Ht & Ht2).
  - repeat split; intros; lia.
  - intros j [[sm temp] temp2] Hj (Hlen & Hrows & Ht & Ht2).
    unfold anisotropy_step.
    rewrite (load_nth s11 j 0), (load_nth s12 j 0), (load_nth s33 j 0),
      (load_nth s43 j 0) by lia.
    rewrite !bind_Ok_l. rewrite store_in_bounds by lia. rewrite bind_Ok_l.
    fold (row j).
    assert (Hupd : forall k, (k < S j)%nat ->
                             nth_error (upd sm j (row j)) k = Some (row k)).
    { intros k Hk. destruct (Nat.eq_dec k j) as [->|Hne].
      - apply nth_error_upd_eq. lia.
      - rewrite nth_error_upd_neq by exact Hne. apply Hrows. lia. }
    destruct j as [|j].
    + change (0 =? 0)%nat with true. cbv iota.
      rewrite (load_nth mu 0 0) by lia. rewrite bind_Ok_l.
      rewrite (proj2 (load_Ok _ 0 _) (Hupd 0%nat (Nat.lt_0_succ 0))), bind_Ok_l.
      eexists; split; [reflexivity|]. cbv beta iota zeta.
      rewrite length_upd. repeat split; try assumption.
      * rewrite Ht. simpl. unfold spec_weight, spec_interval. simpl. ring.
      * rewrite Ht2. simpl. unfold spec_weight, spec_interval. simpl. ring.
    + change (S j =? 0)%nat with false. cbv iota.
      rewrite (load_nth mu (S j) 0) by lia. rewrite bind_Ok_l.
      rewrite (proj2 (load_Ok _ (S j) _) (Hupd (S j) (Nat.lt_succ_diag_r (S j)))),
        bind_Ok_l.
      replace (S j - 1)%nat with j by lia.
      rewrite (proj2 (load_Ok _ j _) (Hupd j ltac:(lia))), bind_Ok_l.
      rewrite (load_nth mu j 0) by lia. rewrite bind_Ok_l.
      eexists; split; [reflexivity|]. cbv beta iota zeta.
      rewrite length_upd. repeat split; try assumption.
      * rewrite Ht. change (sum_upto (S (S j)) ?f) with (sum_upto (S j) f + f (S j)).
        f_equal. unfold spec_weight, spec_interval, row; simpl x4.
        unfold Rdiv; ring.
      * rewrite Ht2. change (sum_upto (S (S j)) ?f) with (sum_upto (S j) f + f (S j)).
        f_equal. unfold spec_weight, spec_interval, row; simpl x4.
        unfold Rdiv; ring.
  - rewrite Hloop, bind_Ok_l. cbv beta iota. rewrite Nat.add_0_l in *.
    exists sm. split; [rewrite Ht, Ht2; reflexivity | exact Hrows].
Qed.

(** *** [Mie] returns on every valid input *)

Lemma small_Mie_total (x mx : R) (mu : list R) (smatrix : list float4) :
  (NANGLES <= List.length mu)%nat -> (NANGLES <= List.length smatrix)%nat ->
  exists r, small_Mie NANGLES x mx mu smatrix = Ok r.
Proof.
  intros Hmu Hsm. unfold small_Mie.
  match goal with
  | |- context [for_loop NANGLES 0 ?body smatrix] =>
      destruct (for_loop_total
                  (fun _ sm => List.length sm = List.length smatrix)
                  body NANGLES 0 smatrix eq_refl) as (sm & -> & _)
  end.
  - intros j u Hj Hu. cbv beta.
    destruct (load_in_bounds mu j) as (muj & ->); [lia|].
    rewrite bind_Ok_l, store_in_bounds by lia.
    eexists; split; [reflexivity|]. rewrite length_upd. exact Hu.
  - rewrite bind_Ok_l. eauto.
Qed.

Ltac run_ok :=
  repeat (first [ rewrite bind_Ok_l
                | rewrite store_in_bounds by (rewrite ?length_upd; lia) ];
          cbv beta).

Ltac load_ok l k :=
  let v := fresh "v" in
  destruct (load_in_bounds l k) as (v & ->); [rewrite ?length_upd; lia|]; run_ok.

Lemma mie_angle_sum_total (n : nat) (an bn : Dcomplex) (mu : list R)
  (L k : nat) (a : mie_arrays) :
  arrays_len L a -> (L <= List.length mu)%nat -> (k < L)%nat ->
  exists a', mie_angle_sum n an bn mu k a = Ok a' /\ arrays_len L a'.
Proof.
  intros (H1 & H2 & H3 & H4 & H5) Hmu Hk. unfold mie_angle_sum.
  load_ok mu k. load_ok (pi1 a) k. load_ok (pi0 a) k.
  match goal with
  | |- context [load (upd (tau a) k ?v) k] => load_ok (upd (tau a) k v) k
  end.
  load_ok (s1 a) k. load_ok (s2 a) k.
  eexists; split; [reflexivity|].
  unfold arrays_len; cbn [s1 s2 pi0 pi1 tau]. rewrite !length_upd. auto.
Qed.

Lemma mie_legendre_total (n : nat) (mu : list R) (L k : nat) (a : mie_arrays) :
  arrays_len L a -> (L <= List.length mu)%nat -> (k < L)%nat ->
  exists a', mie_legendre n mu k a = Ok a' /\ arrays_len L a'.
Proof.
  intros (H1 & H2 & H3 & H4 & H5) Hmu Hk. unfold mie_legendre.
  load_ok (pi1 a) k. load_ok mu k. load_ok (pi0 a) k.
  eexists; split; [reflexivity|].
  unfold arrays_len; cbn [s1 s2 pi0 pi1 tau]. rewrite !length_upd. auto.
Qed.

Lemma mie_order_total (mx x : R) (D : option (list Dcomplex)) (mu : list R)
  (n : nat) (a : mie_arrays) (sc : mie_scalars) :
  arrays_len NANGLES a -> (NANGLES <= List.length mu)%nat ->
  (0 < mx -> exists D', D = Some D' /\ (n < List.length D')%nat) ->
  0 <= mx ->
  exists a' sc', mie_order NANGLES (make_Dcomplex mx 0) x D mu n (a, sc) = Ok (a', sc')
                 /\ arrays_len NANGLES a'.
Proof.
  intros Ha Hmu HD Hmx. unfold mie_order.
  assert (Hc : exists c, mie_coefficients (make_Dcomplex mx 0) x D n sc = Ok c).
  { unfold mie_coefficients; cbn [creal cimag].
    destruct (Req_dec_T mx 0) as [E|E]; [eauto|].
    destruct (Req_dec_T 0 0) as [_|F]; [|congruence].
    destruct HD as (D' & -> & Hn); [lra|].
    unfold load_D. destruct (load_in_bounds D' n Hn) as (Dn & ->).
    rewrite bind_Ok_l. eauto. }
  destruct Hc as ([[an bn] z1'] & ->). rewrite bind_Ok_l. cbv beta iota.
  destruct (for_loop_total (fun _ a => arrays_len NANGLES a)
              (mie_angle_sum n an bn mu) NANGLES 0 a Ha) as (a1 & -> & Ha1).
  { intros j u Hj Hu. apply mie_angle_sum_total; [exact Hu | exact Hmu | lia]. }
  rewrite bind_Ok_l.
  destruct (for_loop_total (fun _ a => arrays_len NANGLES a)
              (mie_legendre n mu) NANGLES 0 a1 Ha1) as (a2 & -> & Ha2).
  { intros j u Hj Hu. apply mie_legendre_total; [exact Hu | exact Hmu | lia]. }
  rewrite bind_Ok_l. eauto.
Qed.

Lemma Dn_up_total (z : Dcomplex) (nstop : Z) (D : list Dcomplex) :
  (0 <= nstop)%Z -> List.length D = Z.to_nat (nstop + 1) ->
  exists D', Dn_up z nstop D = Ok D' /\ List.length D' = List.length D.
Proof.
  intros Hn HD. unfold Dn_up.
  assert (HL : (Z.to_nat (nstop - 1) + 1 < List.length D \/ nstop = 0%Z)%nat) by lia.
  rewrite store_in_bounds by lia. rewrite bind_Ok_l.
  match goal with
  | |- context [for_loop ?c 1 ?body ?D0] =>
      destruct (for_loop_total
                  (fun _ d => List.length d = List.length D)
                  body c 1 D0) as (D' & -> & HD')
  end.
  - apply length_upd.
  - intros j u Hj Hu. cbv beta.
    destruct (load_in_bounds u (j - 1)) as (d & ->); [lia|].
    rewrite bind_Ok_l, store_in_bounds by lia.
    eexists; split; [reflexivity|]. rewrite length_upd. exact Hu.
  - eauto.
Qed.

Lemma nstop_lower (x : R) : 0 < x -> (2 <= Zfloor (x + 4.05 * Rpower x 0.33333 + 2))%Z.
Proof.
  intros Hx. apply Zfloor_lub.
  assert (0 < Rpower x 0.33333) by (unfold Rpower; apply exp_pos).
  lra.
Qed.

Lemma Mie_main_total (fuel : nat) (x mx : R) (mu : list R) (smatrix : list float4) :
  0 < x -> 0 <= mx ->
  (NANGLES <= List.length mu)%nat -> (NANGLES <= List.length smatrix)%nat ->
  exists r, Mie_main NANGLES fuel x mx mu smatrix = Ok r.
Proof.
  intros Hx Hmx Hmu Hsm. unfold Mie_main. cbn [creal cimag s1 s2 pi0 pi1 tau].
  pose proof (nstop_lower x Hx) as Hn.
  set (nstop := Zfloor (x + 4.05 * Rpower x 0.33333 + 2)) in *.
  destruct (for_loop_total (fun _ (p : list R) => List.length p = NANGLES)
              (fun i p => store p i 1) NANGLES 0 (repeat 0 NANGLES))
    as (p1 & -> & Hp1).
  { apply repeat_length. }
  { intros j u Hj Hu. rewrite store_in_bounds by lia.
    eexists; split; [reflexivity|]. rewrite length_upd. exact Hu. }
  rewrite bind_Ok_l.
  assert (HD : exists D,
             (if Rltb 0 mx
              then D <- (if Rltb (Rabs (0 * x)) ((13.78 * mx - 10.8) * mx + 3.9)
                         then Dn_up (Cscale x (make_Dcomplex mx 0)) nstop
                                (repeat (RtoC 0) (Z.to_nat (nstop + 1)))
                         else Dn_down fuel (Cscale x (make_Dcomplex mx 0)) nstop
                                (repeat (RtoC 0) (Z.to_nat (nstop + 1)))) ;;
                   Ok (Some D)
              else Ok None) = Ok D
             /\ (0 < mx -> exists D', D = Some D'
                                      /\ List.length D' = Z.to_nat (nstop + 1))).
  { destruct (Rlt_dec 0 mx) as [Hpos|Hzero].
    - rewrite (proj2 (Rltb_true 0 mx) Hpos).
      assert (Hthr : Rabs (0 * x) < (13.78 * mx - 10.8) * mx + 3.9).
      { rewrite Rmult_0_l, Rabs_R0.
        assert (0 <= (13.78 * mx - 5.4) * (13.78 * mx - 5.4)) by apply Rle_0_sqr.
        nra. }
      rewrite (proj2 (Rltb_true _ _) Hthr).
      destruct (Dn_up_total (Cscale x (make_Dcomplex mx 0)) nstop
                  (repeat (RtoC 0) (Z.to_nat (nstop + 1))))
        as (D' & -> & HD'); [lia | apply repeat_length |].
      rewrite bind_Ok_l. exists (Some D'). split; [reflexivity|].
      intros _. exists D'. split; [reflexivity|].
      rewrite HD'. apply repeat_length.
    - rewrite (proj2 (Rltb_false 0 mx)) by lra.
      exists None. split; [reflexivity | intros; lra]. }
  destruct HD as (D & -> & HD). rewrite bind_Ok_l.
  match goal with
  | |- context [for_loop (Z.to_nat nstop) 1 ?body (?a0, ?sc0)] =>
      destruct (for_loop_total
                  (fun _ (st : mie_arrays * mie_scalars) => arrays_len NANGLES (fst st))
                  body (Z.to_nat nstop) 1 (a0, sc0)) as ([a sc] & -> & Ha)
  end.
  { unfold arrays_len; cbn [fst s1 s2 pi0 pi1 tau]. rewrite !repeat_length. auto. }
  { intros j [u sc] Hj Hu. cbn [fst] in Hu.
    destruct (mie_order_total mx x D mu j u sc Hu Hmu) as (a' & sc' & -> & Ha');
      [|exact Hmx|].
    - intros Hpos. destruct (HD Hpos) as (D' & -> & HL).
      exists D'. split; [reflexivity|]. lia.
    - exists (a', sc'). split; [reflexivity | exact Ha']. }
  rewrite bind_Ok_l. cbv beta iota.
  destruct Ha as (H1 & H2 & _). cbn [fst] in H1, H2.
  match goal with
  | |- context [for_loop NANGLES 0 ?body smatrix] =>
      destruct (for_loop_total
                  (fun _ sm => List.length sm = List.length smatrix)
                  body NANGLES 0 smatrix eq_refl) as (sm & -> & _)
  end.
  { intros j u Hj Hu. cbv beta.
    destruct (load_in_bounds (s1 a) j) as (v1 & ->); [lia|]. rewrite bind_Ok_l.
    destruct (load_in_bounds (s2 a) j) as (v2 & ->); [lia|]. rewrite bind_Ok_l.
    rewrite store_in_bounds by lia.
    eexists; split; [reflexivity|]. rewrite length_upd. exact Hu. }
  rewrite bind_Ok_l. eauto.
Qed.

(** [Mie] returns on every input with [0 < x <= 20000], a non-negative
    index and arrays of at least [NANGLES] elements, whatever the fuel:
    with a real index the downward recurrence and [Lentz_Dn] are never
    reached. *)
Lemma Mie_total (fuel : nat) (x mx : R) (mu : list R) (smatrix : list float4) :
  0 < x <= 20000 -> 0 <= mx ->
  (NANGLES <= List.length mu)%nat -> (NANGLES <= List.length smatrix)%nat ->
  exists smatrix' qsca g, Mie NANGLES fuel x mx mu smatrix = Ok (smatrix', qsca, g).
Proof.
  intros [Hlo Hhi] Hmx Hmu Hsm. unfold Mie.
  rewrite (proj2 (Rleb_false x 0) Hlo), (proj2 (Rltb_false 20000 x) Hhi).
  destruct (_ || _).
  - destruct (small_Mie_total x mx mu smatrix Hmu Hsm) as ([[sm q] g] & ->). eauto.
  - destruct (Mie_main_total fuel x mx mu smatrix Hlo Hmx Hmu Hsm)
      as ([[sm q] g] & ->). eauto.
Qed.

End WithConstants.

End MieFacts.

(** ** [Lentz_Dn] *)

Module LentzFacts.
Import Mie.

(** *** Real arguments *)

Lemma Cdiv_real (a b : R) : b <> 0 -> Cdiv (RtoC a) (RtoC b) = RtoC (a / b).
Proof. intros Hb. unfold Cdiv, RtoC; simpl. f_equal; field; exact Hb. Qed.

Lemma Cadd_real (a b : R) : Cadd (RtoC a) (RtoC b) = RtoC (a + b).
Proof. unfold Cadd, RtoC; simpl. f_equal; ring. Qed.

Lemma Csub_real (a b : R) : Csub (RtoC a) (RtoC b) = RtoC (a - b).
Proof. unfold Csub, RtoC; simpl. f_equal; ring. Qed.

Lemma Cscale_real (a b : R) : Cscale a (RtoC b) = RtoC (a * b).
Proof. unfold Cscale, RtoC; simpl. f_equal; ring. Qed.

Lemma cabs_real (r : R) : cabs (RtoC r) = Rabs r.
Proof.
  unfold cabs, RtoC; simpl.
  replace (r * r + 0 * 0) with (Rsqr r) by (unfold Rsqr; ring).
  apply sqrt_Rsqr_abs.
Qed.

Lemma inv_le_of (a b : R) : 0 < a -> 1 / a <= b -> 1 / b <= a.
Proof.
  intros Ha H.
  assert (0 < 1 / a) by (apply Rdiv_lt_0_compat; lra).
  assert (0 < b) by lra.
  apply (Rmult_le_reg_r b); [lra|].
  replace (1 / b * b) with 1 by (field; lra).
  apply (Rmult_le_reg_r (1 / a)); [lra|].
  replace (a * b * (1 / a)) with b by (field; lra). lra.
Qed.

(** One pass on the moduli: the small one becomes large and the large one
    small, within the next bounds. *)
Lemma osc_step (k e S L : R) :
  0 <= k -> 0 < e -> (k + 3) ^ 4 * e ^ 2 <= 1 / 2 ->
  0 < S <= (k + 2) ^ 2 * e -> 1 / ((k + 2) ^ 2 * e) <= L ->
  let c := (k + 2.5) * e in
  (0 < 1 / L + c <= (k + 3) ^ 2 * e)
  /\ 1 / ((k + 3) ^ 2 * e) <= 1 / S - c.
Proof.
  intros Hk He Hb [HS0 HS] HL c.
  assert (Hq : 0 < (k + 2) ^ 2 * e) by (apply Rmult_lt_0_compat; nra).
  assert (Hq' : 0 < (k + 3) ^ 2 * e) by (apply Rmult_lt_0_compat; nra).
  assert (HL0 : 0 < L).
  { assert (0 < 1 / ((k + 2) ^ 2 * e)) by (apply Rdiv_lt_0_compat; lra). lra. }
  assert (HiL : 1 / L <= (k + 2) ^ 2 * e) by (apply inv_le_of; assumption).
  assert (HiL0 : 0 < 1 / L) by (apply Rdiv_lt_0_compat; lra).
  assert (Hc : 0 < c) by (unfold c; nra).
  split.
  - split; [lra|]. unfold c. nra.
  - assert (HiS : 1 / ((k + 2) ^ 2 * e) <= 1 / S).
    { unfold Rdiv. rewrite !Rmult_1_l. apply Rinv_le_contravar; lra. }
    assert (Hd : 1 / ((k + 3) ^ 2 * e) + c <= 1 / ((k + 2) ^ 2 * e)).
    { apply (Rmult_le_reg_r ((k + 2) ^ 2 * e * ((k + 3) ^ 2 * e))).
      - apply Rmult_lt_0_compat; lra.
      - replace ((1 / ((k + 3) ^ 2 * e) + c) * ((k + 2) ^ 2 * e * ((k + 3) ^ 2 * e)))
          with ((k + 2) ^ 2 * e + c * ((k + 2) ^ 2 * e * ((k + 3) ^ 2 * e)))
          by (field; nra).
        replace (1 / ((k + 2) ^ 2 * e) * ((k + 2) ^ 2 * e * ((k + 3) ^ 2 * e)))
          with ((k + 3) ^ 2 * e) by (field; nra).
        unfold c.
        assert (Hqq : (k + 2) ^ 2 * (k + 3) ^ 2 * e ^ 2 <= 1 / 2).
        { assert ((k + 2) ^ 2 <= (k + 3) ^ 2) by nra.
          assert (0 <= (k + 3) ^ 2 * e ^ 2) by nra.
          nra. }
        set (t := (k + 2) ^ 2 * (k + 3) ^ 2 * e ^ 2) in *.
        assert (H1 : (k + 2.5) * e * t <= (k + 2.5) * e * (1 / 2))
          by (apply Rmult_le_compat_l; nra).
        replace ((k + 2) ^ 2 * e + (k + 2.5) * e * ((k + 2) ^ 2 * e * ((k + 3) ^ 2 * e)))
          with ((k + 2) ^ 2 * e + (k + 2.5) * e * t) by (unfold t; ring).
        replace ((k + 3) ^ 2 * e) with ((k + 2) ^ 2 * e + (2 * k + 5) * e) by ring.
        assert (0 <= k * e) by nra.
        lra. }
    lra.
Qed.

(** The quotient of a small by a large modulus is far from 1. *)
Lemma osc_ratio (q e S L : R) :
  0 < e -> 0 < q -> q ^ 2 * e ^ 2 <= 1 / 2 ->
  0 < S <= q * e -> 1 / (q * e) <= L ->
  S / L <= 1 / 2 /\ 2 <= L / S.
Proof.
  intros He Hq Hb [HS0 HS] HL.
  assert (Hqe : 0 < q * e) by (apply Rmult_lt_0_compat; lra).
  assert (HL0 : 0 < L).
  { assert (0 < 1 / (q * e)) by (apply Rdiv_lt_0_compat; lra). lra. }
  assert (HiL : 1 / L <= q * e) by (apply inv_le_of; assumption).
  assert (HiL0 : 0 < 1 / L) by (apply Rdiv_lt_0_compat; lra).
  assert (Hsl : S * (1 / L) <= q * e * (q * e)) by (apply Rmult_le_compat; lra).
  assert (Hle : S / L <= 1 / 2).
  { replace (S / L) with (S * (1 / L)) by (field; lra). nra. }
  split; [exact Hle|].
  apply (Rmult_le_reg_r (S / L)); [apply Rdiv_lt_0_compat; lra|].
  replace (L / S * (S / L)) with 1 by (field; lra). lra.
Qed.

Lemma oscillating_step (eps : R) (k : nat) (s : lentz_state) :
  0 < eps -> (INR k + 3) ^ 4 * eps ^ 2 <= 1 / 2 ->
  oscillating eps k s ->
  oscillating eps (S k) (lentz_body s) /\ lentz_continue (lentz_body s) = true.
Proof.
  intros He Hb (S0 & L0 & HS & HL & H1 & H2 & Haj & Hz).
  pose proof (pos_INR k) as Hk.
  destruct (osc_step (INR k) eps S0 L0 Hk He Hb HS HL) as [[Hs1 Hs2] Hl].
  set (c := (INR k + 2.5) * eps) in *.
  assert (Hq : 0 < (INR k + 2) ^ 2 * eps) by (apply Rmult_lt_0_compat; nra).
  assert (Hq' : 0 < (INR k + 3) ^ 2 * eps) by (apply Rmult_lt_0_compat; nra).
  assert (HL0 : 0 < L0).
  { assert (0 < 1 / ((INR k + 2) ^ 2 * eps)) by (apply Rdiv_lt_0_compat; lra). lra. }
  assert (Hl0 : 0 < 1 / S0 - c).
  { assert (0 < 1 / ((INR k + 3) ^ 2 * eps)) by (apply Rdiv_lt_0_compat; lra). lra. }
  assert (Hb2 : ((INR k + 3) ^ 2) ^ 2 * eps ^ 2 <= 1 / 2).
  { replace (((INR k + 3) ^ 2) ^ 2) with ((INR k + 3) ^ 4) by ring. exact Hb. }
  destruct (osc_ratio ((INR k + 3) ^ 2) eps (1 / L0 + c) (1 / S0 - c))
    as [Hr1 Hr2]; try assumption; [nra | split; assumption |].
  assert (E1 : INR (S k) + 2 = INR k + 3) by (rewrite S_INR; lra).
  assert (E2 : INR (S k) + 1.5 = INR k + 2.5) by (rewrite S_INR; lra).
  unfold oscillating, lentz_continue, lentz_body; cbn [alpha_j1 alpha_j2 aj zinv ratio].
  rewrite H1, H2, Haj, Hz, E1, E2, Nat.even_succ, <- Nat.negb_even.
  unfold RdivC.
  remember (1 / L0 + c) as A eqn:EA.
  remember (1 / S0 - c) as B eqn:EB.
  assert (HAB : 0 < A / B) by (apply Rdiv_lt_0_compat; lra).
  assert (HBA : 0 < B / A) by (apply Rdiv_lt_0_compat; lra).
  destruct (Nat.even k); cbn [negb].
  - rewrite (Cdiv_real 1 L0), (Cdiv_real 1 (- S0)) by lra.
    rewrite !Csub_real, !Cadd_real, !Cscale_real.
    replace (1 * eps - -1 * (INR k + 1.5) * eps) with c by (unfold c; lra).
    replace (1 / - S0 + c) with (- B) by (subst B; field; lra).
    rewrite <- EA.
    rewrite Cdiv_real by lra.
    split.
    + exists A, B.
      repeat split; try assumption; try lra; try (f_equal; unfold c; lra).
    + rewrite cabs_real. apply Rltb_true.
      replace (A / - B) with (- (A / B)) by (field; lra).
      rewrite Rabs_Ropp, (Rabs_pos_eq (A / B)) by lra.
      rewrite Rabs_left by lra. lra.
  - rewrite (Cdiv_real 1 S0), (Cdiv_real 1 (- L0)) by lra.
    rewrite !Csub_real, !Cadd_real, !Cscale_real.
    replace (-1 * eps - 1 * (INR k + 1.5) * eps) with (- c) by (unfold c; lra).
    replace (1 / S0 + - c) with B by (subst B; ring).
    replace (1 / - L0 + - c) with (- A) by (subst A; field; lra).
    rewrite Cdiv_real by lra.
    split.
    + exists A, B.
      repeat split; try assumption; try lra; try (f_equal; unfold c; lra).
    + rewrite cabs_real. apply Rltb_true.
      replace (B / - A) with (- (B / A)) by (field; lra).
      rewrite Rabs_Ropp, (Rabs_pos_eq (B / A)) by lra.
      rewrite Rabs_pos_eq by lra. lra.
Qed.

Lemma oscillating_init (zr : R) :
  2 <= zr ->
  oscillating (2 / zr) 0 (lentz_init (RtoC zr) 0).
Proof.
  intros Hz.
  assert (He : 0 < 2 / zr) by (apply Rdiv_lt_0_compat; lra).
  assert (He1 : 2 / zr <= 1).
  { apply (Rmult_le_reg_r zr); [lra|].
    replace (2 / zr * zr) with 2 by (field; lra). lra. }
  unfold oscillating, lentz_init; cbn [alpha_j1 alpha_j2 aj zinv Nat.even INR].
  unfold RdivC. rewrite (Cdiv_real 2 zr) by lra.
  remember (2 / zr) as eps eqn:Eeps.
  rewrite !Cscale_real.
  rewrite (Cdiv_real 1 ((0 + 0.5) * eps)) by lra.
  rewrite Cadd_real.
  assert (Hinv : 1 <= / eps).
  { apply (Rmult_le_reg_r eps); [lra|]. rewrite Rinv_l by lra. lra. }
  assert (Hi : 1 / ((0 + 0.5) * eps) = 2 * / eps).
  { replace ((0 + 0.5) * eps) with (eps / 2) by lra. field; lra. }
  assert (Hq : 1 / ((0 + 2) ^ 2 * eps) = (1 / 4) * / eps) by (field; lra).
  exists (1.5 * eps), ((- 0 - 1.5) * eps + 1 / ((0 + 0.5) * eps)).
  repeat split.
  - lra.
  - lra.
  - rewrite Hi, Hq. lra.
  - f_equal. lra.
  - f_equal. lra.
  - f_equal. lra.
Qed.

(** The loop of [Lentz_Dn] and the states [lentz_after]. *)
Lemma lentz_loop_running (fuel : nat) (s : lentz_state) :
  (forall j, (j < fuel)%nat ->
             lentz_continue (Nat.iter (S j) lentz_body s) = true) ->
  lentz_loop fuel s = Running.
Proof.
  revert s. induction fuel as [|f IH]; intros s H; [reflexivity|].
  simpl lentz_loop.
  assert (H0 : lentz_continue (lentz_body s) = true) by (apply (H 0%nat); lia).
  rewrite H0.
  apply IH. intros j Hj. specialize (H (S j)).
  rewrite <- Nat.iter_succ_r. apply H. lia.
Qed.

Lemma lentz_loop_stops (k fuel : nat) (s : lentz_state) :
  (forall j, (j < k)%nat ->
             lentz_continue (Nat.iter (S j) lentz_body s) = true) ->
  lentz_continue (Nat.iter (S k) lentz_body s) = false ->
  (k < fuel)%nat ->
  lentz_loop fuel s = Ok (Nat.iter (S k) lentz_body s).
Proof.
  revert k s. induction fuel as [|f IH]; intros k s H Hstop Hk; [lia|].
  simpl lentz_loop. destruct k as [|k].
  - simpl in Hstop. rewrite Hstop. reflexivity.
  - assert (H0 : lentz_continue (lentz_body s) = true) by (apply (H 0%nat); lia).
    rewrite H0.
    rewrite (Nat.iter_succ_r (S k)).
    apply IH; [|rewrite <- Nat.iter_succ_r; exact Hstop | lia].
    intros j Hj. rewrite <- Nat.iter_succ_r. apply H. lia.
Qed.

Lemma oscillating_after (zr : R) (N k : nat) :
  2 <= zr -> (INR N + 2) ^ 4 * (2 / zr) ^ 2 <= 1 / 2 -> (k <= N)%nat ->
  oscillating (2 / zr) k (lentz_after (RtoC zr) 0 k)
  /\ ((0 < k)%nat -> lentz_continue (lentz_after (RtoC zr) 0 k) = true).
Proof.
  intros Hz Hb. induction k as [|k IH]; intros Hk.
  - split; [apply oscillating_init; exact Hz | lia].
  - destruct IH as [IH _]; [lia|].
    assert (He : 0 < 2 / zr) by (apply Rdiv_lt_0_compat; lra).
    assert (Hb' : (INR k + 3) ^ 4 * (2 / zr) ^ 2 <= 1 / 2).
    { assert (INR k + 3 <= INR N + 2).
      { apply le_INR in Hk. rewrite S_INR in Hk. lra. }
      pose proof (pos_INR k).
      assert ((INR k + 3) ^ 2 <= (INR N + 2) ^ 2) by nra.
      assert ((INR k + 3) ^ 4 <= (INR N + 2) ^ 4).
      { replace ((INR k + 3) ^ 4) with (((INR k + 3) ^ 2) ^ 2) by ring.
        replace ((INR N + 2) ^ 4) with (((INR N + 2) ^ 2) ^ 2) by ring.
        assert (0 <= (INR k + 3) ^ 2) by nra. nra. }
      assert (0 <= (2 / zr) ^ 2) by nra.
      nra. }
    destruct (oscillating_step (2 / zr) k _ He Hb' IH) as [A B].
    split; [exact A | intros _; exact B].
Qed.

(** For every number of passes [N] there are arguments on which the loop
    is still running after [N] passes. *)
Lemma Lentz_Dn_runs_long (zr : R) (N : nat) :
  2 <= zr -> (INR N + 2) ^ 4 * (2 / zr) ^ 2 <= 1 / 2 ->
  Lentz_Dn N (RtoC zr) 0 = Running.
Proof.
  intros Hz Hb. unfold Lentz_Dn.
  rewrite lentz_loop_running; [reflexivity|].
  intros j Hj.
  destruct (oscillating_after zr N (S j) Hz Hb) as [_ H]; [lia|].
  apply H. lia.
Qed.

(** No pass count stops the loop: after [N] passes at
    [z = 4 (N + 2)^2], [n = 0], it is still running. *)
Lemma Lentz_Dn_has_no_cap (N : nat) :
  Lentz_Dn N (RtoC (4 * (INR N + 2) ^ 2)) 0 = Running.
Proof.
  pose proof (pos_INR N) as HN.
  apply Lentz_Dn_runs_long; [nra|].
  assert (Hp : 0 < (INR N + 2) ^ 2) by nra.
  replace ((INR N + 2) ^ 4 * (2 / (4 * (INR N + 2) ^ 2)) ^ 2) with (1 / 4).
  - lra.
  - field. lra.
Qed.

(** The ratio after the first pass, for a real [z] with [z^2 > 15] and
    [n = 0]: it is negative, of modulus [3(6z^2 - 15)/((z^2-3)(z^2-15))]. *)
Lemma first_pass_ratio (zr : R) :
  0 < zr -> 15 < zr * zr ->
  ratio (lentz_after (RtoC zr) 0 1)
  = RtoC (- (3 * (6 * (zr * zr) - 15) / ((zr * zr - 3) * (zr * zr - 15)))).
Proof.
  intros Hz Hz2.
  change (lentz_after (RtoC zr) 0 1) with (lentz_body (lentz_init (RtoC zr) 0)).
  unfold lentz_body, lentz_init; cbn [alpha_j1 alpha_j2 aj zinv ratio].
  unfold RdivC. rewrite (Cdiv_real 2 zr) by lra.
  rewrite !Cscale_real.
  assert (Ealpha : (0 + 0.5) * (2 / zr) = 1 / zr) by lra.
  assert (Eaj : (- 0 - 1.5) * (2 / zr) = - (3 / zr)) by lra.
  rewrite Ealpha, Eaj.
  assert (Hiz : 0 < 1 / zr) by (apply Rdiv_lt_0_compat; lra).
  assert (H3z : 0 < 3 / zr) by (apply Rdiv_lt_0_compat; lra).
  rewrite (Cdiv_real 1 (1 / zr)) by lra.
  rewrite Cadd_real, Csub_real.
  assert (Ea1 : - (3 / zr) + 1 / (1 / zr) = (zr * zr - 3) / zr) by (field; lra).
  assert (Ec : 2 / zr - - (3 / zr) = 5 / zr) by (field; lra).
  rewrite Ea1, Ec.
  assert (Ha1 : 0 < (zr * zr - 3) / zr) by (apply Rdiv_lt_0_compat; lra).
  rewrite (Cdiv_real 1 ((zr * zr - 3) / zr)), (Cdiv_real 1 (- (3 / zr))) by lra.
  rewrite !Cadd_real.
  assert (Ea1' : 1 / ((zr * zr - 3) / zr) + 5 / zr
                 = (6 * (zr * zr) - 15) / (zr * (zr * zr - 3)))
    by (field; lra).
  assert (Ea2' : 1 / - (3 / zr) + 5 / zr = - ((zr * zr - 15) / (3 * zr)))
    by (field; lra).
  rewrite Ea1', Ea2'.
  assert (Ha2' : 0 < (zr * zr - 15) / (3 * zr)) by (apply Rdiv_lt_0_compat; lra).
  rewrite Cdiv_real by lra.
  f_equal. field. repeat split; lra.
Qed.

(** C8 (as amended): [Lentz_Dn] never fails; it returns
    [-n/z + runratio] after the first pass [k+1] at which
    [| |ratio| - 1 | <= 1e-12], whatever fuel beyond [k] it is given; and as
    long as no pass meets the test it is still running: no pass count
    stops it. *)
Theorem Lentz_Dn_stops_by_test_only (z : Dcomplex) (n : Z) :
  (forall fuel f, Lentz_Dn fuel z n <> Fail f)
  /\ (forall s, lentz_continue s = false <-> Rabs (cabs (ratio s) - 1) <= 1e-12)
  /\ (forall k,
        (forall j, (j < k)%nat -> lentz_continue (lentz_after z n (S j)) = true) ->
        lentz_continue (lentz_after z n (S k)) = false ->
        forall fuel, (k < fuel)%nat ->
          Lentz_Dn fuel z n
          = Ok (Cadd (RdivC (- IZR n) z) (runratio (lentz_after z n (S k)))))
  /\ (forall fuel,
        (forall j, (j < fuel)%nat -> lentz_continue (lentz_after z n (S j)) = true) ->
        Lentz_Dn fuel z n = Running).
Proof.
  split; [|split; [|split]].
  - intros fuel f. unfold Lentz_Dn.
    assert (H : forall fu s, lentz_loop fu s <> Fail f).
    { induction fu as [|fu IH]; intros s; simpl; [discriminate|].
      destruct (lentz_continue _); [apply IH | discriminate]. }
    specialize (H fuel (lentz_init z n)).
    destruct (lentz_loop fuel (lentz_init z n)); simpl; congruence.
  - intros s. unfold lentz_continue. apply Rltb_false.
  - intros k Hgo Hstop fuel Hk. unfold Lentz_Dn.
    rewrite (lentz_loop_stops k fuel (lentz_init z n) Hgo Hstop Hk).
    reflexivity.
  - intros fuel Hgo. unfold Lentz_Dn.
    rewrite (lentz_loop_running fuel (lentz_init z n) Hgo). reflexivity.
Qed.

End LentzFacts.

(** ** The Mie utilities on concrete inputs *)

Module MieExamples.
Import Mie MieFacts.

(** C9 on an input whose first cosine is not 1: two angles, cosines
    [1/2, 0], accumulated [S11 = 1, 2].  [MiePoly]'s last loop returns
    [g = 1]: its numerator takes the first interval as [|mu_0 - 1| = 1/2],
    its denominator as [mu_0 - 1 = -1/2].  The trapezoid quotient with
    one reading of the interval in both sums is [1/5] (length) or [-1]
    (signed). *)
Lemma anisotropy_first_interval :
  let mu := [1 / 2; 0] in
  let s11 := [1; 2] in
  let zero := [0; 0] in
  let smatrix := [make_float4 0 0 0 0; make_float4 0 0 0 0] in
  (exists smatrix', anisotropy 2 mu s11 zero zero zero smatrix = Ok (smatrix', 1))
  /\ spec_anisotropy false 2 mu s11 = 1 / 5
  /\ spec_anisotropy true 2 mu s11 = -1.
Proof.
  intros mu s11 zero smatrix.
  assert (A1 : Rabs (1 / 2 - 1) = 1 / 2)
    by (unfold Rabs; destruct (Rcase_abs _); lra).
  assert (A2 : Rabs (0 - 1 / 2) = 1 / 2)
    by (unfold Rabs; destruct (Rcase_abs _); lra).
  split; [|split].
  - destruct (anisotropy_closed_form 2 mu s11 zero zero zero smatrix)
      as (sm' & H & _); simpl; try lia.
    exists sm'. rewrite H. do 2 f_equal.
    unfold spec_weight, spec_interval, mu, s11; simpl.
    rewrite A1, A2. field.
  - unfold spec_anisotropy, spec_weight, spec_interval, mu, s11; simpl.
    rewrite A1, A2. field.
  - unfold spec_anisotropy, spec_weight, spec_interval, mu, s11; simpl.
    rewrite A2. field.
Qed.

(** C8, counterexample.  At [z = 5.7703603475674], [n = 0] the ratio after
    the first pass is within [1e-12] of [-1]: [Lentz_Dn] returns after that
    one pass, with [|ratio - 1| >= 1], far from the claim's stopping
    criterion.  At [z = 10^12], [n = 0] the loop has made 100001 passes,
    more than the recommended cap of 10^5, and is still running: it has
    neither met its test nor failed. *)
Lemma Lentz_Dn_modulus_and_no_cap :
  let z := RtoC 5.7703603475674 in
  let s := lentz_after z 0 1 in
  (forall fuel, Lentz_Dn (S fuel) z 0
                = Ok (Cadd (RdivC (- IZR 0) z) (runratio s)))
  /\ Rabs (cabs (ratio s) - 1) <= 1e-12
  /\ 1 <= cabs (Csub (ratio s) (RtoC 1))
  /\ Lentz_Dn (Z.to_nat 100001) (RtoC 1000000000000) 0 = Running.
Proof.
  intros z s.
  assert (Hr : ratio s
               = RtoC (- (3 * (6 * (5.7703603475674 * 5.7703603475674) - 15)
                          / ((5.7703603475674 * 5.7703603475674 - 3)
                             * (5.7703603475674 * 5.7703603475674 - 15)))))
    by (apply LentzFacts.first_pass_ratio; lra).
  set (q := 3 * (6 * (5.7703603475674 * 5.7703603475674) - 15)
            / ((5.7703603475674 * 5.7703603475674 - 3)
               * (5.7703603475674 * 5.7703603475674 - 15))) in *.
  assert (Hq : 1 - 1e-12 <= q <= 1 + 1e-12).
  { unfold q. split.
    - apply (Rmult_le_reg_r ((5.7703603475674 * 5.7703603475674 - 3)
                             * (5.7703603475674 * 5.7703603475674 - 15))); [lra|].
      unfold Rdiv. rewrite Rmult_assoc, Rinv_l by lra. lra.
    - apply (Rmult_le_reg_r ((5.7703603475674 * 5.7703603475674 - 3)
                             * (5.7703603475674 * 5.7703603475674 - 15))); [lra|].
      unfold Rdiv. rewrite Rmult_assoc, Rinv_l by lra. lra. }
  assert (Hmod : Rabs (cabs (ratio s) - 1) <= 1e-12).
  { rewrite Hr, LentzFacts.cabs_real, Rabs_Ropp, (Rabs_pos_eq q) by lra.
    apply Rabs_le. lra. }
  split; [|split; [|split]].
  - intros fuel. unfold Lentz_Dn.
    rewrite (LentzFacts.lentz_loop_stops 0 (S fuel) (lentz_init z 0)).
    + reflexivity.
    + intros j Hj. lia.
    + apply Rltb_false. exact Hmod.
    + lia.
  - exact Hmod.
  - rewrite Hr, LentzFacts.Csub_real, LentzFacts.cabs_real.
    rewrite Rabs_left by lra. lra.
  - apply LentzFacts.Lentz_Dn_runs_long; [lra|].
    rewrite INR_IZR_INZ, Z2Nat.id by lia.
    lra.
Qed.

Lemma small_Mie_one_angle (x mx : R) :
  exists r, small_Mie 1 x mx [1] [make_float4 0 0 0 0] = Ok r.
Proof.
  unfold small_Mie.
  cbn [for_loop bind load store nth_error upd Nat.ltb Nat.leb List.length].
  eexists. reflexivity.
Qed.

(** A witness of C7's hypothesis: one angle, [x = 0.05], [mx = 1.5], where
    [Mie] takes the small-particle branch and returns. *)
Lemma Mie_rows_bounded_witness :
  exists smatrix' qsca g,
    Mie 1 0 0.05 1.5 [1] [make_float4 0 0 0 0] = Ok (smatrix', qsca, g)
    /\ forall k, (k < 1)%nat ->
         exists r, nth_error smatrix' k = Some r
                   /\ 0 <= x4 r /\ Rabs (y4 r) <= x4 r.
Proof.
  assert (E : Mie 1 0 0.05 1.5 [1] [make_float4 0 0 0 0]
              = small_Mie 1 0.05 1.5 [1] [make_float4 0 0 0 0]).
  { unfold Mie.
    rewrite (proj2 (Rleb_false 0.05 0)), (proj2 (Rltb_false 20000 0.05)) by lra.
    cbn [creal].
    rewrite (proj2 (Rltb_true 0 1.5)) by lra.
    assert (Hc : cabs (make_Dcomplex 1.5 0) = 1.5).
    { unfold cabs; cbn [creal cimag].
      replace (1.5 * 1.5 + 0 * 0) with (Rsqr 1.5) by (unfold Rsqr; ring).
      apply sqrt_Rsqr. lra. }
    rewrite Hc, (proj2 (Rltb_true (1.5 * 0.05) 0.1)) by lra.
    rewrite Bool.orb_true_r. reflexivity. }
  destruct (small_Mie_one_angle 0.05 1.5) as ([[sm q] g] & ES).
  exists sm, q, g.
  assert (EM : Mie 1 0 0.05 1.5 [1] [make_float4 0 0 0 0] = Ok (sm, q, g))
    by (rewrite E; exact ES).
  split; [exact EM|].
  exact (MieFacts.Mie_rows_bounded 1 0 0.05 1.5 [1] [make_float4 0 0 0 0]
           sm q g (or_introl EM)).
Defined.

(** The hypotheses of [Mie_total] at one angle, [x = 1], [mx = 1.5]: the
    general branch. *)
Lemma Mie_total_witness :
  (0 < 1 <= 20000 /\ 0 <= 1.5)
  /\ exists smatrix' qsca g,
       Mie 1 0 1 1.5 [1] [make_float4 0 0 0 0] = Ok (smatrix', qsca, g).
Proof.
  assert (Hx : 0 < 1 <= 20000) by lra.
  assert (Hm : 0 <= 1.5) by lra.
  split; [split; assumption|].
  exact (MieFacts.Mie_total 1 0 1 1.5 [1] [make_float4 0 0 0 0] Hx Hm
           (le_n 1) (le_n 1)).
Defined.

End MieExamples.

(** ** What [Mie] returns *)

Module MieResults.
Import Mie MieFacts.

(** *** The rows of the Mueller matrix *)

Lemma cabs_sqr (a : Dcomplex) :
  cabs a * cabs a = creal a * creal a + cimag a * cimag a.
Proof. unfold cabs. apply sqrt_sqrt. nra. Qed.

Lemma mueller_identity (s1 s2 : Dcomplex) :
  x4 (mueller s1 s2) * x4 (mueller s1 s2)
  = y4 (mueller s1 s2) * y4 (mueller s1 s2)
    + z4 (mueller s1 s2) * z4 (mueller s1 s2)
    + w4 (mueller s1 s2) * w4 (mueller s1 s2).
Proof.
  unfold mueller; cbn [x4 y4 z4 w4].
  pose proof (cabs_sqr s1) as H1. pose proof (cabs_sqr s2) as H2.
  replace (0.5 * cabs s2 * cabs s2) with ((cabs s2 * cabs s2) / 2) by lra.
  replace (0.5 * cabs s1 * cabs s1) with ((cabs s1 * cabs s1) / 2) by lra.
  rewrite H1, H2.
  unfold Cmul, conj; cbn [creal cimag]. field.
Qed.

(** A loop that stores a [mueller] row at each index: the rows it has
    passed are [mueller] rows, the others are as before. *)
Lemma mueller_loop_frame (n : nat) (body : nat -> list float4 -> outcome (list float4))
  (smatrix smatrix' : list float4) :
  (forall j u u', body j u = Ok u' ->
     exists a b, u' = upd u j (mueller a b) /\ (j < List.length u)%nat) ->
  for_loop n 0 body smatrix = Ok smatrix' ->
  List.length smatrix' = List.length smatrix
  /\ (forall k, (k < n)%nat -> exists a b, nth_error smatrix' k = Some (mueller a b))
  /\ (forall k, (n <= k)%nat -> nth_error smatrix' k = nth_error smatrix k).
Proof.
  intros Hbody H.
  apply (for_loop_inv
           (fun i sm =>
              List.length sm = List.length smatrix
              /\ (forall k, (k < i)%nat -> exists a b, nth_error sm k = Some (mueller a b))
              /\ (forall k, (i <= k)%nat -> nth_error sm k = nth_error smatrix k))
           _ n 0 smatrix smatrix' H).
  - split; [reflexivity|]. split; [intros k Hk; lia | reflexivity].
  - intros j u u' Hj (Hl & Hlo & Hhi) Hb.
    destruct (Hbody j u u' Hb) as (a & b & -> & Hlt).
    split; [rewrite length_upd; exact Hl|]. split.
    + intros k Hk. destruct (Nat.eq_dec k j) as [->|Hne].
      * exists a, b. apply nth_error_upd_eq. exact Hlt.
      * rewrite nth_error_upd_neq by exact Hne. apply Hlo. lia.
    + intros k Hk. rewrite nth_error_upd_neq by lia. apply Hhi. lia.
Qed.

Lemma Cscale_zero (r : R) : Cscale r (RtoC 0) = (RtoC 0).
Proof. unfold Cscale, RtoC; cbn [creal cimag]. f_equal; ring. Qed.

Lemma Cmul_zero_l (a : Dcomplex) : Cmul (RtoC 0) a = (RtoC 0).
Proof. unfold Cmul, RtoC; cbn [creal cimag]. f_equal; ring. Qed.

Lemma Cdiv_zero_l (a : Dcomplex) : Cdiv (RtoC 0) a = (RtoC 0).
Proof. unfold Cdiv, RtoC; cbn [creal cimag]. f_equal; unfold Rdiv; ring. Qed.

Lemma Cadd_zero : Cadd (RtoC 0) (RtoC 0) = (RtoC 0).
Proof. unfold Cadd, RtoC; cbn [creal cimag]. f_equal; ring. Qed.

Lemma cabs_zero : cabs (RtoC 0) = 0.
Proof.
  unfold cabs, RtoC; cbn [creal cimag].
  replace (0 * 0 + 0 * 0) with 0 by ring. apply sqrt_0.
Qed.

Lemma mueller_zero : mueller (RtoC 0) (RtoC 0) = make_float4 0 0 0 0.
Proof.
  unfold mueller. rewrite cabs_zero.
  unfold Cmul, conj, RtoC; cbn [creal cimag]. f_equal; lra.
Qed.

Section WithConstants.

Variable NANGLES : nat.

Lemma small_Mie_frame (x mx : R) (mu : list R) (smatrix smatrix' : list float4)
  (qsca g : R) :
  small_Mie NANGLES x mx mu smatrix = Ok (smatrix', qsca, g) ->
  List.length smatrix' = List.length smatrix
  /\ (forall k, (k < NANGLES)%nat ->
        exists a b, nth_error smatrix' k = Some (mueller a b))
  /\ (forall k, (NANGLES <= k)%nat -> nth_error smatrix' k = nth_error smatrix k).
Proof.
  unfold small_Mie. intros H.
  apply bind_Ok in H. destruct H as (sm & Hloop & Hret).
  inversion Hret; subst sm. clear Hret.
  eapply mueller_loop_frame; [|exact Hloop].
  intros j u u' Hb. cbv beta in Hb.
  apply bind_Ok in Hb. destruct Hb as (muj & _ & Hst).
  apply store_Ok in Hst. destruct Hst as [-> Hlt]. eauto.
Qed.

Lemma Mie_main_frame (fuel : nat) (x mx : R) (mu : list R)
  (smatrix smatrix' : list float4) (qsca g : R) :
  Mie_main NANGLES fuel x mx mu smatrix = Ok (smatrix', qsca, g) ->
  List.length smatrix' = List.length smatrix
  /\ (forall k, (k < NANGLES)%nat ->
        exists a b, nth_error smatrix' k = Some (mueller a b))
  /\ (forall k, (NANGLES <= k)%nat -> nth_error smatrix' k = nth_error smatrix k).
Proof.
  unfold Mie_main. intros H.
  apply bind_Ok in H. destruct H as (p1 & _ & H).
  apply bind_Ok in H. destruct H as (D & _ & H).
  apply bind_Ok in H. destruct H as ([a sc] & _ & H).
  apply bind_Ok in H. destruct H as (sm & Hloop & Hret).
  inversion Hret; subst sm. clear Hret.
  eapply mueller_loop_frame; [|exact Hloop].
  intros j u u' Hb. cbv beta in Hb.
  apply bind_Ok in Hb. destruct Hb as (v1 & _ & Hb).
  apply bind_Ok in Hb. destruct Hb as (v2 & _ & Hst).
  apply store_Ok in Hst. destruct Hst as [-> Hlt]. eauto.
Qed.

Lemma Mie_frame (fuel : nat) (x mx : R) (mu : list R)
  (smatrix smatrix' : list float4) (qsca g : R) :
  Mie NANGLES fuel x mx mu smatrix = Ok (smatrix', qsca, g) ->
  List.length smatrix' = List.length smatrix
  /\ (forall k, (k < NANGLES)%nat ->
        exists a b, nth_error smatrix' k = Some (mueller a b))
  /\ (forall k, (NANGLES <= k)%nat -> nth_error smatrix' k = nth_error smatrix k).
Proof.
  unfold Mie. intros H.
  destruct (Rleb x 0); [discriminate|].
  destruct (Rltb 20000 x); [discriminate|].
  destruct (_ || _).
  - exact (small_Mie_frame _ _ _ _ _ _ _ H).
  - exact (Mie_main_frame _ _ _ _ _ _ _ _ H).
Qed.

(** Every row [Mie] writes is the Mueller row of a single pair of
    scattering amplitudes, so its four entries are tied by
    [S11^2 = S12^2 + S33^2 + S43^2] (exact arithmetic). *)
Theorem Mie_rows_fully_polarised (fuel : nat) (x mx : R) (mu : list R)
  (smatrix smatrix' : list float4) (qsca g : R) :
  Mie NANGLES fuel x mx mu smatrix = Ok (smatrix', qsca, g) ->
  forall k, (k < NANGLES)%nat ->
  exists r, nth_error smatrix' k = Some r
            /\ x4 r * x4 r = y4 r * y4 r + z4 r * z4 r + w4 r * w4 r.
Proof.
  intros H k Hk.
  destruct (Mie_frame _ _ _ _ _ _ _ _ H) as (_ & Hrows & _).
  destruct (Hrows k Hk) as (a & b & E).
  exists (mueller a b). split; [exact E | apply mueller_identity].
Qed.

(** [Mie] writes the rows [0 .. NANGLES-1] of [smatrix] and nothing else:
    the array keeps its length and every row from [NANGLES] on is as it
    was. *)
Theorem Mie_writes_only_its_rows (fuel : nat) (x mx : R) (mu : list R)
  (smatrix smatrix' : list float4) (qsca g : R) :
  Mie NANGLES fuel x mx mu smatrix = Ok (smatrix', qsca, g) ->
  List.length smatrix' = List.length smatrix
  /\ forall k, (NANGLES <= k)%nat -> nth_error smatrix' k = nth_error smatrix k.
Proof.
  intros H. destruct (Mie_frame _ _ _ _ _ _ _ _ H) as (Hl & _ & Ht).
  split; assumption.
Qed.

(** *** The scattering efficiency *)

Lemma small_Mie_qsca (x mx : R) (mu : list R) (smatrix smatrix' : list float4)
  (qsca g : R) :
  small_Mie NANGLES x mx mu smatrix = Ok (smatrix', qsca, g) -> 0 <= qsca.
Proof.
  unfold small_Mie. intros H.
  apply bind_Ok in H. destruct H as (sm & _ & Hret).
  inversion Hret; subst. clear Hret.
  repeat match goal with
  | |- context [cabs ?c * cabs ?c] =>
      let H := fresh "Hc" in
      let v := fresh "c" in
      pose proof (Rle_0_sqr (cabs c)) as H; unfold Rsqr in H;
      remember (cabs c) as v
  end.
  assert (Hx : 0 <= x * x * (x * x)) by (apply Rle_0_sqr).
  remember (x * x * (x * x)) as X.
  nra.
Qed.

Lemma mie_order_qsca (m : Dcomplex) (x : R) (D : option (list Dcomplex))
  (mu : list R) (n : nat) (a a' : mie_arrays) (sc sc' : mie_scalars) :
  mie_order NANGLES m x D mu n (a, sc) = Ok (a', sc') ->
  qsca sc <= qsca sc'.
Proof.
  unfold mie_order. intros H.
  apply bind_Ok in H. destruct H as ([[an bn] z1'] & _ & H).
  cbv beta iota in H.
  apply bind_Ok in H. destruct H as (a1 & _ & H).
  apply bind_Ok in H. destruct H as (a2 & _ & H).
  inversion H; subst. clear H.
  unfold mie_advance; cbn [qsca].
  pose proof (Rle_0_sqr (cabs an)) as H1. pose proof (Rle_0_sqr (cabs bn)) as H2.
  unfold Rsqr in H1, H2.
  pose proof (pos_INR n) as Hn.
  nra.
Qed.

Lemma Mie_main_qsca (fuel : nat) (x mx : R) (mu : list R)
  (smatrix smatrix' : list float4) (qsca g : R) :
  0 < x ->
  Mie_main NANGLES fuel x mx mu smatrix = Ok (smatrix', qsca, g) -> 0 <= qsca.
Proof.
  intros Hx. unfold Mie_main. intros H.
  apply bind_Ok in H. destruct H as (p1 & _ & H).
  apply bind_Ok in H. destruct H as (D & _ & H).
  apply bind_Ok in H. destruct H as ([a sc] & Hloop & H).
  apply bind_Ok in H. destruct H as (sm & _ & Hret).
  inversion Hret; subst. clear Hret.
  assert (Hq : 0 <= Mie.qsca sc).
  { apply (for_loop_inv
             (fun _ (st : mie_arrays * mie_scalars) => 0 <= Mie.qsca (snd st))
             _ _ _ _ _ Hloop).
    - cbn [snd Mie.qsca]. lra.
    - intros j [u su] [u' su'] _ Hu Hb. cbn [snd] in *.
      apply mie_order_qsca in Hb. lra. }
  assert (0 < 2 / (x * x)) by (apply Rdiv_lt_0_compat; nra).
  nra.
Qed.

(** The scattering efficiency [Mie] returns is never negative. *)
Theorem Mie_qsca_nonnegative (fuel : nat) (x mx : R) (mu : list R)
  (smatrix smatrix' : list float4) (qsca g : R) :
  Mie NANGLES fuel x mx mu smatrix = Ok (smatrix', qsca, g) -> 0 <= qsca.
Proof.
  unfold Mie. intros H.
  destruct (Rleb x 0) eqn:E; [discriminate|]. apply Rleb_false in E.
  destruct (Rltb 20000 x); [discriminate|].
  destruct (_ || _).
  - exact (small_Mie_qsca _ _ _ _ _ _ _ H).
  - exact (Mie_main_qsca _ _ _ _ _ _ _ _ E H).
Qed.

(** *** A sphere with the index of its medium *)

Lemma small_Mie_matched (x : R) (mu : list R) (smatrix smatrix' : list float4)
  (qsca g : R) :
  small_Mie NANGLES x 1 mu smatrix = Ok (smatrix', qsca, g) ->
  qsca = 0
  /\ forall k, (k < NANGLES)%nat -> nth_error smatrix' k = Some (make_float4 0 0 0 0).
Proof.
  unfold small_Mie. cbn [creal cimag].
  destruct (Req_dec_T 1 0) as [E|_]; [lra|].
  assert (Hz0 : make_Dcomplex
                  (- cimag (Cmul (make_Dcomplex 1 0) (make_Dcomplex 1 0)))
                  (creal (Cmul (make_Dcomplex 1 0) (make_Dcomplex 1 0)) - 1)
                = (RtoC 0)).
  { unfold Cmul, RtoC; cbn [creal cimag]. f_equal; lra. }
  rewrite Hz0.
  rewrite !Cscale_zero, !Cmul_zero_l, !Cdiv_zero_l, !Cscale_zero, !cabs_zero.
  intros H.
  apply bind_Ok in H. destruct H as (sm & Hloop & Hret).
  inversion Hret; subst. clear Hret.
  split; [lra|].
  assert (Hrows : forall k, (k < 0 + NANGLES)%nat ->
                            nth_error smatrix' k = Some (make_float4 0 0 0 0)).
  { apply (for_loop_inv
             (fun i sm => forall k, (k < i)%nat ->
                                    nth_error sm k = Some (make_float4 0 0 0 0))
             _ _ _ _ _ Hloop).
    - intros k Hk. lia.
    - intros j u u' _ Hu Hb. cbv beta in Hb.
      apply bind_Ok in Hb. destruct Hb as (muj & _ & Hst).
      rewrite !Cadd_zero, !Cscale_zero, Cadd_zero, mueller_zero in Hst.
      apply store_Ok in Hst. destruct Hst as [-> Hlt].
      intros k Hk. destruct (Nat.eq_dec k j) as [->|Hne].
      + apply nth_error_upd_eq. exact Hlt.
      + rewrite nth_error_upd_neq by exact Hne. apply Hu. lia. }
  exact Hrows.
Qed.

(** A small sphere with the refractive index of its medium does not
    scatter: for [mx = 1] and [0 < x < 0.1], where [Mie] takes the
    small-particle branch, the scattering efficiency it returns is 0 and
    every row of the Mueller matrix it writes is zero. *)
Theorem Mie_matched_small_sphere_is_dark (fuel : nat) (x : R) (mu : list R)
  (smatrix smatrix' : list float4) (qsca g : R) :
  0 < x < 0.1 ->
  Mie NANGLES fuel x 1 mu smatrix = Ok (smatrix', qsca, g) ->
  qsca = 0
  /\ forall k, (k < NANGLES)%nat -> nth_error smatrix' k = Some (make_float4 0 0 0 0).
Proof.
  intros [Hlo Hhi] H. unfold Mie in H.
  rewrite (proj2 (Rleb_false x 0) Hlo), (proj2 (Rltb_false 20000 x)) in H by lra.
  cbn [creal] in H.
  rewrite (proj2 (Rltb_true 0 1)) in H by lra.
  assert (Hc : cabs (make_Dcomplex 1 0) = 1).
  { unfold cabs; cbn [creal cimag].
    replace (1 * 1 + 0 * 0) with 1 by ring. apply sqrt_1. }
  rewrite Hc, (proj2 (Rltb_true (1 * x) 0.1)) in H by lra.
  rewrite Bool.orb_true_r in H.
  exact (small_Mie_matched x mu smatrix smatrix' qsca g H).
Qed.

(** *** A negative refractive index *)

(** With [mx < 0] and [0 < x <= 20000], [Mie] takes the general branch
    without allocating [D] (line 127 asks for [creal(m) > 0]) and then, at
    the first order, reads [D[1]] (line 153, reached since [creal(m)] is
    not 0 and [cimag(m)] is 0): a read through a pointer that was never
    set. *)
Theorem Mie_negative_index_reads_unallocated (fuel : nat) (x mx : R)
  (mu : list R) (smatrix : list float4) :
  0 < x <= 20000 -> mx < 0 ->
  Mie NANGLES fuel x mx mu smatrix = Fail Unallocated.
Proof.
  intros [Hlo Hhi] Hm. unfold Mie.
  rewrite (proj2 (Rleb_false x 0) Hlo), (proj2 (Rltb_false 20000 x) Hhi).
  cbn [creal].
  destruct (Req_dec_T mx 0) as [E|_]; [lra|].
  rewrite (proj2 (Rltb_false 0 mx)) by lra. cbn [orb andb].
  unfold Mie_main. cbn [creal cimag s1 s2 pi0 pi1 tau].
  pose proof (nstop_lower x Hlo) as Hn.
  set (nstop := Zfloor (x + 4.05 * Rpower x 0.33333 + 2)) in *.
  destruct (for_loop_total (fun _ (p : list R) => List.length p = NANGLES)
              (fun i p => store p i 1) NANGLES 0 (repeat 0 NANGLES))
    as (p1 & -> & Hp1).
  { apply repeat_length. }
  { intros j u Hj Hu. rewrite store_in_bounds by lia.
    eexists; split; [reflexivity|]. rewrite length_upd. exact Hu. }
  rewrite bind_Ok_l.
  rewrite (proj2 (Rltb_false 0 mx)) by lra. rewrite bind_Ok_l.
  destruct (Z.to_nat nstop) as [|c] eqn:Ec; [lia|].
  rewrite for_loop_S.
  unfold mie_order at 1, mie_coefficients; cbn [creal cimag].
  destruct (Req_dec_T mx 0) as [E|_]; [lra|].
  destruct (Req_dec_T 0 0) as [_|F]; [|congruence].
  reflexivity.
Qed.

End WithConstants.

End MieResults.

(** ** The scalars [Mie] returns *)

Module MieScalars.
Import Mie MieFacts.

(** Two loops whose bodies keep a relation between their states end in
    related states. *)
Lemma for_loop_rel {S1 S2} (Rel : S1 -> S2 -> Prop)
  (body1 : nat -> S1 -> outcome S1) (body2 : nat -> S2 -> outcome S2)
  (count i : nat) (s1 t1 : S1) (s2 t2 : S2) :
  for_loop count i body1 s1 = Ok t1 ->
  for_loop count i body2 s2 = Ok t2 ->
  Rel s1 s2 ->
  (forall j u1 u2 u1' u2',
      Rel u1 u2 -> body1 j u1 = Ok u1' -> body2 j u2 = Ok u2' -> Rel u1' u2') ->
  Rel t1 t2.
Proof.
  revert i s1 s2. induction count as [|c IH]; intros i s1 s2 H1 H2 Hr Hstep.
  - simpl in H1, H2. inversion H1; inversion H2; subst. exact Hr.
  - simpl in H1, H2.
    apply bind_Ok in H1. destruct H1 as (u1 & B1 & H1).
    apply bind_Ok in H2. destruct H2 as (u2 & B2 & H2).
    apply (IH (S i) u1 u2 H1 H2); [|exact Hstep].
    exact (Hstep i s1 s2 u1 u2 Hr B1 B2).
Qed.

Lemma mie_order_scalars (N : nat) (m : Dcomplex) (x : R)
  (D : option (list Dcomplex)) (mu : list R) (n : nat)
  (a a' : mie_arrays) (sc sc' : mie_scalars) :
  mie_order N m x D mu n (a, sc) = Ok (a', sc') ->
  exists an bn z1',
    mie_coefficients m x D n sc = Ok (an, bn, z1')
    /\ sc' = mie_advance x n an bn z1' sc.
Proof.
  unfold mie_order. intros H.
  apply bind_Ok in H. destruct H as ([[an bn] z1'] & Hc & H).
  cbv beta iota in H.
  apply bind_Ok in H. destruct H as (a1 & _ & H).
  apply bind_Ok in H. destruct H as (a2 & _ & H).
  inversion H; subst. eauto.
Qed.

Lemma small_Mie_scalars (N1 N2 : nat) (x mx : R) (mu1 mu2 : list R)
  (sm1 sm2 sm1' sm2' : list float4) (q1 q2 g1 g2 : R) :
  small_Mie N1 x mx mu1 sm1 = Ok (sm1', q1, g1) ->
  small_Mie N2 x mx mu2 sm2 = Ok (sm2', q2, g2) ->
  q1 = q2 /\ g1 = g2.
Proof.
  unfold small_Mie. intros H1 H2.
  apply bind_Ok in H1. destruct H1 as (u1 & _ & H1).
  apply bind_Ok in H2. destruct H2 as (u2 & _ & H2).
  inversion H1; inversion H2; subst. split; reflexivity.
Qed.

Lemma Mie_main_scalars (N1 N2 fuel : nat) (x mx : R) (mu1 mu2 : list R)
  (sm1 sm2 sm1' sm2' : list float4) (q1 q2 g1 g2 : R) :
  Mie_main N1 fuel x mx mu1 sm1 = Ok (sm1', q1, g1) ->
  Mie_main N2 fuel x mx mu2 sm2 = Ok (sm2', q2, g2) ->
  q1 = q2 /\ g1 = g2.
Proof.
  unfold Mie_main. intros H1 H2.
  apply bind_Ok in H1. destruct H1 as (p1 & _ & H1).
  apply bind_Ok in H2. destruct H2 as (p2 & _ & H2).
  apply bind_Ok in H1. destruct H1 as (D1 & HD1 & H1).
  apply bind_Ok in H2. destruct H2 as (D2 & HD2 & H2).
  assert (ED : D1 = D2) by congruence. subst D2. clear HD2.
  apply bind_Ok in H1. destruct H1 as ([a1 sc1] & L1 & H1).
  apply bind_Ok in H2. destruct H2 as ([a2 sc2] & L2 & H2).
  assert (Esc : sc1 = sc2).
  { apply (for_loop_rel
             (fun (st1 st2 : mie_arrays * mie_scalars) => snd st1 = snd st2)
             _ _ _ _ _ _ _ _ L1 L2).
    - reflexivity.
    - intros j [u1 c1] [u2 c2] [u1' c1'] [u2' c2'] E B1 B2.
      cbn [snd] in *. subst c2.
      apply mie_order_scalars in B1. destruct B1 as (an & bn & z1' & C1 & ->).
      apply mie_order_scalars in B2. destruct B2 as (an' & bn' & z2' & C2 & ->).
      rewrite C1 in C2. inversion C2; subst. reflexivity. }
  subst sc2.
  apply bind_Ok in H1. destruct H1 as (u1 & _ & H1).
  apply bind_Ok in H2. destruct H2 as (u2 & _ & H2).
  inversion H1; inversion H2; subst. split; reflexivity.
Qed.

(** The scattering efficiency and the anisotropy [Mie] returns depend on
    the size parameter and the refractive index only: two calls with the
    same [x] and [mx] that return give the same [qsca] and the same [g],
    whatever the number of angles, the cosines [mu] and the array
    [smatrix] they are given. *)
Theorem Mie_scalars_ignore_the_angles (N1 N2 fuel : nat) (x mx : R)
  (mu1 mu2 : list R) (sm1 sm2 sm1' sm2' : list float4) (q1 q2 g1 g2 : R) :
  Mie N1 fuel x mx mu1 sm1 = Ok (sm1', q1, g1) ->
  Mie N2 fuel x mx mu2 sm2 = Ok (sm2', q2, g2) ->
  q1 = q2 /\ g1 = g2.
Proof.
  unfold Mie. intros H1 H2.
  destruct (Rleb x 0); [discriminate|].
  destruct (Rltb 20000 x); [discriminate|].
  destruct (_ || _).
  - exact (small_Mie_scalars _ _ _ _ _ _ _ _ _ _ _ _ _ _ H1 H2).
  - exact (Mie_main_scalars _ _ _ _ _ _ _ _ _ _ _ _ _ _ _ H1 H2).
Qed.

End MieScalars.

(** ** [MiePoly] and the size distribution *)

Module MiePolyFacts.
Import Mie MieFacts.

Section WithConstants.

Variable NANGLES : nat.
Variable ONE_PI : R.
Variable TWO_PI : R.

(** [MiePoly] up to its first call of [Mie], on the smallest radius. *)
Lemma MiePoly_first_call (fuel : nat) (x mx : R)
  (mu : list R) (smatrix : list float4) (qsca g : R)
  (mean_radius CV nmed lambda : R) :
  let st_dev := mean_radius * CV in
  let delta_size := 6 * st_dev / 1001 in
  let szx := TWO_PI * (mean_radius - 3 * st_dev + INR 0 * delta_size)
             * nmed / lambda in
  forall f, Mie NANGLES fuel szx mx mu smatrix = Fail f ->
  MiePoly NANGLES ONE_PI TWO_PI fuel x mx mu smatrix qsca g
    mean_radius CV nmed lambda = Fail f.
Proof.
  intros st_dev delta_size szx f EM. unfold MiePoly.
  destruct (MiePoly_zero_loop NANGLES) as (p & -> & Hp). rewrite bind_Ok_l.
  destruct (MiePoly_weights_loop ONE_PI mean_radius st_dev delta_size)
    as (radii & weights & tot & Hw & Hlw & Hfirst).
  fold st_dev. fold delta_size. rewrite Hw, bind_Ok_l. cbv beta iota.
  unfold NRS at 1. rewrite for_loop_S.
  unfold MiePoly_radius at 1.
  rewrite (proj2 (load_Ok radii 0 _) Hfirst), bind_Ok_l.
  fold szx. rewrite EM. reflexivity.
Qed.

(** [MiePoly] samples the radii from [mean_radius - 3 st_dev] on, with
    [st_dev = mean_radius * CV], and hands each to [Mie] as a size
    parameter.  With a coefficient of variation of 1/3 or more (and
    positive [TWO_PI], [mean_radius], [nmed], [lambda]) the first radius is
    not positive, so the first call of [Mie] raises "sphere size must be
    positive" and [MiePoly] ends with that error, whatever its other
    arguments. *)
Theorem MiePoly_wide_distribution_is_rejected (fuel : nat) (x mx : R)
  (mu : list R) (smatrix : list float4) (qsca g : R)
  (mean_radius CV nmed lambda : R) :
  0 < TWO_PI -> 0 < mean_radius -> 0 < nmed -> 0 < lambda -> 1 / 3 <= CV ->
  MiePoly NANGLES ONE_PI TWO_PI fuel x mx mu smatrix qsca g
    mean_radius CV nmed lambda
  = Fail (MCX_ERROR (-6) "sphere size must be positive").
Proof.
  intros Hpi Hr Hn Hl Hcv.
  apply MiePoly_first_call.
  unfold Mie.
  match goal with
  | |- (if Rleb ?s 0 then _ else _) = _ =>
      assert (Hs : s <= 0); [|rewrite (proj2 (Rleb_true s 0) Hs); reflexivity]
  end.
  cbn [INR]. rewrite Rmult_0_l, Rplus_0_r.
  assert (Hrad : mean_radius - 3 * (mean_radius * CV) <= 0) by nra.
  assert (Hq : 0 < nmed / lambda) by (apply Rdiv_lt_0_compat; assumption).
  replace (TWO_PI * (mean_radius - 3 * (mean_radius * CV)) * nmed / lambda)
    with (TWO_PI * (mean_radius - 3 * (mean_radius * CV)) * (nmed / lambda))
    by (unfold Rdiv; ring).
  assert (TWO_PI * (mean_radius - 3 * (mean_radius * CV)) <= 0) by nra.
  nra.
Qed.

End WithConstants.

End MiePolyFacts.

(** ** The anisotropy when the first cosine is 1 *)

Module AnisotropyFacts.
Import Mie MieFacts.

Lemma sum_upto_ext (n : nat) (f g : nat -> R) :
  (forall k, (k < n)%nat -> f k = g k) -> sum_upto n f = sum_upto n g.
Proof.
  induction n as [|n IH]; intros H; [reflexivity|].
  simpl. rewrite IH by (intros; apply H; lia). rewrite (H n) by lia. reflexivity.
Qed.

Lemma spec_weight_forward (signed : bool) (mu s11 : list R) (k : nat) :
  nth 0 mu 0 = 1 ->
  spec_weight signed mu s11 k
  = match k with
    | O => 0
    | S j => (nth k s11 0 + nth j s11 0) / 2 * Rabs (nth k mu 0 - nth j mu 0)
    end.
Proof.
  intros H. unfold spec_weight, spec_interval. destruct k as [|j]; [|reflexivity].
  rewrite H. replace (1 - 1) with 0 by ring. rewrite Rabs_R0.
  destruct signed; ring.
Qed.

(** When the first cosine is 1 (the forward direction), the first sample
    adds nothing to either sum of lines 320-321 and 383-384, since
    [fabs(mu[0] - 1)] and [mu[0] - 1] are both 0: the loop of lines
    312-329 then copies the four arrays into [smatrix] and returns the
    trapezoid quotient over the intervals between consecutive samples,
    sample [k >= 1] weighing [(S11_k + S11_{k-1})/2 * |mu_k - mu_{k-1}|]. *)
Theorem anisotropy_with_forward_first_cosine (NANGLES : nat)
  (mu s11 s12 s33 s43 : list R) (smatrix : list float4) :
  nth 0 mu 0 = 1 ->
  (NANGLES <= List.length mu)%nat ->
  (NANGLES <= List.length s11)%nat -> (NANGLES <= List.length s12)%nat ->
  (NANGLES <= List.length s33)%nat -> (NANGLES <= List.length s43)%nat ->
  (NANGLES <= List.length smatrix)%nat ->
  let weight := fun k =>
    match k with
    | O => 0
    | S j => (nth k s11 0 + nth j s11 0) / 2 * Rabs (nth k mu 0 - nth j mu 0)
    end in
  exists smatrix',
    anisotropy NANGLES mu s11 s12 s33 s43 smatrix
    = Ok (smatrix',
          sum_upto NANGLES (fun k => nth k mu 0 * weight k)
          / sum_upto NANGLES weight)
    /\ forall k, (k < NANGLES)%nat ->
         nth_error smatrix' k
         = Some (make_float4 (nth k s11 0) (nth k s12 0) (nth k s33 0) (nth k s43 0)).
Proof.
  intros H1 Hmu H11 H12 H33 H43 Hsm weight.
  destruct (anisotropy_closed_form NANGLES mu s11 s12 s33 s43 smatrix
              Hmu H11 H12 H33 H43 Hsm) as (sm' & E & Hrows).
  assert (Ew : sum_upto NANGLES (spec_weight true mu s11) = sum_upto NANGLES weight).
  { apply sum_upto_ext. intros k _. apply spec_weight_forward. exact H1. }
  assert (En : sum_upto NANGLES (fun k => nth k mu 0 * spec_weight false mu s11 k)
               = sum_upto NANGLES (fun k => nth k mu 0 * weight k)).
  { apply sum_upto_ext. intros k _.
    rewrite (spec_weight_forward false mu s11 k H1). reflexivity. }
  exists sm'. split; [|exact Hrows].
  rewrite E, Ew, En. reflexivity.
Qed.

End AnisotropyFacts.

(** ** The tables of logarithmic derivatives *)

Module DnFacts.
Import Mie MieFacts LentzFacts.

(** The entry [Dn_up] computes at index [k] from the one below, and the
    entry [Dn_down] computes at index [k-1] from the one above
    (lines 540 and 559). *)
Lemma up_then_down (kz d : Dcomplex) :
  Csub kz d <> RtoC 0 ->
  Csub kz (RdivC 1 (Cadd (Csub (RdivC 1 (Csub kz d)) kz) kz)) = d.
Proof.
  intros Hw.
  destruct kz as [a b], d as [c e].
  unfold Csub, Cadd, RdivC, Cdiv, RtoC in *; cbn [creal cimag] in *.
  assert (Hn : (a - c) * (a - c) + (b - e) * (b - e) <> 0).
  { intros Hz. apply Hw.
    destruct (Rplus_sqr_eq_0 (a - c) (b - e)) as [H1 H2];
      [unfold Rsqr; exact Hz|].
    f_equal; lra. }
  f_equal; field; try exact Hn.
  all: split; [|exact Hn].
  all: intros Hz; apply Hn; nra.
Qed.

Lemma Dn_up_entries (z : Dcomplex) (nstop : Z) (D : list Dcomplex) :
  (1 <= nstop)%Z -> List.length D = Z.to_nat (nstop + 1) ->
  exists D',
    Dn_up z nstop D = Ok D'
    /\ List.length D' = List.length D
    /\ nth_error D' 0 = Some (RdivC 1 (ctan z))
    /\ (forall k, (1 <= k < Z.to_nat nstop)%nat ->
          exists d,
            nth_error D' (k - 1) = Some d
            /\ nth_error D' k
               = Some (Csub (RdivC 1 (Csub (Cscale (INR k) (RdivC 1 z)) d))
                            (Cscale (INR k) (RdivC 1 z))))
    /\ (forall k, (Z.to_nat nstop <= k)%nat -> nth_error D' k = nth_error D k).
Proof.
  intros Hn HD. unfold Dn_up.
  rewrite store_in_bounds by lia. rewrite bind_Ok_l.
  set (v0 := RdivC 1 (ctan z)).
  set (entry := fun (k : nat) (d : Dcomplex) =>
                  Csub (RdivC 1 (Csub (Cscale (INR k) (RdivC 1 z)) d))
                       (Cscale (INR k) (RdivC 1 z))).
  match goal with
  | |- context [for_loop ?c 1 ?body ?D0] =>
      destruct (for_loop_total
                  (fun i d =>
                     List.length d = List.length D
                     /\ nth_error d 0 = Some v0
                     /\ (forall k, (1 <= k < i)%nat ->
                           exists e, nth_error d (k - 1) = Some e
                                     /\ nth_error d k = Some (entry k e))
                     /\ (forall k, (i <= k)%nat -> nth_error d k = nth_error D k))
                  body c 1 D0) as (D' & -> & Hl & H0 & Hrec & Hrest)
  end.
  - split; [apply length_upd|]. split; [apply nth_error_upd_eq; lia|].
    split; [intros k Hk; lia|].
    intros k Hk. apply nth_error_upd_neq. lia.
  - intros j u Hj (Hl & H0 & Hrec & Hrest). cbv beta.
    destruct (load_in_bounds u (j - 1)) as (d & Ed); [lia|].
    rewrite Ed, bind_Ok_l, store_in_bounds by lia.
    apply load_Ok in Ed.
    eexists; split; [reflexivity|].
    split; [rewrite length_upd; exact Hl|].
    split; [rewrite nth_error_upd_neq by lia; exact H0|].
    split.
    + intros k Hk. destruct (Nat.eq_dec k j) as [->|Hne].
      * exists d. split.
        -- rewrite nth_error_upd_neq by lia. exact Ed.
        -- apply nth_error_upd_eq. lia.
      * destruct (Hrec k) as (e & E1 & E2); [lia|].
        exists e. rewrite !nth_error_upd_neq by lia. split; assumption.
    + intros k Hk. rewrite nth_error_upd_neq by lia. apply Hrest. lia.
  - exists D'. split; [reflexivity|]. split; [exact Hl|]. split; [exact H0|].
    replace (1 + Z.to_nat (nstop - 1))%nat with (Z.to_nat nstop) in * by lia.
    split; [exact Hrec | exact Hrest].
Qed.

(** [Dn_up] on a table of [nstop + 1] entries, [nstop >= 1]: it returns;
    entry 0 is [1/ctan(z)]; each entry [1 <= k < nstop] comes from the one
    below by [1/(k/z - D[k-1]) - k/z]; and the entries from [nstop] on,
    [D[nstop]] among them, are never written. *)
Theorem Dn_up_table (z : Dcomplex) (nstop : Z) (D : list Dcomplex) :
  (1 <= nstop)%Z -> List.length D = Z.to_nat (nstop + 1) ->
  exists D',
    Dn_up z nstop D = Ok D'
    /\ List.length D' = List.length D
    /\ nth_error D' 0 = Some (RdivC 1 (ctan z))
    /\ (forall k, (1 <= k < Z.to_nat nstop)%nat ->
          exists d,
            nth_error D' (k - 1) = Some d
            /\ nth_error D' k
               = Some (Csub (RdivC 1 (Csub (Cscale (INR k) (RdivC 1 z)) d))
                            (Cscale (INR k) (RdivC 1 z))))
    /\ (forall k, (Z.to_nat nstop <= k)%nat -> nth_error D' k = nth_error D k).
Proof. exact (Dn_up_entries z nstop D). Qed.

(** The two recurrences undo each other: on the table [Dn_up] returns,
    the entry [Dn_down] would write at [k-1] from the entry at [k]
    (line 559: [k/z - 1/(D[k] + k/z)]) is the entry that is already there,
    wherever [k/z - D[k-1]], the divisor of the upward step, is not 0. *)
Theorem Dn_down_step_undoes_Dn_up (z : Dcomplex) (nstop : Z) (D D' : list Dcomplex)
  (k : nat) (d dk : Dcomplex) :
  (1 <= nstop)%Z -> List.length D = Z.to_nat (nstop + 1) ->
  Dn_up z nstop D = Ok D' ->
  (1 <= k < Z.to_nat nstop)%nat ->
  nth_error D' (k - 1) = Some d -> nth_error D' k = Some dk ->
  Csub (Cscale (INR k) (RdivC 1 z)) d <> RtoC 0 ->
  Csub (Cscale (INR k) (RdivC 1 z))
       (RdivC 1 (Cadd dk (Cscale (INR k) (RdivC 1 z)))) = d.
Proof.
  intros Hn HD Hup Hk Ed Edk Hw.
  destruct (Dn_up_entries z nstop D Hn HD) as (D2 & E & _ & _ & Hrec & _).
  rewrite Hup in E. inversion E; subst D2. clear E.
  destruct (Hrec k Hk) as (e & E1 & E2).
  rewrite Ed in E1. inversion E1; subst e. clear E1.
  rewrite Edk in E2. inversion E2; subst dk. clear E2.
  apply up_then_down. exact Hw.
Qed.

(** A downward loop whose body always succeeds under an invariant it
    keeps ends normally. *)
Lemma for_down_total {St} (Inv : nat -> St -> Prop) (body : nat -> St -> outcome St)
  (count : nat) (s : St) :
  Inv count s ->
  (forall j u, (1 <= j <= count)%nat -> Inv j u ->
               exists u', body j u = Ok u' /\ Inv (j - 1)%nat u') ->
  exists t, for_down count body s = Ok t /\ Inv 0%nat t.
Proof.
  revert s. induction count as [|c IH]; intros s Hi Hstep.
  - exists s. split; [reflexivity | exact Hi].
  - destruct (Hstep (S c) s) as (s' & Hb & Hi'); [lia | exact Hi |].
    cbn [for_down]. rewrite Hb, bind_Ok_l.
    replace (S c - 1)%nat with c in Hi' by lia.
    apply IH; [exact Hi'|]. intros j u Hj. apply Hstep. lia.
Qed.

(** [Dn_down] on a table of [nstop + 1] entries, [nstop >= 1].  While
    [Lentz_Dn] has not returned, neither has [Dn_down].  Once [Lentz_Dn]
    returns [v], [Dn_down] returns: entry [nstop - 1] is [v] (the value
    [Lentz_Dn] computes for order [nstop]); each entry [k - 1],
    [1 <= k <= nstop - 1], comes from the one above by
    [k/z - 1/(D[k] + k/z)]; and [D[nstop]] is never written. *)
Theorem Dn_down_table (fuel : nat) (z : Dcomplex) (nstop : Z) (D : list Dcomplex) :
  (1 <= nstop)%Z -> List.length D = Z.to_nat (nstop + 1) ->
  (Lentz_Dn fuel z nstop = Running -> Dn_down fuel z nstop D = Running)
  /\ forall v, Lentz_Dn fuel z nstop = Ok v ->
       exists D',
         Dn_down fuel z nstop D = Ok D'
         /\ List.length D' = List.length D
         /\ nth_error D' (Z.to_nat (nstop - 1)) = Some v
         /\ (forall k, (1 <= k <= Z.to_nat (nstop - 1))%nat ->
               exists d,
                 nth_error D' k = Some d
                 /\ nth_error D' (k - 1)
                    = Some (Csub (Cscale (INR k) (RdivC 1 z))
                                 (RdivC 1 (Cadd d (Cscale (INR k) (RdivC 1 z))))))
         /\ nth_error D' (Z.to_nat nstop) = nth_error D (Z.to_nat nstop).
Proof.
  intros Hn HD. split.
  - intros HL. unfold Dn_down. rewrite HL. reflexivity.
  - intros v HL. unfold Dn_down. rewrite HL, bind_Ok_l.
    replace (nstop <? 1)%Z with false by (symmetry; apply Z.ltb_ge; lia).
    rewrite store_in_bounds by lia. rewrite bind_Ok_l.
    set (top := Z.to_nat (nstop - 1)).
    set (entry := fun (k : nat) (d : Dcomplex) =>
                    Csub (Cscale (INR k) (RdivC 1 z))
                         (RdivC 1 (Cadd d (Cscale (INR k) (RdivC 1 z))))).
    assert (Htop : (top < List.length D)%nat) by (unfold top; lia).
    assert (Hns : Z.to_nat nstop = S top) by (unfold top; lia).
    match goal with
    | |- context [for_down top ?body ?D0] =>
        destruct (for_down_total
                    (fun j d =>
                       List.length d = List.length D
                       /\ nth_error d top = Some v
                       /\ (forall k, (j < k <= top)%nat ->
                             exists e, nth_error d k = Some e
                                       /\ nth_error d (k - 1) = Some (entry k e))
                       /\ nth_error d (S top) = nth_error D (S top))
                    body top D0) as (D' & -> & Hl & Hv & Hrec & Hrest)
    end.
    + split; [apply length_upd|]. split; [apply nth_error_upd_eq; exact Htop|].
      split; [intros k Hk; lia|].
      apply nth_error_upd_neq. lia.
    + intros j u Hj (Hl & Hv & Hrec & Hrest). cbv beta.
      destruct (load_in_bounds u j) as (e & Ee); [lia|].
      rewrite Ee, bind_Ok_l, store_in_bounds by lia.
      apply load_Ok in Ee.
      eexists; split; [reflexivity|].
      split; [rewrite length_upd; exact Hl|].
      split; [rewrite nth_error_upd_neq by lia; exact Hv|].
      split.
      * intros k Hk. destruct (Nat.eq_dec k j) as [->|Hne].
        -- exists e. split.
           ++ rewrite nth_error_upd_neq by lia. exact Ee.
           ++ apply nth_error_upd_eq. lia.
        -- destruct (Hrec k) as (e' & E1 & E2); [lia|].
           exists e'. rewrite !nth_error_upd_neq by lia. split; assumption.
      * rewrite nth_error_upd_neq by lia. exact Hrest.
    + exists D'. split; [reflexivity|]. split; [exact Hl|]. split; [exact Hv|].
      split.
      * intros k Hk. apply Hrec. lia.
      * rewrite Hns. exact Hrest.
Qed.

(** The ratio after the first pass, for a real [z] with [z^2 > 63] and
    [n = 2]. *)
Lemma first_pass_ratio_2 (zr : R) :
  0 < zr -> 63 < zr * zr ->
  ratio (lentz_after (RtoC zr) 2 1)
  = RtoC (- (7 * (14 * (zr * zr) - 315) / ((zr * zr - 35) * (zr * zr - 63)))).
Proof.
  intros Hz Hz2.
  change (lentz_after (RtoC zr) 2 1) with (lentz_body (lentz_init (RtoC zr) 2)).
  unfold lentz_body, lentz_init; cbn [alpha_j1 alpha_j2 aj zinv ratio].
  unfold RdivC. rewrite (Cdiv_real 2 zr) by lra.
  rewrite !Cscale_real.
  assert (Ealpha : (2 + 0.5) * (2 / zr) = 5 / zr) by lra.
  assert (Eaj : (- (2) - 1.5) * (2 / zr) = - (7 / zr)) by lra.
  rewrite Ealpha, Eaj.
  assert (H5z : 0 < 5 / zr) by (apply Rdiv_lt_0_compat; lra).
  assert (H7z : 0 < 7 / zr) by (apply Rdiv_lt_0_compat; lra).
  rewrite (Cdiv_real 1 (5 / zr)) by lra.
  rewrite Cadd_real, Csub_real.
  assert (Ea1 : - (7 / zr) + 1 / (5 / zr) = (zr * zr - 35) / (5 * zr)) by (field; lra).
  assert (Ec : 2 / zr - - (7 / zr) = 9 / zr) by (field; lra).
  rewrite Ea1, Ec.
  assert (Ha1 : 0 < (zr * zr - 35) / (5 * zr)) by (apply Rdiv_lt_0_compat; lra).
  rewrite (Cdiv_real 1 ((zr * zr - 35) / (5 * zr))), (Cdiv_real 1 (- (7 / zr))) by lra.
  rewrite !Cadd_real.
  assert (Ea1' : 1 / ((zr * zr - 35) / (5 * zr)) + 9 / zr
                 = (14 * (zr * zr) - 315) / (zr * (zr * zr - 35)))
    by (field; lra).
  assert (Ea2' : 1 / - (7 / zr) + 9 / zr = - ((zr * zr - 63) / (7 * zr)))
    by (field; lra).
  rewrite Ea1', Ea2'.
  assert (Ha2' : 0 < (zr * zr - 63) / (7 * zr)) by (apply Rdiv_lt_0_compat; lra).
  rewrite Cdiv_real by lra.
  f_equal. field. repeat split; lra.
Qed.

End DnFacts.

(** ** More of the Mie utilities on concrete inputs *)

Module MieMoreExamples.
Import Mie MieFacts LentzFacts MieResults MieScalars MiePolyFacts AnisotropyFacts DnFacts.

(** [Mie] at [x = 0.05], [mx = 1.5] takes the small-particle branch and
    returns, on any arrays long enough. *)
Lemma Mie_small_example (N : nat) (mu : list R) (smatrix : list float4) :
  (N <= List.length mu)%nat -> (N <= List.length smatrix)%nat ->
  exists smatrix' qsca g, Mie N 0 0.05 1.5 mu smatrix = Ok (smatrix', qsca, g).
Proof.
  intros Hmu Hsm.
  assert (E : Mie N 0 0.05 1.5 mu smatrix = small_Mie N 0.05 1.5 mu smatrix).
  { unfold Mie.
    rewrite (proj2 (Rleb_false 0.05 0)), (proj2 (Rltb_false 20000 0.05)) by lra.
    cbn [creal].
    rewrite (proj2 (Rltb_true 0 1.5)) by lra.
    assert (Hc : cabs (make_Dcomplex 1.5 0) = 1.5).
    { unfold cabs; cbn [creal cimag].
      replace (1.5 * 1.5 + 0 * 0) with (Rsqr 1.5) by (unfold Rsqr; ring).
      apply sqrt_Rsqr. lra. }
    rewrite Hc, (proj2 (Rltb_true (1.5 * 0.05) 0.1)) by lra.
    rewrite Bool.orb_true_r. reflexivity. }
  destruct (small_Mie_total N 0.05 1.5 mu smatrix Hmu Hsm) as ([[sm q] g] & ES).
  exists sm, q, g. rewrite E. exact ES.
Qed.

(** [Mie] at [x = 1], [mx = 1.5] returns, on any arrays long enough. *)
Lemma Mie_general_example (N : nat) (mu : list R) (smatrix : list float4) :
  (N <= List.length mu)%nat -> (N <= List.length smatrix)%nat ->
  exists smatrix' qsca g, Mie N 0 1 1.5 mu smatrix = Ok (smatrix', qsca, g).
Proof.
  intros Hmu Hsm. unfold Mie.
  rewrite (proj2 (Rleb_false 1 0)), (proj2 (Rltb_false 20000 1)) by lra.
  destruct (_ || _).
  - destruct (small_Mie_total N 1 1.5 mu smatrix Hmu Hsm) as ([[sm q] g] & ->).
    eauto.
  - destruct (Mie_main_total N 0 1 1.5 mu smatrix) as ([[sm q] g] & ->);
      try assumption; try lra.
    eauto.
Qed.

(** One angle, [x = 0.05], [mx = 1.5]. *)
Lemma Mie_rows_fully_polarised_witness :
  exists smatrix' qsca g,
    Mie 1 0 0.05 1.5 [1] [make_float4 0 0 0 0] = Ok (smatrix', qsca, g)
    /\ forall k, (k < 1)%nat ->
         exists r, nth_error smatrix' k = Some r
                   /\ x4 r * x4 r = y4 r * y4 r + z4 r * z4 r + w4 r * w4 r.
Proof.
  destruct (Mie_small_example 1 [1] [make_float4 0 0 0 0] (le_n 1) (le_n 1))
    as (sm & q & g & EM).
  exists sm, q, g. split; [exact EM|].
  exact (Mie_rows_fully_polarised 1 0 0.05 1.5 [1] [make_float4 0 0 0 0] sm q g EM).
Defined.

(** One angle and an array of two rows: the second row is left alone. *)
Lemma Mie_writes_only_its_rows_witness :
  let smatrix := [make_float4 0 0 0 0; make_float4 1 2 3 4] in
  exists smatrix' qsca g,
    Mie 1 0 0.05 1.5 [1] smatrix = Ok (smatrix', qsca, g)
    /\ List.length smatrix' = List.length smatrix
    /\ forall k, (1 <= k)%nat -> nth_error smatrix' k = nth_error smatrix k.
Proof.
  intros smatrix.
  destruct (Mie_small_example 1 [1] smatrix (le_n 1) (le_S 1 1 (le_n 1)))
    as (sm & q & g & EM).
  exists sm, q, g. split; [exact EM|].
  exact (Mie_writes_only_its_rows 1 0 0.05 1.5 [1] smatrix sm q g EM).
Defined.

(** One angle, [x = 1], [mx = 1.5]. *)
Lemma Mie_qsca_nonnegative_witness :
  exists smatrix' qsca g,
    Mie 1 0 1 1.5 [1] [make_float4 0 0 0 0] = Ok (smatrix', qsca, g)
    /\ 0 <= qsca.
Proof.
  destruct (Mie_general_example 1 [1] [make_float4 0 0 0 0] (le_n 1) (le_n 1))
    as (sm & q & g & EM).
  exists sm, q, g. split; [exact EM|].
  exact (Mie_qsca_nonnegative 1 0 1 1.5 [1] [make_float4 0 0 0 0] sm q g EM).
Defined.

(** The same sphere on one angle and on two. *)
Lemma Mie_scalars_ignore_the_angles_witness :
  exists sm1 q1 g1 sm2 q2 g2,
    Mie 1 0 1 1.5 [1] [make_float4 0 0 0 0] = Ok (sm1, q1, g1)
    /\ Mie 2 0 1 1.5 [1; 0] [make_float4 0 0 0 0; make_float4 0 0 0 0]
       = Ok (sm2, q2, g2)
    /\ q1 = q2 /\ g1 = g2.
Proof.
  destruct (Mie_general_example 1 [1] [make_float4 0 0 0 0] (le_n 1) (le_n 1))
    as (sm1 & q1 & g1 & E1).
  destruct (Mie_general_example 2 [1; 0] [make_float4 0 0 0 0; make_float4 0 0 0 0]
              (le_n 2) (le_n 2)) as (sm2 & q2 & g2 & E2).
  exists sm1, q1, g1, sm2, q2, g2.
  split; [exact E1|]. split; [exact E2|].
  exact (Mie_scalars_ignore_the_angles 1 2 0 1 1.5 _ _ _ _ _ _ _ _ _ _ E1 E2).
Defined.

(** A refractive index of -1.5 at [x = 1]. *)
Lemma Mie_negative_index_reads_unallocated_witness :
  (0 < 1 <= 20000 /\ -1.5 < 0)
  /\ Mie 1 0 1 (-1.5) [1] [make_float4 0 0 0 0] = Fail Unallocated.
Proof.
  assert (Hx : 0 < 1 <= 20000) by lra.
  assert (Hm : -1.5 < 0) by lra.
  split; [split; assumption|].
  exact (Mie_negative_index_reads_unallocated 1 0 1 (-1.5) [1]
           [make_float4 0 0 0 0] Hx Hm).
Defined.

(** A coefficient of variation of 1/2. *)
Lemma MiePoly_wide_distribution_is_rejected_witness :
  (0 < 6.28 /\ 0 < 0.5 /\ 0 < 1.33 /\ 0 < 0.6 /\ 1 / 3 <= 1 / 2)
  /\ MiePoly 1 3.14 6.28 0 1 1.5 [1] [make_float4 0 0 0 0] 0 0 0.5 (1 / 2) 1.33 0.6
     = Fail (MCX_ERROR (-6) "sphere size must be positive").
Proof.
  assert (H1 : 0 < 6.28) by lra. assert (H2 : 0 < 0.5) by lra.
  assert (H3 : 0 < 1.33) by lra. assert (H4 : 0 < 0.6) by lra.
  assert (H5 : 1 / 3 <= 1 / 2) by lra.
  split; [repeat split; assumption|].
  exact (MiePoly_wide_distribution_is_rejected 1 3.14 6.28 0 1 1.5 [1]
           [make_float4 0 0 0 0] 0 0 0.5 (1 / 2) 1.33 0.6 H1 H2 H3 H4 H5).
Defined.

(** A table of three entries, [nstop = 2]. *)
Lemma Dn_up_table_witness :
  let z := RtoC 1 in
  let D := [RtoC 0; RtoC 0; RtoC 7] in
  exists D',
    Dn_up z 2 D = Ok D'
    /\ List.length D' = List.length D
    /\ nth_error D' 0 = Some (RdivC 1 (ctan z))
    /\ (forall k, (1 <= k < Z.to_nat 2)%nat ->
          exists d,
            nth_error D' (k - 1) = Some d
            /\ nth_error D' k
               = Some (Csub (RdivC 1 (Csub (Cscale (INR k) (RdivC 1 z)) d))
                            (Cscale (INR k) (RdivC 1 z))))
    /\ (forall k, (Z.to_nat 2 <= k)%nat -> nth_error D' k = nth_error D k).
Proof.
  intros z D.
  exact (Dn_up_table z 2 D ltac:(lia) eq_refl).
Defined.

(** One angle, [x = 0.05], [mx = 1]. *)
Lemma Mie_matched_small_sphere_is_dark_witness :
  0 < 0.05 < 0.1
  /\ exists smatrix' qsca g,
       Mie 1 0 0.05 1 [1] [make_float4 5 5 5 5] = Ok (smatrix', qsca, g)
       /\ qsca = 0
       /\ forall k, (k < 1)%nat -> nth_error smatrix' k = Some (make_float4 0 0 0 0).
Proof.
  assert (Hx : 0 < 0.05 < 0.1) by lra.
  split; [exact Hx|].
  assert (E : exists r, Mie 1 0 0.05 1 [1] [make_float4 5 5 5 5] = Ok r).
  { unfold Mie.
    rewrite (proj2 (Rleb_false 0.05 0)), (proj2 (Rltb_false 20000 0.05)) by lra.
    destruct (_ || _).
    - apply small_Mie_total; simpl; lia.
    - apply Mie_main_total; simpl; try lia; lra. }
  destruct E as ([[sm q] g] & E).
  exists sm, q, g. split; [exact E|].
  exact (Mie_matched_small_sphere_is_dark 1 0 0.05 [1] [make_float4 5 5 5 5]
           sm q g Hx E).
Defined.

(** Two angles, cosines [1, 0]. *)
Lemma anisotropy_with_forward_first_cosine_witness :
  let mu := [1; 0] in
  let s11 := [1; 2] in
  let zero := [0; 0] in
  let smatrix := [make_float4 0 0 0 0; make_float4 0 0 0 0] in
  let weight := fun k =>
    match k with
    | O => 0
    | S j => (nth k s11 0 + nth j s11 0) / 2 * Rabs (nth k mu 0 - nth j mu 0)
    end in
  nth 0 mu 0 = 1
  /\ exists smatrix',
       anisotropy 2 mu s11 zero zero zero smatrix
       = Ok (smatrix',
             sum_upto 2 (fun k => nth k mu 0 * weight k) / sum_upto 2 weight)
       /\ forall k, (k < 2)%nat ->
            nth_error smatrix' k
            = Some (make_float4 (nth k s11 0) (nth k zero 0) (nth k zero 0)
                      (nth k zero 0)).
Proof.
  intros mu s11 zero smatrix weight.
  split; [reflexivity|].
  exact (anisotropy_with_forward_first_cosine 2 mu s11 zero zero zero smatrix
           eq_refl (le_n 2) (le_n 2) (le_n 2) (le_n 2) (le_n 2) (le_n 2)).
Defined.

Lemma ctan_3PI4 : ctan (RtoC (3 * (PI / 4))) = make_Dcomplex (-1) 0.
Proof.
  unfold ctan, csin, ccos, Cdiv, RtoC; cbn [creal cimag].
  rewrite sin_3PI4, cos_3PI4, cosh_0, sinh_0.
  pose proof sqrt2_neq_0 as Hq.
  f_equal; field; repeat split; try exact Hq.
  all: intros H; apply Hq; nra.
Qed.

(** A table of three entries at [z = 3 pi / 4], where [ctan z = -1]. *)
Lemma Dn_down_step_undoes_Dn_up_witness :
  let z := RtoC (3 * (PI / 4)) in
  let kz := Cscale (INR 1) (RdivC 1 z) in
  let d := RdivC 1 (ctan z) in
  let dk := Csub (RdivC 1 (Csub kz d)) kz in
  ((1 <= 2)%Z /\ (1 <= 1 < Z.to_nat 2)%nat)
  /\ Dn_up z 2 [RtoC 0; RtoC 0; RtoC 0] = Ok [d; dk; RtoC 0]
  /\ Csub kz d <> RtoC 0
  /\ Csub kz (RdivC 1 (Cadd dk kz)) = d.
Proof.
  intros z kz d dk.
  assert (Hn : (1 <= 2)%Z) by lia.
  assert (Hk : (1 <= 1 < Z.to_nat 2)%nat) by (simpl; lia).
  assert (E : Dn_up z 2 [RtoC 0; RtoC 0; RtoC 0] = Ok [d; dk; RtoC 0])
    by reflexivity.
  assert (Hw : Csub kz d <> RtoC 0).
  { intros Heq. apply (f_equal creal) in Heq.
    unfold kz, d, z in Heq. rewrite ctan_3PI4 in Heq.
    unfold Csub, Cscale, RdivC, Cdiv, RtoC in Heq; cbn [creal cimag INR] in Heq.
    pose proof PI_RGT_0 as Hpi.
    assert (Ht : 0 < 3 * (PI / 4)) by lra.
    remember (3 * (PI / 4)) as t.
    assert (E1 : (1 * t + 0 * 0) / (t * t + 0 * 0) = / t) by (field; lra).
    assert (E2 : (1 * -1 + 0 * 0) / (-1 * -1 + 0 * 0) = -1) by (field; lra).
    rewrite E1, E2 in Heq.
    assert (0 < / t) by (apply Rinv_0_lt_compat; exact Ht).
    lra. }
  split; [split; assumption|]. split; [exact E|]. split; [exact Hw|].
  exact (Dn_down_step_undoes_Dn_up z 2 [RtoC 0; RtoC 0; RtoC 0] [d; dk; RtoC 0]
           1 d dk Hn eq_refl E Hk eq_refl eq_refl Hw).
Defined.

(** At [z = 13.0410663285986], order 2, [Lentz_Dn] returns after one
    pass. *)
Lemma Lentz_Dn_order_2 :
  let z := RtoC 13.0410663285986 in
  Lentz_Dn 1 z 2
  = Ok (Cadd (RdivC (- IZR 2) z) (runratio (lentz_after z 2 1))).
Proof.
  intros z.
  assert (Hr : ratio (lentz_after z 2 1)
               = RtoC (- (7 * (14 * (13.0410663285986 * 13.0410663285986) - 315)
                          / ((13.0410663285986 * 13.0410663285986 - 35)
                             * (13.0410663285986 * 13.0410663285986 - 63)))))
    by (apply first_pass_ratio_2; lra).
  set (q := 7 * (14 * (13.0410663285986 * 13.0410663285986) - 315)
            / ((13.0410663285986 * 13.0410663285986 - 35)
               * (13.0410663285986 * 13.0410663285986 - 63))) in *.
  assert (Hq : 1 - 1e-12 <= q <= 1 + 1e-12).
  { unfold q. split.
    - apply (Rmult_le_reg_r ((13.0410663285986 * 13.0410663285986 - 35)
                             * (13.0410663285986 * 13.0410663285986 - 63))); [lra|].
      unfold Rdiv. rewrite Rmult_assoc, Rinv_l by lra. lra.
    - apply (Rmult_le_reg_r ((13.0410663285986 * 13.0410663285986 - 35)
                             * (13.0410663285986 * 13.0410663285986 - 63))); [lra|].
      unfold Rdiv. rewrite Rmult_assoc, Rinv_l by lra. lra. }
  assert (Hmod : Rabs (cabs (ratio (lentz_after z 2 1)) - 1) <= 1e-12).
  { rewrite Hr, cabs_real, Rabs_Ropp, (Rabs_pos_eq q) by lra.
    apply Rabs_le. lra. }
  unfold Lentz_Dn.
  rewrite (lentz_loop_stops 0 1 (lentz_init z 2)).
  - reflexivity.
  - intros j Hj. lia.
  - apply Rltb_false. exact Hmod.
  - lia.
Qed.

(** A table of three entries at [z = 13.0410663285986], [nstop = 2]. *)
Lemma Dn_down_table_witness :
  let z := RtoC 13.0410663285986 in
  let D := [RtoC 0; RtoC 0; RtoC 7] in
  let v := Cadd (RdivC (- IZR 2) z) (runratio (lentz_after z 2 1)) in
  Lentz_Dn 1 z 2 = Ok v
  /\ exists D',
       Dn_down 1 z 2 D = Ok D'
       /\ List.length D' = List.length D
       /\ nth_error D' (Z.to_nat (2 - 1)) = Some v
       /\ (forall k, (1 <= k <= Z.to_nat (2 - 1))%nat ->
             exists d,
               nth_error D' k = Some d
               /\ nth_error D' (k - 1)
                  = Some (Csub (Cscale (INR k) (RdivC 1 z))
                               (RdivC 1 (Cadd d (Cscale (INR k) (RdivC 1 z))))))
       /\ nth_error D' (Z.to_nat 2) = nth_error D (Z.to_nat 2).
Proof.
  intros z D v.
  split; [exact Lentz_Dn_order_2|].
  exact (proj2 (Dn_down_table 1 z 2 D ltac:(lia) eq_refl) v Lentz_Dn_order_2).
Defined.

End MieMoreExamples.
